(** * contributor-analyze: retry policy, batch executor and ability estimator

    A shallow embedding of [lib/batch-processor.ts] (retryWithBackoff and the
    BatchProcessor class) and of [lib/mle-logic.ts] (the grid-search MAP
    estimator and its confidence interval), with the properties the
    specification states about them; then of the constructor of
    BatchProcessor, of [calculateUserAbility] and of the route
    [POST /api/ability-score] that calls it, with further properties of all
    of these that the code shows.

    Conventions.
    - Wall-clock time is a millisecond counter ([Z]).  A timer fires when it
      is due, and [setTimeout] gives it the delay Node gives it: the delay
      asked for when that lies between [1] and [2^31 - 1] ms, and [1] ms
      otherwise ([timer_delay]).
    - [Math.random()] is a sequence of rationals, one per draw.
    - A JavaScript [number] used as a count or a duration is an integer
      ([Z]).  The code computes durations in binary64, which is exact up to
      [2^53].  Beyond it the code rounds, which changes no timer (a delay
      above [2^31 - 1] ms is replaced by [1] ms whatever it is) but does
      change the value of a timestamp or of a parsed hint: the statements
      about such a value bound it by [2^53].
    - A thrown value is read the way the [catch] clause reads it; its
      message is a string or a truthy value that is no string
      ([message_value]).
    - A [number] of the estimator is a real number extended with the IEEE
      special values [Infinity], [-Infinity] and [NaN].  [AbilityEstimator]
      computes on finite values exactly (rounding and overflow are not
      modelled there); [AnyArithmetic] is the same code over arbitrary
      arithmetic operations, binary64 among them. *)

From Stdlib Require Import List String Ascii Bool Arith ZArith QArith Qround Lia.
From Stdlib Require Import Reals Lra Psatz Permutation.
Import ListNotations.

(* ====================================================================== *)
(** * Part I: RetryPolicy ([retryWithBackoff]) *)
(* ====================================================================== *)

Module RetryPolicy.

Local Open Scope string_scope.
Local Open Scope Z_scope.

(** ** Strings and the three patterns the code matches *)

Definition is_digit (c : ascii) : bool :=
  ((48 <=? nat_of_ascii c) && (nat_of_ascii c <=? 57))%nat.

(** ASCII lower-casing: the [i] flag of a non-unicode JavaScript regex only
    identifies the two cases of an ASCII letter. *)
Definition lower (c : ascii) : ascii :=
  let n := nat_of_ascii c in
  if ((65 <=? n) && (n <=? 90))%nat then ascii_of_nat (n + 32) else c.

Definition eqb_ci (a b : ascii) : bool := Ascii.eqb (lower a) (lower b).

(** [strip_prefix_ci p s]: when [s] starts with [p] up to ASCII case, what
    follows [p] in [s]. *)
Fixpoint strip_prefix_ci (p s : string) : option string :=
  match p with
  | EmptyString => Some s
  | String a p' =>
      match s with
      | EmptyString => None
      | String b s' => if eqb_ci a b then strip_prefix_ci p' s' else None
      end
  end.

Fixpoint strip_prefix (p s : string) : option string :=
  match p with
  | EmptyString => Some s
  | String a p' =>
      match s with
      | EmptyString => None
      | String b s' => if Ascii.eqb a b then strip_prefix p' s' else None
      end
  end.

(** The longest run of decimal digits at the head of [s], and the rest. *)
Fixpoint span_digits (s : string) : string * string :=
  match s with
  | EmptyString => (EmptyString, EmptyString)
  | String c s' =>
      if is_digit c
      then let (ds, r) := span_digits s' in (String c ds, r)
      else (EmptyString, s)
  end.

Definition digit_value (c : ascii) : Z := Z.of_nat (nat_of_ascii c) - 48.

(** [parseInt(ds, 10)] on a string of digits. *)
Fixpoint parse_digits (acc : Z) (ds : string) : Z :=
  match ds with
  | EmptyString => acc
  | String c ds' => parse_digits (acc * 10 + digit_value c) ds'
  end.

Definition parseInt10 (ds : string) : Z := parse_digits 0 ds.

Definition dquote : ascii := ascii_of_nat 34.

(** An optional double quote (the regex's optional quote). *)
Definition skip_quote (s : string) : string :=
  match s with
  | String c s' => if Ascii.eqb c dquote then s' else s
  | EmptyString => s
  end.

(** The first position of [s] (leftmost) where [f] matches. *)
Fixpoint regex_search {A : Type} (f : string -> option A) (s : string) : option A :=
  match f s with
  | Some a => Some a
  | None =>
      match s with
      | EmptyString => None
      | String _ s' => regex_search f s'
      end
  end.

(** The regex of [parseRetryDelayMs] (retryDelay, an optional double quote,
    a colon, an optional double quote, one or more digits, then s or sec,
    case-insensitive) anchored at the head of [s]: the digits of group 1.
    Every quantifier is followed by a character it cannot itself match, so the greedy match is the only one. *)
Definition retryDelay_here (s : string) : option string :=
  match strip_prefix_ci "retryDelay" s with
  | None => None
  | Some r1 =>
      match skip_quote r1 with
      | String c r2 =>
          if Ascii.eqb c ":" then
            let (ds, r3) := span_digits (skip_quote r2) in
            match ds, r3 with
            | String _ _, String u _ => if eqb_ci u "s" then Some ds else None
            | _, _ => None
            end
          else None
      | EmptyString => None
      end
  end.

(** [parseRetryDelayMs]: [null] is [None]. *)
Definition parseRetryDelayMs (msg : string) : option Z :=
  match msg with
  | EmptyString => None
  | _ =>
      match regex_search retryDelay_here msg with
      | Some ds => Some (parseInt10 ds * 1000)
      | None => None
      end
  end.

(** [/\[(\d{3}) /] anchored at the head of [s]: the three digits. *)
Definition status_here (s : string) : option Z :=
  match s with
  | String b (String d1 (String d2 (String d3 (String sp _)))) =>
      if Ascii.eqb b "[" && is_digit d1 && is_digit d2 && is_digit d3
         && Ascii.eqb sp " "
      then Some (parseInt10 (String d1 (String d2 (String d3 EmptyString))))
      else None
  | _ => None
  end.

(** [msg.includes(p)]. *)
Definition includes (msg p : string) : bool :=
  match regex_search (strip_prefix p) msg with
  | Some _ => true
  | None => false
  end.

(** ** Errors and their classification *)

(** [msg = e?.message || '']: a string (the empty one when the message is
    absent or falsy), or a truthy value that is not a string and has no
    [includes] and no [match] method of its own: a number, [true], a plain
    object. *)
Inductive message_value : Type :=
| Text (s : string)
| NotText.

Coercion Text : string >-> message_value.

(** What the [catch] clause reads of a thrown value: its [status] field
    and its message.  An absent or falsy status is [None]; a numeric string
    behaves as the number it writes, and any other truthy status that is no
    number as a number other than 429, 500 and 503. *)
Record js_error : Type := mkError { status : option Z; message : message_value }.

(** The text of a message that is a string. *)
Definition text_of_message (msg : message_value) : string :=
  match msg with
  | Text s => s
  | NotText => EmptyString
  end.

(** [typeof msg === 'string' && msg.match(/\[(\d{3}) /)?.[1]]. *)
Definition status_in_message (msg : message_value) : option Z :=
  match msg with
  | Text s => regex_search status_here s
  | NotText => None
  end.

(** [e?.status || (typeof msg === 'string' && msg.match(/\[(\d{3}) /)?.[1])]:
    a status field that is absent or [0] is falsy, and the status is then
    read off the message. *)
Definition status_of (e : js_error) : option Z :=
  match status e with
  | Some n => if n =? 0 then status_in_message (message e) else Some n
  | None => status_in_message (message e)
  end.

Definition opt_eqb (o : option Z) (n : Z) : bool :=
  match o with
  | Some m => m =? n
  | None => false
  end.

(** The [TypeError] of a call of a method the message does not have. *)
Definition TypeError (callee : string) : js_error :=
  mkError None (Text (callee ++ " is not a function")).

(** [status == 429 || msg.includes('[429')]: the second operand is
    evaluated when the first is false, and the call is not guarded by a
    [typeof] test, so it throws when the message is no string. *)
Definition isRate (e : js_error) : js_error + bool :=
  if opt_eqb (status_of e) 429 then inr true
  else
    match message e with
    | Text s => inr (includes s "[429")
    | NotText => inl (TypeError "msg.includes")
    end.

Definition isServer (e : js_error) : bool :=
  opt_eqb (status_of e) 500 || opt_eqb (status_of e) 503.

Definition maxRetriesError : js_error := mkError None "Max retries exceeded".

(** [parseRetryDelayMs(msg) || 30_000] on a string: [null] and [0] are both
    falsy. *)
Definition delay_or_default (msg : string) : Z :=
  match parseRetryDelayMs msg with
  | Some d => if d =? 0 then 30000 else d
  | None => 30000
  end.

(** [parseRetryDelayMs(msg) || 30_000] on the message of the error: a
    message that is no string passes the test [!msg] and [msg.match] throws. *)
Definition delay_of (msg : message_value) : js_error + Z :=
  match msg with
  | Text s => inr (delay_or_default s)
  | NotText => inl (TypeError "msg.match")
  end.

(** ** Timers *)

(** The largest delay [setTimeout] takes. *)
Definition TIMEOUT_MAX : Z := 2147483647.

(** The delay of the timer that [setTimeout(f, ms)] creates: a delay below
    [1] or above [TIMEOUT_MAX] is replaced by [1]. *)
Definition timer_delay (ms : Z) : Z :=
  if (1 <=? ms) && (ms <=? TIMEOUT_MAX) then ms else 1.

(** ** The world a retry loop runs in *)

Section Retry.

(** The value returned by an operation, and the operation's private state. *)
Variables (T E : Type).

(** The results of successive [Math.random()] calls. *)
Variable Math_random : nat -> Q.

Record world : Type := mkWorld {
  clock : Z;                  (* Date.now() *)
  last429CooldownUntil : Z;   (* the module-level variable *)
  draws : nat;                (* Math.random() calls so far *)
  env : E                     (* whatever the operation closes over *)
}.

Inductive outcome (A : Type) : Type :=
| Returned (a : A)
| Threw (e : js_error).
Arguments Returned {A} a.
Arguments Threw {A} e.

Definition M (A : Type) : Type := world -> outcome A * world.

Definition ret {A : Type} (a : A) : M A := fun w => (Returned a, w).

Definition bind {A B : Type} (m : M A) (k : A -> M B) : M B :=
  fun w =>
    match m w with
    | (Returned a, w') => k a w'
    | (Threw e, w') => (Threw e, w')
    end.

Definition throw {A : Type} (e : js_error) : M A := fun w => (Threw e, w).

Definition try_catch {A : Type} (m : M A) (h : js_error -> M A) : M A :=
  fun w =>
    match m w with
    | (Returned a, w') => (Returned a, w')
    | (Threw e, w') => h e w'
    end.

Notation "x <- m ;; k" := (bind m (fun x => k))
  (at level 61, m at next level, right associativity).
Notation "m ;;; k" := (bind m (fun _ => k))
  (at level 61, right associativity).

Definition Date_now : M Z := fun w => (Returned (clock w), w).

(** A computation that has already failed or succeeded. *)
Definition lift {A : Type} (r : js_error + A) : M A :=
  match r with
  | inl e => throw e
  | inr a => ret a
  end.

(** [await new Promise((r) => setTimeout(r, ms))]. *)
Definition sleep (ms : Z) : M unit :=
  fun w => (Returned tt,
            mkWorld (clock w + timer_delay ms) (last429CooldownUntil w) (draws w) (env w)).

Definition set_cooldown (t : Z) : M unit :=
  fun w => (Returned tt, mkWorld (clock w) t (draws w) (env w)).

Definition get_cooldown : M Z := fun w => (Returned (last429CooldownUntil w), w).

(** [Math.floor(Math.random() * n)]. *)
Definition random_below (n : Z) : M Z :=
  fun w => (Returned (Qfloor (Math_random (draws w) * inject_Z n)),
            mkWorld (clock w) (last429CooldownUntil w) (S (draws w)) (env w)).

Definition ensureCooldown : M unit :=
  now <- Date_now ;;
  until <- get_cooldown ;;
  if now <? until then sleep (until - now) else ret tt.

Section Loop.

Variable operation : M T.
Variables maxRetries baseDelay : Z.

(** The [for] loop from iteration [i] on, [remaining] iterations being left
    ([remaining = maxRetries - i]); the statement after the loop is the
    [throw new Error('Max retries exceeded')].  The [catch] clause computes
    [isRate] before anything else that can fail, and in the rate-limit
    branch the hint is parsed before the jitter is drawn. *)
Fixpoint retry_from (remaining : nat) (i : Z) : M T :=
  match remaining with
  | O => throw maxRetriesError
  | S remaining' =>
      try_catch (ensureCooldown ;;; operation)
        (fun e =>
           let msg := message e in
           rate <- lift (isRate e) ;;
           let isLast := i =? maxRetries - 1 in
           if rate : bool then
             hint <- lift (delay_of msg) ;;
             jitter <- random_below 1500 ;;
             let delay := hint + jitter in
             now <- Date_now ;;
             set_cooldown (now + delay) ;;;
             if isLast then throw e
             else sleep delay ;;; retry_from remaining' (i + 1)
           else if negb (isServer e) || isLast then throw e
           else
             jitter <- random_below 400 ;;
             let delay := baseDelay * 2 ^ i + jitter in
             sleep delay ;;; retry_from remaining' (i + 1))
  end.

Definition retryWithBackoff : M T := retry_from (Z.to_nat maxRetries) 0.

End Loop.
End Retry.

Arguments Returned {A} a.
Arguments Threw {A} e.
Arguments mkWorld {E} _ _ _ _.
Arguments clock {E} _.
Arguments last429CooldownUntil {E} _.
Arguments draws {E} _.
Arguments env {E} _.
Arguments ret {E A} a w.
Arguments bind {E A B} m k w.
Arguments throw {E A} e w.
Arguments lift {E A} r w.
Arguments try_catch {E A} m h w.
Arguments Date_now {E} w.
Arguments sleep {E} ms w.
Arguments set_cooldown {E} t w.
Arguments get_cooldown {E} w.
Arguments ensureCooldown {E} w.

End RetryPolicy.

(* ====================================================================== *)
(** * Part II: BatchExecutor ([BatchProcessor]) *)
(* ====================================================================== *)

Module BatchExecutor.

Import RetryPolicy.
Local Open Scope string_scope.
Local Open Scope Z_scope.

(** ** Promises on the clock of the batch that creates them

    Every promise and timer of a batch is created synchronously when the
    batch starts, so a promise is described by when it settles and how, or
    by the fact that it never does.  The instants are ticks.  Within the
    millisecond [ms] after the start of the batch come, in this order: what
    settles before the timers of that millisecond run, the item timers that
    are due, the batch timer that is due, and what settles after them
    ([tick]).  This is the order of the code on Node: the item timers of a
    batch are created before its batch timer, timers of one delay fire in
    the order of their creation, and the reactions to one timer run before
    the next timer fires. *)

Inductive slot : Type :=
| BeforeTimers
| ItemTimer
| BatchTimer
| AfterTimers.

Definition slot_index (s : slot) : Z :=
  match s with
  | BeforeTimers => 0
  | ItemTimer => 1
  | BatchTimer => 2
  | AfterTimers => 3
  end.

Definition tick (ms : Z) (s : slot) : Z := 4 * ms + slot_index s.

Inductive settled (A : Type) : Type :=
| Fulfilled (v : A)
| Rejected (e : js_error).
Arguments Fulfilled {A} v.
Arguments Rejected {A} e.

Inductive promise (A : Type) : Type :=
| SettlesAt (t : Z) (s : settled A)
| Pending.
Arguments SettlesAt {A} t s.
Arguments Pending {A}.

(** How an asynchronous operation started with the batch ends: after [ms]
    milliseconds, before or after the timers due in that millisecond, with
    a value or an error; or never. *)
Inductive completion (A : Type) : Type :=
| Completes (ms : Z) (before_timers : bool) (s : settled A)
| Never.
Arguments Completes {A} ms before_timers s.
Arguments Never {A}.

Definition completion_tick (ms : Z) (before_timers : bool) : Z :=
  tick ms (if before_timers then BeforeTimers else AfterTimers).

(** The promise of an operation started with the batch. *)
Definition started {A : Type} (c : completion A) : promise A :=
  match c with
  | Completes ms before_timers s => SettlesAt (completion_tick ms before_timers) s
  | Never => Pending
  end.

(** What [await p] does to the awaiting function. *)
Inductive run (A : Type) : Type :=
| Done (a : A)          (* the function goes on with (or returns) [a] *)
| Raised (e : js_error) (* [await] throws *)
| Hung.                 (* [await] never resumes *)
Arguments Done {A} a.
Arguments Raised {A} e.
Arguments Hung {A}.

Definition await {A : Type} (p : promise A) : run A :=
  match p with
  | SettlesAt _ (Fulfilled v) => Done v
  | SettlesAt _ (Rejected e) => Raised e
  | Pending => Hung
  end.

(** [new Promise((_, reject) => setTimeout(() => reject(new Error(msg)), ms))],
    for a timer of the kind [s]. *)
Definition timeoutPromise {A : Type} (s : slot) (msg : string) (ms : Z) : promise A :=
  SettlesAt (tick (timer_delay ms) s) (Rejected (mkError None msg)).

(** [Promise.race([p, q])]: the first to settle, and [p] when both settle
    in the same tick. *)
Definition race {A : Type} (p q : promise A) : promise A :=
  match p, q with
  | Pending, _ => q
  | _, Pending => p
  | SettlesAt t1 _, SettlesAt t2 _ => if t2 <? t1 then q else p
  end.

(** [try { return await p } catch (error) { return h(error) }] as the body of
    an async function. *)
Definition catching {A : Type} (p : promise A) (h : js_error -> A) : promise A :=
  match p with
  | SettlesAt t (Rejected e) => SettlesAt t (Fulfilled (h e))
  | _ => p
  end.

(** [Promise.allSettled(ps)]: fulfilled with every status once the last
    promise has settled. *)
Fixpoint allSettled {A : Type} (ps : list (promise A)) : promise (list (settled A)) :=
  match ps with
  | [] => SettlesAt 0 (Fulfilled [])
  | p :: ps' =>
      match p, allSettled ps' with
      | SettlesAt t s, SettlesAt t' (Fulfilled ss) =>
          SettlesAt (Z.max t t') (Fulfilled (s :: ss))
      | _, _ => Pending
      end
  end.

(** [Promise.all(ps)]: rejected with the earliest rejection, else fulfilled
    with every value once the last promise is fulfilled. *)
Fixpoint Promise_all {A : Type} (ps : list (promise A)) : promise (list A) :=
  match ps with
  | [] => SettlesAt 0 (Fulfilled [])
  | p :: ps' =>
      match p, Promise_all ps' with
      | SettlesAt t (Rejected e), SettlesAt t' (Rejected e') =>
          if t' <? t then SettlesAt t' (Rejected e') else SettlesAt t (Rejected e)
      | SettlesAt t (Rejected e), _ => SettlesAt t (Rejected e)
      | _, SettlesAt t' (Rejected e') => SettlesAt t' (Rejected e')
      | SettlesAt t (Fulfilled v), SettlesAt t' (Fulfilled vs) =>
          SettlesAt (Z.max t t') (Fulfilled (v :: vs))
      | _, _ => Pending
      end
  end.

(** [Array.prototype.slice(start, end)] with its relative indices. *)
Definition clamp_index (len k : Z) : Z :=
  if k <? 0 then Z.max (len + k) 0 else Z.min k len.

Definition slice {A : Type} (l : list A) (s e : Z) : list A :=
  let len := Z.of_nat (List.length l) in
  let from := clamp_index len s in
  let to := clamp_index len e in
  firstn (Z.to_nat (to - from)) (skipn (Z.to_nat from) l).

(** ** The options record, with the constructor's defaults *)

Record BatchProcessorOptions : Type := mkOptions {
  batchSize : Z;
  batchDelayMs : Z;
  itemTimeoutMs : Z;
  batchTimeoutMs : Z;
  maxRetries : Z;
  baseRetryDelay : Z;
  concurrentBatches : Z
}.

Definition defaultOptions : BatchProcessorOptions :=
  mkOptions 2 3000 (3 * 60 * 1000) (5 * 60 * 1000) 4 1200 1.

Section Processor.

Variables (TInput TOutput : Type).
Variable options : BatchProcessorOptions.

(** How [retryWithBackoff(() => processor(item), maxRetries, baseRetryDelay)]
    ends for an item: [Some v] is an output, [None] is [null].  (Items that
    must behave differently are different values of [TInput].) *)
Variable processor : TInput -> completion (option TOutput).

(** The caller's [getItemName], which may throw. *)
Variable getItemName : TInput -> js_error + string.

(** The item timer is created first, then the processing is started. *)
Definition processItemWithTimeout (item : TInput) (itemName : string)
    : promise (option TOutput) :=
  let timer :=
    timeoutPromise ItemTimer (itemName ++ " processing timeout") (itemTimeoutMs options) in
  let processPromise := catching (started (processor item)) (fun _ => None) in
  catching (race processPromise timer) (fun _ => None).

(** The [filter] and [map] that keep the fulfilled, non-null values. *)
Fixpoint successfulResults (rs : list (settled (option TOutput))) : list TOutput :=
  match rs with
  | [] => []
  | Fulfilled (Some v) :: rs' => v :: successfulResults rs'
  | _ :: rs' => successfulResults rs'
  end.

(** [batch.map(getItemName)]: the first exception ends the [map]. *)
Fixpoint names_of (batch : list TInput) : js_error + list string :=
  match batch with
  | [] => inr []
  | item :: rest =>
      match getItemName item with
      | inl e => inl e
      | inr name =>
          match names_of rest with
          | inl e => inl e
          | inr names => inr (name :: names)
          end
      end
  end.

(** [batch.map((item) => this.processItemWithTimeout(item, processor,
    getItemName(item)))]: the first exception of [getItemName] ends the
    [map]. *)
Fixpoint item_promises (batch : list TInput) : js_error + list (promise (option TOutput)) :=
  match batch with
  | [] => inr []
  | item :: rest =>
      match getItemName item with
      | inl e => inl e
      | inr name =>
          match item_promises rest with
          | inl e => inl e
          | inr ps => inr (processItemWithTimeout item name :: ps)
          end
      end
  end.

(** The body of the [try] up to its [await]:
    [await Promise.race([Promise.allSettled(batch.map(...)), timeoutPromise])]. *)
Definition batchRace (batch : list TInput) : run (list (settled (option TOutput))) :=
  match item_promises batch with
  | inl e => Raised e
  | inr ps =>
      await (race (allSettled ps)
                  (timeoutPromise BatchTimer "Batch timeout" (batchTimeoutMs options)))
  end.

(** The sequential loop [for (let i = 0; i < items.length; i += batchSize)];
    [None] when [fuel] iterations do not finish it.  The names of the batch
    are computed for the log line before the [try] is entered, so an
    exception of [getItemName] there leaves [processBatches].  The pause
    between batches and the log lines do not bear on the result. *)
Fixpoint sequential_from (fuel : nat) (items : list TInput) (i : Z)
    (allResults : list TOutput) : option (run (list TOutput)) :=
  match fuel with
  | O => None
  | S fuel' =>
      if i <? Z.of_nat (List.length items) then
        let batch := slice items i (i + batchSize options) in
        match names_of batch with
        | inl e => Some (Raised e)
        | inr _ =>
            match batchRace batch with
            | Done batchResults =>
                sequential_from fuel' items (i + batchSize options)
                  (allResults ++ successfulResults batchResults)
            | Raised _ =>
                sequential_from fuel' items (i + batchSize options) allResults
            | Hung => Some Hung
            end
        end
      else Some (Done allResults)
  end.

(** The loop of [processConcurrentBatches] that cuts [items] into batches. *)
Fixpoint batches_from (fuel : nat) (items : list TInput) (i : Z)
    (batches : list (list TInput)) : option (list (list TInput)) :=
  match fuel with
  | O => None
  | S fuel' =>
      if i <? Z.of_nat (List.length items) then
        batches_from fuel' items (i + batchSize options)
          (batches ++ [slice items i (i + batchSize options)])
      else Some batches
  end.

(** The async callback mapped over a group of batches; an exception of
    [getItemName] is caught with the rest. *)
Definition concurrentBatch (batchItems : list TInput) : promise (list TOutput) :=
  match item_promises batchItems with
  | inl _ => SettlesAt 0 (Fulfilled [])
  | inr ps =>
      match race (allSettled ps)
                 (timeoutPromise BatchTimer "Batch timeout" (batchTimeoutMs options)) with
      | SettlesAt t (Fulfilled batchResults) =>
          SettlesAt t (Fulfilled (successfulResults batchResults))
      | SettlesAt t (Rejected _) => SettlesAt t (Fulfilled [])
      | Pending => Pending
      end
  end.

(** The loop over groups of [concurrentBatches] batches. *)
Fixpoint groups_from (fuel : nat) (batches : list (list TInput)) (i : Z)
    (allResults : list TOutput) : option (run (list TOutput)) :=
  match fuel with
  | O => None
  | S fuel' =>
      if i <? Z.of_nat (List.length batches) then
        let group := slice batches i (i + concurrentBatches options) in
        match await (Promise_all (map concurrentBatch group)) with
        | Done concurrentResults =>
            groups_from fuel' batches (i + concurrentBatches options)
              (allResults ++ List.concat concurrentResults)
        | Raised _ =>
            groups_from fuel' batches (i + concurrentBatches options) allResults
        | Hung => Some Hung
        end
      else Some (Done allResults)
  end.

Definition processConcurrentBatches (fuel : nat) (items : list TInput)
    : option (run (list TOutput)) :=
  match batches_from fuel items 0 [] with
  | None => None
  | Some batches => groups_from fuel batches 0 []
  end.

Definition processBatches (fuel : nat) (items : list TInput)
    : option (run (list TOutput)) :=
  if 1 <? concurrentBatches options
  then processConcurrentBatches fuel items
  else sequential_from fuel items 0 [].

(** *** What the specification promises, in its own terms *)

(** The ticks of the two timers of a batch. *)
Definition item_timer : Z := tick (timer_delay (itemTimeoutMs options)) ItemTimer.
Definition batch_timer : Z := tick (timer_delay (batchTimeoutMs options)) BatchTimer.

(** The output of an item that completes successfully within its timeout
    and retry budget. *)
Definition item_output (item : TInput) : list TOutput :=
  match processor item with
  | Completes ms before_timers (Fulfilled (Some v)) =>
      if completion_tick ms before_timers <? item_timer then [v] else []
  | _ => []
  end.

(** Spec: the non-null successful outputs, in the order of the items. *)
Definition successful_outputs (items : list TInput) : list TOutput :=
  flat_map item_output items.

(** The tick at which an item stops being in flight: it settles or it
    times out. *)
Definition item_settle_time (item : TInput) : Z :=
  match processor item with
  | Completes ms before_timers _ => Z.min (completion_tick ms before_timers) item_timer
  | Never => item_timer
  end.

(** A batch beats its own timer when its last item does. *)
Definition batch_in_time (batch : list TInput) : bool :=
  fold_right Z.max 0 (map item_settle_time batch) <? batch_timer.

Definition batch_output (batch : list TInput) : list TOutput :=
  if batch_in_time batch then successful_outputs batch else [].

(** Consecutive batches of [n] items. *)
Fixpoint chunks (fuel n : nat) (items : list TInput) : list (list TInput) :=
  match fuel with
  | O => []
  | S fuel' =>
      match items with
      | [] => []
      | _ => firstn n items :: chunks fuel' n (skipn n items)
      end
  end.

End Processor.

(** A [getItemName] that returns the name [name item] and never throws. *)
Definition never_throws {TInput : Type} (name : TInput -> string)
    : TInput -> js_error + string :=
  fun item => inr (name item).

Arguments processBatches {TInput TOutput} options processor getItemName fuel items.
Arguments successful_outputs {TInput TOutput} options processor items.
Arguments batch_output {TInput TOutput} options processor batch.
Arguments batch_in_time {TInput TOutput} options processor batch.
Arguments item_output {TInput TOutput} options processor item.
Arguments chunks {TInput} fuel n items.

End BatchExecutor.

(* ====================================================================== *)
(** * Part III: AbilityEstimator ([mle-logic.ts]) *)
(* ====================================================================== *)

Module AbilityEstimator.

Local Open Scope R_scope.

(** ** JavaScript numbers, rounding apart *)

Inductive number : Type :=
| Fin (r : R)
| PosInf
| NegInf
| NaN.

Definition Rltb (x y : R) : bool := if Rlt_dec x y then true else false.
Definition Reqb (x y : R) : bool := if Req_dec_T x y then true else false.

(** [a < b], [a === b], [a <= b], [a > b]: any comparison with [NaN] is
    false. *)
Definition js_lt (a b : number) : bool :=
  match a, b with
  | NaN, _ | _, NaN => false
  | _, NegInf => false
  | NegInf, _ => true
  | PosInf, _ => false
  | Fin _, PosInf => true
  | Fin x, Fin y => Rltb x y
  end.

Definition js_eq (a b : number) : bool :=
  match a, b with
  | Fin x, Fin y => Reqb x y
  | PosInf, PosInf => true
  | NegInf, NegInf => true
  | _, _ => false
  end.

Definition js_le (a b : number) : bool := js_lt a b || js_eq a b.
Definition js_gt (a b : number) : bool := js_lt b a.

Definition isFinite (a : number) : bool :=
  match a with
  | Fin _ => true
  | _ => false
  end.

Definition neg (a : number) : number :=
  match a with
  | Fin x => Fin (- x)
  | PosInf => NegInf
  | NegInf => PosInf
  | NaN => NaN
  end.

Definition add (a b : number) : number :=
  match a, b with
  | NaN, _ | _, NaN => NaN
  | PosInf, NegInf | NegInf, PosInf => NaN
  | PosInf, _ | _, PosInf => PosInf
  | NegInf, _ | _, NegInf => NegInf
  | Fin x, Fin y => Fin (x + y)
  end.

Definition sub (a b : number) : number := add a (neg b).

(** The infinity with the sign of [x]; [NaN] for zero. *)
Definition signed_inf (x : R) : number :=
  if Rlt_dec 0 x then PosInf else if Rlt_dec x 0 then NegInf else NaN.

Definition mul (a b : number) : number :=
  match a, b with
  | NaN, _ | _, NaN => NaN
  | Fin x, Fin y => Fin (x * y)
  | Fin x, PosInf | PosInf, Fin x => signed_inf x
  | Fin x, NegInf | NegInf, Fin x => signed_inf (- x)
  | PosInf, PosInf | NegInf, NegInf => PosInf
  | PosInf, NegInf | NegInf, PosInf => NegInf
  end.

(** Division; a finite value over zero is the infinity of its sign (the one
    zero of the reals stands for [+0]). *)
Definition div (a b : number) : number :=
  match a, b with
  | NaN, _ | _, NaN => NaN
  | Fin x, Fin y => if Req_dec_T y 0 then signed_inf x else Fin (x / y)
  | Fin _, _ => Fin 0
  | PosInf, Fin y => if Rlt_dec y 0 then NegInf else PosInf
  | NegInf, Fin y => if Rlt_dec y 0 then PosInf else NegInf
  | _, _ => NaN
  end.

Definition Math_exp (a : number) : number :=
  match a with
  | Fin x => Fin (exp x)
  | PosInf => PosInf
  | NegInf => Fin 0
  | NaN => NaN
  end.

Definition Math_log (a : number) : number :=
  match a with
  | Fin x => if Rlt_dec 0 x then Fin (ln x)
             else if Rlt_dec x 0 then NaN else NegInf
  | PosInf => PosInf
  | _ => NaN
  end.

Definition Math_sqrt (a : number) : number :=
  match a with
  | Fin x => if Rlt_dec x 0 then NaN else Fin (sqrt x)
  | PosInf => PosInf
  | _ => NaN
  end.

Definition Math_max (a b : number) : number :=
  match a, b with
  | NaN, _ | _, NaN => NaN
  | _, _ => if js_lt a b then b else a
  end.

Definition Math_min (a b : number) : number :=
  match a, b with
  | NaN, _ | _, NaN => NaN
  | _, _ => if js_lt b a then b else a
  end.

Declare Scope js_scope.
Delimit Scope js_scope with js.
Bind Scope js_scope with number.
Infix "+" := add : js_scope.
Infix "-" := sub : js_scope.
Infix "*" := mul : js_scope.
Infix "/" := div : js_scope.
Notation "- a" := (neg a) : js_scope.

(** ** The model *)

Record evaluation : Type := mkEval { level : number; predictedMaxScore : number }.

Definition sigmoid (z : number) : number :=
  (Fin 1 / (Fin 1 + Math_exp (- z)))%js.

Definition item_alpha : number := Fin 1.
Definition item_beta : number := Fin 0.
Definition epsilon : number := Fin (/ 10 ^ 10).

(** The likelihood of one evaluation, as the loop body computes it. *)
Definition likelihood (ability : number) (evalItem : evaluation) : number :=
  let k := level evalItem in
  let n := predictedMaxScore evalItem in
  let prob_y := sigmoid (item_alpha * (ability - k) + item_beta)%js in
  if js_eq k n then prob_y
  else
    let prob_y1 := sigmoid (item_alpha * (ability - (k + Fin 1)) + item_beta)%js in
    (prob_y - prob_y1)%js.

Definition logLikelihood (ability : number) (evaluations : list evaluation) : number :=
  fold_left
    (fun acc evalItem => (acc + Math_log (Math_max (likelihood ability evalItem) epsilon))%js)
    evaluations (Fin 0).

Definition logPrior (ability ALPHA BETA_PARAM xMin xMax : number) : number :=
  let x := ability in
  if negb (js_le xMin x && js_le x xMax) then NegInf
  else if js_eq x xMin || js_eq x xMax then NegInf
  else
    (Math_log (Fin 6) + Math_log (x - xMin) - Math_log (xMax - xMin)
     + (BETA_PARAM - Fin 1) * (Math_log (xMax - x) - Math_log (xMax - xMin)))%js.

Definition logPosterior (ability : number) (evaluations : list evaluation)
    (ALPHA BETA_PARAM xMin xMax : number) : number :=
  (logLikelihood ability evaluations + logPrior ability ALPHA BETA_PARAM xMin xMax)%js.

(** [arr.map((x, i) => f(x, i))]. *)
Fixpoint mapi_from {A B : Type} (i : nat) (f : A -> nat -> B) (l : list A) : list B :=
  match l with
  | [] => []
  | a :: l' => f a i :: mapi_from (S i) f l'
  end.

Definition mapi {A B : Type} (f : A -> nat -> B) (l : list A) : list B :=
  mapi_from 0 f l.

(** [arr[i]] on an array of numbers ([undefined] behaves as [NaN] in the
    arithmetic that follows). *)
Definition at_index (l : list number) (i : nat) : number := nth i l NaN.

Record indexed : Type := mkIndexed { value : number; index : nat }.

Record MAPResult : Type := mkMAP {
  bestAbility : number;
  abilities : list number;
  logPriors : list number;
  logLikelihoods : list number;
  logPosteriors : list number
}.

(** The grid: [xMin + (i / gridPoints) * (xMax - xMin)] for [i = 0 .. gridPoints]. *)
Definition grid_point (xMin xMax : number) (gridPoints i : nat) : number :=
  (xMin + (Fin (INR i) / Fin (INR gridPoints)) * (xMax - xMin))%js.

(** [validIndices.reduce((max, current) => current.value > max.value ? current : max)]
    on a non-empty array. *)
Definition reduce_max (first : indexed) (rest : list indexed) : indexed :=
  fold_left (fun max current => if js_gt (value current) (value max) then current else max)
            rest first.

Definition estimateAbilityByGridSearchMAP (evaluations : list evaluation)
    (ALPHA BETA_PARAM xMin xMax : number) (gridPoints : nat) : MAPResult :=
  match evaluations with
  | [] =>
      let mode :=
        (xMin + ((xMax - xMin) * (ALPHA - Fin 1)) / (ALPHA + BETA_PARAM - Fin 2))%js in
      mkMAP mode [] [] [] []
  | _ =>
      let abilities := map (grid_point xMin xMax gridPoints) (List.seq 0 (S gridPoints)) in
      let logPriors := map (fun ab => logPrior ab ALPHA BETA_PARAM xMin xMax) abilities in
      let logLikelihoods := map (fun ab => logLikelihood ab evaluations) abilities in
      let logPosteriors := mapi (fun ll i => (ll + at_index logPriors i)%js) logLikelihoods in
      let validIndices :=
        filter (fun item => isFinite (value item))
               (mapi (fun lp i => mkIndexed lp i) logPosteriors) in
      match validIndices with
      | [] => mkMAP xMin abilities logPriors logLikelihoods logPosteriors
      | first :: rest =>
          let maxItem := reduce_max first rest in
          mkMAP (at_index abilities (index maxItem))
                abilities logPriors logLikelihoods logPosteriors
      end
  end.

Record interval : Type := mkInterval { lower : number; upper : number }.

Definition h : number := Fin (/ 10000).
Definition zScore : number := Fin (196 / 100).

Definition calculateBayesianConfidenceInterval (estimatedAbility : number)
    (evaluations : list evaluation) (ALPHA BETA_PARAM xMin xMax : number) : interval :=
  match evaluations with
  | [] => mkInterval xMin xMax
  | _ =>
      let lpAtPeak := logPosterior estimatedAbility evaluations ALPHA BETA_PARAM xMin xMax in
      let lpPlusH := logPosterior (estimatedAbility + h)%js evaluations ALPHA BETA_PARAM xMin xMax in
      let lpMinusH := logPosterior (estimatedAbility - h)%js evaluations ALPHA BETA_PARAM xMin xMax in
      let secondDerivative := ((lpPlusH - Fin 2 * lpAtPeak + lpMinusH) / (h * h))%js in
      let information := (- secondDerivative)%js in
      if js_le information (Fin 0) || negb (isFinite information) then mkInterval xMin xMax
      else
        let standardError := (Fin 1 / Math_sqrt information)%js in
        let marginOfError := (zScore * standardError)%js in
        let lower := (estimatedAbility - marginOfError)%js in
        let upper := (estimatedAbility + marginOfError)%js in
        mkInterval (Math_max xMin lower) (Math_min xMax upper)
  end.

End AbilityEstimator.

(* ====================================================================== *)
(** * Part III, again: the grid search over any arithmetic *)
(* ====================================================================== *)

(** The functions of the grid search once more, word for word, with the
    four operations, [Math.exp], [Math.log] and the value of the literal
    [1e-10] as parameters: what is proved of them holds whatever the
    operations round to.  Negation, comparisons, [Math.max] and [isFinite]
    are exact in binary64 and stay as they are; [i], [gridPoints] and the
    literals 1, 2 and 6 are integers. *)
Module AnyArithmetic.

Import AbilityEstimator.

Record Arithmetic : Type := mkArithmetic {
  plus : number -> number -> number;
  minus : number -> number -> number;
  times : number -> number -> number;
  over : number -> number -> number;
  Exp : number -> number;
  Log : number -> number;
  floor_literal : number   (* the number that the literal 1e-10 denotes *)
}.

(** The arithmetic of [AbilityEstimator]. *)
Definition exact : Arithmetic := mkArithmetic add sub mul div Math_exp Math_log epsilon.

Section Operations.

Variable ops : Arithmetic.

Local Notation "a +~ b" := (plus ops a b) (at level 50, left associativity).
Local Notation "a -~ b" := (minus ops a b) (at level 50, left associativity).
Local Notation "a *~ b" := (times ops a b) (at level 40, left associativity).
Local Notation "a /~ b" := (over ops a b) (at level 40, left associativity).

Definition sigmoid (z : number) : number :=
  Fin 1 /~ (Fin 1 +~ Exp ops (neg z)).

Definition likelihood (ability : number) (evalItem : evaluation) : number :=
  let k := level evalItem in
  let n := predictedMaxScore evalItem in
  let prob_y := sigmoid (item_alpha *~ (ability -~ k) +~ item_beta) in
  if js_eq k n then prob_y
  else
    let prob_y1 := sigmoid (item_alpha *~ (ability -~ (k +~ Fin 1)) +~ item_beta) in
    prob_y -~ prob_y1.

Definition logLikelihood (ability : number) (evaluations : list evaluation) : number :=
  fold_left
    (fun acc evalItem =>
       acc +~ Log ops (Math_max (likelihood ability evalItem) (floor_literal ops)))
    evaluations (Fin 0).

Definition logPrior (ability ALPHA BETA_PARAM xMin xMax : number) : number :=
  let x := ability in
  if negb (js_le xMin x && js_le x xMax) then NegInf
  else if js_eq x xMin || js_eq x xMax then NegInf
  else
    Log ops (Fin 6) +~ Log ops (x -~ xMin) -~ Log ops (xMax -~ xMin)
    +~ (BETA_PARAM -~ Fin 1) *~ (Log ops (xMax -~ x) -~ Log ops (xMax -~ xMin)).

Definition grid_point (xMin xMax : number) (gridPoints i : nat) : number :=
  xMin +~ (Fin (INR i) /~ Fin (INR gridPoints)) *~ (xMax -~ xMin).

Definition estimateAbilityByGridSearchMAP (evaluations : list evaluation)
    (ALPHA BETA_PARAM xMin xMax : number) (gridPoints : nat) : MAPResult :=
  match evaluations with
  | [] =>
      let mode :=
        xMin +~ ((xMax -~ xMin) *~ (ALPHA -~ Fin 1)) /~ (ALPHA +~ BETA_PARAM -~ Fin 2) in
      mkMAP mode [] [] [] []
  | _ =>
      let abilities := map (grid_point xMin xMax gridPoints) (List.seq 0 (S gridPoints)) in
      let logPriors := map (fun ab => logPrior ab ALPHA BETA_PARAM xMin xMax) abilities in
      let logLikelihoods := map (fun ab => logLikelihood ab evaluations) abilities in
      let logPosteriors := mapi (fun ll i => ll +~ at_index logPriors i) logLikelihoods in
      let validIndices :=
        filter (fun item => isFinite (value item))
               (mapi (fun lp i => mkIndexed lp i) logPosteriors) in
      match validIndices with
      | [] => mkMAP xMin abilities logPriors logLikelihoods logPosteriors
      | first :: rest =>
          let maxItem := reduce_max first rest in
          mkMAP (at_index abilities (index maxItem))
                abilities logPriors logLikelihoods logPosteriors
      end
  end.

(** The log-posterior the search computes at grid index [i]. *)
Definition posterior_at (evaluations : list evaluation)
    (ALPHA BETA_PARAM xMin xMax : number) (gridPoints i : nat) : number :=
  logLikelihood (grid_point xMin xMax gridPoints i) evaluations
  +~ logPrior (grid_point xMin xMax gridPoints i) ALPHA BETA_PARAM xMin xMax.

End Operations.

End AnyArithmetic.

(* ====================================================================== *)
(** * Part IV: the constructor of [BatchProcessor] *)
(* ====================================================================== *)

Module BatchConstruction.

Import BatchExecutor.
Local Open Scope Z_scope.

(** The constructor's argument, an object whose fields may all be left out
    ([None] is [undefined]). *)
Record GivenOptions : Type := mkGiven {
  given_batchSize : option Z;
  given_batchDelayMs : option Z;
  given_itemTimeoutMs : option Z;
  given_batchTimeoutMs : option Z;
  given_maxRetries : option Z;
  given_baseRetryDelay : option Z;
  given_concurrentBatches : option Z
}.

(** [a ?? b]: only a missing value is replaced, a zero is kept. *)
Definition nullish {A : Type} (a : option A) (b : A) : A :=
  match a with
  | Some v => v
  | None => b
  end.

Definition constructor (options : GivenOptions) : BatchProcessorOptions :=
  mkOptions (nullish (given_batchSize options) 2)
            (nullish (given_batchDelayMs options) 3000)
            (nullish (given_itemTimeoutMs options) (3 * 60 * 1000))
            (nullish (given_batchTimeoutMs options) (5 * 60 * 1000))
            (nullish (given_maxRetries options) 4)
            (nullish (given_baseRetryDelay options) 1200)
            (nullish (given_concurrentBatches options) 1).

End BatchConstruction.

(* ====================================================================== *)
(** * Part V: the ability of a user ([calculateUserAbility] and its route) *)
(* ====================================================================== *)

Module AbilityService.

Import RetryPolicy AbilityEstimator BatchConstruction.
Local Open Scope string_scope.

(** The [source] argument: one of the two known sources, or anything else
    ([undefined] included), by the text it prints as. *)
Inductive Source : Type :=
| github
| slack_thread
| unknown_source (text : string).

(** What the estimator reads of a stored evaluation: its level (the field
    [level] of a GitHub row, [evaluationLevel] of a Slack row), whether it
    is evaluable, and the predicted maximum score joined to it ([None] is
    [null]: no prediction was stored). *)
Record StoredEvaluation : Type := mkStored {
  stored_level : number;
  evaluable : bool;
  stored_predictedMaxScore : option number
}.

Record UserAbility : Type := mkUserAbility {
  ability : number;
  confidenceInterval : interval
}.

(** [!s] for an optional string: [undefined] and the empty string. *)
Definition missing (s : option string) : bool :=
  match s with
  | None => true
  | Some EmptyString => true
  | Some _ => false
  end.

Definition text_of (s : option string) : string := nullish s EmptyString.

(** [new Error(msg)]. *)
Definition Error (msg : string) : js_error := mkError None msg.

Definition ALPHA : number := Fin 2.
Definition BETA_PARAM : number := Fin 5.
Definition xMin : number := Fin 0.
Definition xMax : number := Fin 4.

(** The default of [gridPoints]. *)
Definition default_gridPoints : nat := 500.

Definition no_ability : UserAbility := mkUserAbility (Fin 0) (mkInterval (Fin 0) (Fin 0)).

Section Database.

(** The three queries, each returning its rows or throwing. *)
Variable getUserEvaluationsByCriteria :
  string -> string -> string -> js_error + list StoredEvaluation.
Variable getSlackUserInfo : string -> js_error + option string.
Variable getSlackThreadEvaluationsByUserAndCriteria :
  string -> string -> option (list string) -> js_error + list StoredEvaluation.

(** The first statement of [calculateUserAbility]: the rows of the source. *)
Definition evaluations_of (criteriaName : string)
    (repositorySlug authorUsername username : option string) (source : Source)
    (channelIds : option (list string)) : js_error + list StoredEvaluation :=
  match source with
  | github =>
      if missing repositorySlug || missing authorUsername
      then inl (Error "repositorySlug and authorUsername must be provided for github source")
      else getUserEvaluationsByCriteria (text_of repositorySlug) (text_of authorUsername)
             criteriaName
  | slack_thread =>
      if missing username
      then inl (Error "username must be provided for slack-thread source")
      else
        match getSlackUserInfo (text_of username) with
        | inl e => inl e
        | inr None => inl (Error ("Slack user not found: " ++ text_of username))
        | inr (Some userId) =>
            getSlackThreadEvaluationsByUserAndCriteria userId criteriaName channelIds
        end
  | unknown_source text => inl (Error ("Unknown source: " ++ text))
  end.

(** [predictedMaxScore ?? 4] for a Slack row, [?? 2] for a GitHub row. *)
Definition default_predictedMaxScore (source : Source) : number :=
  match source with
  | slack_thread => Fin 4
  | _ => Fin 2
  end.

Definition mleData (source : Source) (validEvaluations : list StoredEvaluation)
    : list evaluation :=
  map (fun ev => mkEval (stored_level ev)
                   (nullish (stored_predictedMaxScore ev) (default_predictedMaxScore source)))
      validEvaluations.

Definition calculateUserAbility (criteriaName : string)
    (repositorySlug authorUsername username : option string) (source : Source)
    (channelIds : option (list string)) : js_error + UserAbility :=
  match evaluations_of criteriaName repositorySlug authorUsername username source channelIds with
  | inl e => inl e
  | inr [] => inr no_ability
  | inr evaluations =>
      match filter evaluable evaluations with
      | [] => inr no_ability
      | validEvaluations =>
          let data := mleData source validEvaluations in
          let mapResult :=
            estimateAbilityByGridSearchMAP data ALPHA BETA_PARAM xMin xMax default_gridPoints in
          let ability := bestAbility mapResult in
          let confidenceInterval :=
            calculateBayesianConfidenceInterval ability data ALPHA BETA_PARAM xMin xMax in
          inr (mkUserAbility ability confidenceInterval)
      end
  end.


(** ** The route [POST /api/ability-score] *)

Definition EVALUATION_CRITERIA : list string :=
  [ "リーダーシップ領域"; "チームワーク領域"; "問題解決領域";
    "コミュニーケーション領域"; "適応力領域"; "継続的な学習・自己改善領域" ].

Record AbilityScore : Type := mkAbilityScore {
  score : number;
  score_confidenceInterval : interval
}.

(** [obj[key] = value] on an object whose keys are kept in insertion order. *)
Fixpoint set_key {V : Type} (obj : list (string * V)) (key : string) (value : V)
    : list (string * V) :=
  match obj with
  | [] => [(key, value)]
  | (k, v) :: obj' =>
      if String.eqb k key then (k, value) :: obj' else (k, v) :: set_key obj' key value
  end.

Definition Object_values {V : Type} (obj : list (string * V)) : list V := map snd obj.

(** [Math.round]: the nearest integer, halves going up. *)
Definition Math_round (a : number) : number :=
  match a with
  | Fin x => Fin (IZR (Int_part (x + / 2)))
  | _ => a
  end.

Inductive Response : Type :=
| BadRequest (error : string)
| Success (abilityScores : list (string * AbilityScore)) (averageScore : number)
          (criteriaCount : nat)
| ServerError (error : string).

(** The [for] loop over the criteria: an entry per criterion, the result of
    [calculateUserAbility] or, when that throws, a score of zero. *)
Definition score_of (repositorySlug authorUsername : option string) (criteria : string)
    : AbilityScore :=
  match calculateUserAbility criteria repositorySlug authorUsername None github None with
  | inr r => mkAbilityScore (ability r) (confidenceInterval r)
  | inl _ => mkAbilityScore (Fin 0) (mkInterval (Fin 0) (Fin 0))
  end.

Definition abilityScores_of (repositorySlug authorUsername : option string)
    : list (string * AbilityScore) :=
  fold_left
    (fun abilityScores criteria =>
       set_key abilityScores criteria (score_of repositorySlug authorUsername criteria))
    EVALUATION_CRITERIA [].

Definition averageScore_of (scores : list AbilityScore) : number :=
  if (0 <? List.length scores)%nat
  then (fold_left (fun sum scoreObj => sum + score scoreObj) scores (Fin 0)
        / Fin (INR (List.length scores)))%js
  else Fin 0.

(** The handler, on the outcome of [request.json()]: the two fields of the
    body, or the error thrown when the body does not parse. *)
Definition POST (body : js_error + (option string * option string)) : Response :=
  match body with
  | inl e => ServerError ("エラー: " ++ text_of_message (message e))
  | inr (authorUsername, repositorySlug) =>
      if missing authorUsername || missing repositorySlug
      then BadRequest "Author username and repository name are required"
      else
        let abilityScores := abilityScores_of repositorySlug authorUsername in
        let scores := Object_values abilityScores in
        let averageScore := averageScore_of scores in
        Success abilityScores
                (Math_round (averageScore * Fin 1000) / Fin 1000)%js
                (List.length EVALUATION_CRITERIA)
  end.

End Database.

End AbilityService.

(* ====================================================================== *)
(** * Properties of the retry policy *)
(* ====================================================================== *)

Section RetryFacts.

Import RetryPolicy.
Local Open Scope string_scope.
Local Open Scope Z_scope.

Variables (T E : Type).
Variable Math_random : nat -> Q.
Hypothesis Math_random_range : forall k, (0 <= Math_random k)%Q /\ (Math_random k < 1)%Q.

Variable operation : M E T.
Variables maxRetries baseDelay : Z.

Local Abbreviation retry := (retry_from T E Math_random operation maxRetries baseDelay).

(** [Math.floor(Math.random() * n)] for a draw. *)
Definition jitter (n : Z) (k : nat) : Z := Qfloor (Math_random k * inject_Z n).

Ltac run_monad :=
  unfold bind, ret, throw, try_catch, Date_now, get_cooldown, set_cooldown,
    sleep, random_below; cbn [clock last429CooldownUntil draws env fst snd].

Lemma jitter_range (n : Z) (k : nat) : 0 < n -> 0 <= jitter n k < n.
Proof.
  intros Hn. unfold jitter.
  destruct (Math_random_range k) as [H0 H1].
  assert (Hn' : (inject_Z 0 < inject_Z n)%Q) by (rewrite <- Zlt_Qlt; exact Hn).
  split.
  - change 0 with (Qfloor (inject_Z 0)) at 1.
    apply Qfloor_resp_le. change (inject_Z 0) with 0%Q.
    apply Qmult_le_0_compat; [assumption | now apply Qlt_le_weak].
  - rewrite Zlt_Qlt.
    apply Qle_lt_trans with (Math_random k * inject_Z n)%Q; [apply Qfloor_le |].
    setoid_replace (inject_Z n) with (1 * inject_Z n)%Q at 2 by ring.
    apply Qmult_lt_compat_r; assumption.
Qed.

(** *** The retry hint is never negative *)

Fixpoint all_digits (s : string) : Prop :=
  match s with
  | EmptyString => True
  | String c s' => is_digit c = true /\ all_digits s'
  end.

Lemma span_digits_all_digits (s : string) : all_digits (fst (span_digits s)).
Proof.
  induction s as [| c s IH]; cbn; [exact I |].
  destruct (is_digit c) eqn:Hc; [| exact I].
  destruct (span_digits s) as [ds r]; cbn in *. auto.
Qed.

Lemma digit_value_nonneg (c : ascii) : is_digit c = true -> 0 <= digit_value c.
Proof.
  unfold is_digit, digit_value. intros H.
  apply andb_true_iff in H as [H _]. apply Nat.leb_le in H. lia.
Qed.

Lemma parse_digits_nonneg (ds : string) :
  forall acc, 0 <= acc -> all_digits ds -> 0 <= parse_digits acc ds.
Proof.
  induction ds as [| c ds IH]; cbn; intros acc Hacc Hds; [assumption |].
  destruct Hds as [Hc Hds]. apply IH; [| assumption].
  pose proof (digit_value_nonneg c Hc). lia.
Qed.

Lemma regex_search_some {A : Type} (f : string -> option A) (s : string) (a : A) :
  regex_search f s = Some a -> exists s', f s' = Some a.
Proof.
  induction s as [| c s IH]; cbn; destruct (f _) eqn:Hf; intros H;
    try discriminate; try (injection H as <-; eauto); auto.
Qed.

Lemma retryDelay_here_digits (s ds : string) :
  retryDelay_here s = Some ds -> all_digits ds.
Proof.
  unfold retryDelay_here.
  destruct (strip_prefix_ci _ s) as [r1 |]; [| discriminate].
  destruct (skip_quote r1) as [| c r2]; [discriminate |].
  destruct (Ascii.eqb c ":"); [| discriminate].
  pose proof (span_digits_all_digits (skip_quote r2)) as Hd.
  destruct (span_digits (skip_quote r2)) as [ds' r3]; cbn in Hd.
  destruct ds' as [| d ds']; [discriminate |].
  destruct r3 as [| u r3]; [discriminate |].
  destruct (eqb_ci u "s"); [| discriminate].
  intros H; injection H as <-. exact Hd.
Qed.

Lemma parseRetryDelayMs_nonneg (msg : string) (d : Z) :
  parseRetryDelayMs msg = Some d -> 0 <= d.
Proof.
  unfold parseRetryDelayMs. destruct msg as [| c msg]; [discriminate |].
  destruct (regex_search retryDelay_here _) as [ds |] eqn:Hs; [| discriminate].
  intros H; injection H as <-.
  apply regex_search_some in Hs as [s' Hs]. apply retryDelay_here_digits in Hs.
  pose proof (parse_digits_nonneg ds 0 ltac:(lia) Hs). unfold parseInt10. lia.
Qed.

Lemma delay_or_default_pos (msg : string) : 0 < delay_or_default msg.
Proof.
  unfold delay_or_default.
  destruct (parseRetryDelayMs msg) as [d |] eqn:Hd; [| lia].
  apply parseRetryDelayMs_nonneg in Hd.
  destruct (d =? 0) eqn:H0; [lia | apply Z.eqb_neq in H0; lia].
Qed.

(** *** Timers *)

Lemma timer_delay_pos (ms : Z) : 1 <= timer_delay ms.
Proof.
  unfold timer_delay, TIMEOUT_MAX.
  destruct (1 <=? ms) eqn:H1; cbn [andb]; [| lia].
  destruct (ms <=? 2147483647); [apply Z.leb_le in H1; lia | lia].
Qed.

Lemma timer_delay_in_range (ms : Z) :
  1 <= ms <= TIMEOUT_MAX -> timer_delay ms = ms.
Proof.
  intros [H1 H2]. unfold timer_delay.
  apply Z.leb_le in H1, H2. now rewrite H1, H2.
Qed.

Lemma timer_delay_out_of_range (ms : Z) :
  ms < 1 \/ TIMEOUT_MAX < ms -> timer_delay ms = 1.
Proof.
  intros H. unfold timer_delay.
  destruct (1 <=? ms) eqn:H1; cbn [andb]; [| reflexivity].
  destruct (ms <=? TIMEOUT_MAX) eqn:H2; [| reflexivity].
  apply Z.leb_le in H1, H2. lia.
Qed.


(** *** One iteration of the loop *)

Lemma ensureCooldown_spec (w : world E) :
  fst (@ensureCooldown E w) = Returned tt /\
  clock (snd (@ensureCooldown E w))
  = (if clock w <? last429CooldownUntil w
     then clock w + timer_delay (last429CooldownUntil w - clock w)
     else clock w) /\
  last429CooldownUntil (snd (@ensureCooldown E w)) = last429CooldownUntil w /\
  draws (snd (@ensureCooldown E w)) = draws w /\
  env (snd (@ensureCooldown E w)) = env w.
Proof.
  unfold ensureCooldown. run_monad.
  destruct (clock w <? last429CooldownUntil w) eqn:Hlt; run_monad;
    repeat split; reflexivity.
Qed.

(** [ensureCooldown] returns when the cooldown has passed, if that is within
    the range of a timer, and after one millisecond if it is not. *)
Lemma ensureCooldown_clock (w : world E) :
  clock w <= clock (snd (@ensureCooldown E w)) /\
  clock (snd (@ensureCooldown E w))
  = (if last429CooldownUntil w - clock w <=? TIMEOUT_MAX
     then Z.max (clock w) (last429CooldownUntil w)
     else clock w + 1).
Proof.
  destruct (ensureCooldown_spec w) as (_ & -> & _).
  pose proof (timer_delay_pos (last429CooldownUntil w - clock w)) as Hpos.
  destruct (clock w <? last429CooldownUntil w) eqn:Hlt;
    [apply Z.ltb_lt in Hlt | apply Z.ltb_ge in Hlt];
    (split; [lia |]);
    destruct (last429CooldownUntil w - clock w <=? TIMEOUT_MAX) eqn:Hr;
    try apply Z.leb_le in Hr; try apply Z.leb_gt in Hr.
  - rewrite timer_delay_in_range by lia. lia.
  - rewrite timer_delay_out_of_range by lia. reflexivity.
  - lia.
  - unfold TIMEOUT_MAX in Hr. lia.
Qed.

Lemma attempt_unfold (w : world E) :
  (bind (@ensureCooldown E) (fun _ => operation)) w = operation (snd (@ensureCooldown E w)).
Proof.
  unfold bind. destruct (ensureCooldown_spec w) as [Hr _].
  destruct (ensureCooldown w) as [o w0]; cbn in *. now subst o.
Qed.

(** When the [catch] clause itself throws, it is because the message is no
    string. *)
Lemma isRate_throws (e te : js_error) :
  isRate e = inl te -> message e = NotText /\ te = TypeError "msg.includes".
Proof.
  unfold isRate. destruct (opt_eqb (status_of e) 429); [discriminate |].
  destruct (message e); [discriminate |]. intros [= <-]. split; reflexivity.
Qed.

Lemma delay_of_throws (msg : message_value) (te : js_error) :
  delay_of msg = inl te -> msg = NotText /\ te = TypeError "msg.match".
Proof.
  destruct msg; cbn; [discriminate |]. intros [= <-]. split; reflexivity.
Qed.

(** One iteration of the loop, by the outcome of its attempt. *)
Lemma retry_step (remaining : nat) (i : Z) (w : world E) :
  retry (S remaining) i w =
  match operation (snd (ensureCooldown w)) with
  | (Returned a, w1) => (Returned a, w1)
  | (Threw e, w1) =>
      match isRate e with
      | inl te => (Threw te, w1)
      | inr true =>
          match delay_of (message e) with
          | inl te => (Threw te, w1)
          | inr hint =>
              let delay := hint + jitter 1500 (draws w1) in
              if i =? maxRetries - 1
              then (Threw e, mkWorld (clock w1) (clock w1 + delay) (S (draws w1)) (env w1))
              else retry remaining (i + 1)
                     (mkWorld (clock w1 + timer_delay delay) (clock w1 + delay)
                              (S (draws w1)) (env w1))
          end
      | inr false =>
          if negb (isServer e) || (i =? maxRetries - 1) then (Threw e, w1)
          else retry remaining (i + 1)
                 (mkWorld (clock w1 + timer_delay (baseDelay * 2 ^ i + jitter 400 (draws w1)))
                          (last429CooldownUntil w1) (S (draws w1)) (env w1))
      end
  end.
Proof.
  cbn [retry_from]. unfold try_catch at 1. rewrite attempt_unfold.
  destruct (operation _) as [[a | e] w1]; [reflexivity |].
  destruct (isRate e) as [te | [|]]; unfold lift; run_monad; [reflexivity | |].
  - destruct (delay_of (message e)) as [te | hint]; run_monad; [reflexivity |].
    fold (jitter 1500 (draws w1)).
    destruct (i =? maxRetries - 1); reflexivity.
  - destruct (negb (isServer e) || (i =? maxRetries - 1)); reflexivity.
Qed.

(** C5 (as amended): when an attempt fails with a rate-limit signal whose
    message is a string, the delay is the parsed [retryDelay] hint in
    milliseconds when that hint is not zero, and 30000 ms when no hint
    parses or the hint is zero, plus a jitter in [0, 1500); the shared
    cooldown is set to [now + delay], also on the last allowed attempt,
    which re-throws the error; otherwise the loop sleeps that delay when it
    is at most [2^31 - 1] ms, and 1 ms when it is more, and goes on with the
    next attempt.  Every attempt first waits for the shared cooldown: until
    it has passed when that is at most [2^31 - 1] ms away, and for 1 ms
    when it is further away.  (The timestamps are within [2^53], where the
    code computes them exactly.) *)
Theorem C5_rate_limit_delay_and_cooldown :
  forall (remaining : nat) (i : Z) (w w1 : world E) (e : js_error) (msg : string),
    let w0 := snd (@ensureCooldown E w) in
    operation w0 = (Threw e, w1) ->
    message e = Text msg ->
    isRate e = inr true ->
    let base :=
      match parseRetryDelayMs msg with
      | Some d => if d =? 0 then 30000 else d
      | None => 30000
      end in
    let delay := base + jitter 1500 (draws w1) in
    0 <= clock w1 /\ clock w1 + delay <= 2 ^ 53 ->
    clock w0 = (if last429CooldownUntil w - clock w <=? 2147483647
                then Z.max (clock w) (last429CooldownUntil w)
                else clock w + 1) /\
    (last429CooldownUntil w - clock w <= 2147483647 -> last429CooldownUntil w0 <= clock w0) /\
    0 <= jitter 1500 (draws w1) < 1500 /\
    retry (S remaining) i w =
      (if i =? maxRetries - 1
       then (Threw e, mkWorld (clock w1) (clock w1 + delay) (S (draws w1)) (env w1))
       else retry remaining (i + 1)
              (mkWorld (clock w1 + (if delay <=? 2147483647 then delay else 1))
                       (clock w1 + delay) (S (draws w1)) (env w1))).
Proof.
  intros remaining i w w1 e msg w0 Hop Hmsg Hrate base delay _.
  destruct (ensureCooldown_spec w) as (_ & _ & Hcool & _).
  destruct (ensureCooldown_clock w) as [_ Hclock].
  pose proof (jitter_range 1500 (draws w1) ltac:(lia)) as Hj.
  split; [exact Hclock |].
  split.
  { intros Hnear. subst w0. rewrite Hcool, Hclock.
    replace (last429CooldownUntil w - clock w <=? TIMEOUT_MAX) with true
      by (symmetry; apply Z.leb_le; exact Hnear). lia. }
  split; [exact Hj |].
  rewrite retry_step. fold w0. rewrite Hop, Hrate, Hmsg. cbn [delay_of].
  change (delay_or_default msg) with base. cbn zeta. fold delay.
  destruct (i =? maxRetries - 1); [reflexivity |].
  pose proof (delay_or_default_pos msg) as Hpos.
  change (delay_or_default msg) with base in Hpos.
  replace (timer_delay delay) with (if delay <=? 2147483647 then delay else 1);
    [reflexivity |].
  destruct (delay <=? 2147483647) eqn:Hr.
  - apply Z.leb_le in Hr. symmetry. apply timer_delay_in_range. unfold TIMEOUT_MAX. lia.
  - apply Z.leb_gt in Hr. symmetry. apply timer_delay_out_of_range. unfold TIMEOUT_MAX. lia.
Qed.

(** C6: an error that is neither a rate-limit signal nor a 500/503 is
    re-thrown at once, whatever the attempt number and the remaining budget,
    and the world is left as the failing attempt left it; a 500/503 that is
    not a rate-limit signal is re-thrown on the last attempt and otherwise
    retried after a timer of [baseDelay * 2^i] plus a jitter in [0, 400).
    Both hold when the message of the error is a string.  When it is a
    truthy value of another type and the status is not 429, the [catch]
    clause throws a [TypeError] of its own instead of the error of the
    operation, whatever the status. *)
Theorem C6_fatal_rethrown_transient_backoff :
  forall (remaining : nat) (i : Z) (w w1 : world E) (e : js_error),
    operation (snd (@ensureCooldown E w)) = (Threw e, w1) ->
    (isRate e = inr false -> isServer e = false ->
       retry (S remaining) i w = (Threw e, w1)) /\
    (isRate e = inr false -> isServer e = true ->
       0 <= jitter 400 (draws w1) < 400 /\
       retry (S remaining) i w =
         if i =? maxRetries - 1 then (Threw e, w1)
         else retry remaining (i + 1)
                (mkWorld (clock w1 + timer_delay (baseDelay * 2 ^ i + jitter 400 (draws w1)))
                         (last429CooldownUntil w1) (S (draws w1)) (env w1))) /\
    (message e = NotText -> opt_eqb (status_of e) 429 = false ->
       retry (S remaining) i w = (Threw (TypeError "msg.includes"), w1)).
Proof.
  intros remaining i w w1 e Hop.
  split; [| split].
  - intros Hrate Hserver. rewrite retry_step, Hop, Hrate, Hserver. reflexivity.
  - intros Hrate Hserver. split; [apply jitter_range; lia |].
    rewrite retry_step, Hop, Hrate, Hserver. reflexivity.
  - intros Hmsg Hstatus. rewrite retry_step, Hop.
    unfold isRate. rewrite Hstatus, Hmsg. reflexivity.
Qed.

(** *** Where a thrown error comes from *)

(** [x] is the error [e], or the [TypeError] that the [catch] clause throws
    when it reads the message of [e]. *)
Definition provoked_by (e x : js_error) : Prop :=
  x = e \/
  (message e = NotText /\ (x = TypeError "msg.includes" \/ x = TypeError "msg.match")).

(** An error after which the loop goes on, if attempts are left. *)
Definition retryable (e : js_error) : Prop :=
  (isRate e = inr true /\ exists s, message e = Text s) \/
  (isRate e = inr false /\ isServer e = true).

Section ErrorLog.

(** The errors the operation has thrown so far, the latest first, kept in
    the operation's own state. *)
Variable thrown_log : E -> list js_error.
Hypothesis operation_logs :
  forall w e w', operation w = (Threw e, w') -> thrown_log (env w') = e :: thrown_log (env w).

Lemma retry_throws_last_error (remaining : nat) :
  forall (i : Z) (w w' : world E) (x : js_error),
    Z.of_nat (S remaining) = maxRetries - i ->
    retry (S remaining) i w = (Threw x, w') ->
    exists e rest, thrown_log (env w') = e :: rest /\ provoked_by e x.
Proof.
  induction remaining as [| r IH]; intros i w w' x Hinv Hrun;
    rewrite retry_step in Hrun;
    destruct (operation _) as [[a | e] w1] eqn:Hop; try discriminate;
    apply operation_logs in Hop;
    destruct (isRate e) as [te | [|]] eqn:Hrate.
  - injection Hrun as <- <-. apply isRate_throws in Hrate as [Hm ->].
    exists e, (thrown_log (env (snd (ensureCooldown w)))). split; [assumption |].
    right. auto.
  - destruct (delay_of (message e)) as [te | hint] eqn:Hdelay.
    + injection Hrun as <- <-. apply delay_of_throws in Hdelay as [Hm ->].
      eexists _, _. split; [eassumption |]. right. auto.
    + cbn zeta in Hrun.
      replace (i =? maxRetries - 1) with true in Hrun by (symmetry; apply Z.eqb_eq; lia).
      injection Hrun as <- <-. eexists _, _. split; [eassumption | left; reflexivity].
  - replace (i =? maxRetries - 1) with true in Hrun by (symmetry; apply Z.eqb_eq; lia).
    rewrite orb_true_r in Hrun. injection Hrun as <- <-.
    eexists _, _. split; [eassumption | left; reflexivity].
  - injection Hrun as <- <-. apply isRate_throws in Hrate as [Hm ->].
    eexists _, _. split; [eassumption |]. right. auto.
  - destruct (delay_of (message e)) as [te | hint] eqn:Hdelay.
    + injection Hrun as <- <-. apply delay_of_throws in Hdelay as [Hm ->].
      eexists _, _. split; [eassumption |]. right. auto.
    + cbn zeta in Hrun.
      replace (i =? maxRetries - 1) with false in Hrun by (symmetry; apply Z.eqb_neq; lia).
      apply IH in Hrun; [exact Hrun | lia].
  - replace (i =? maxRetries - 1) with false in Hrun by (symmetry; apply Z.eqb_neq; lia).
    rewrite orb_false_r in Hrun.
    destruct (negb (isServer e)).
    + injection Hrun as <- <-. eexists _, _. split; [eassumption | left; reflexivity].
    + apply IH in Hrun; [exact Hrun | lia].
Qed.

Lemma retry_exhausts (remaining : nat) :
  (forall w, exists e w', operation w = (Threw e, w') /\ retryable e) ->
  forall (i : Z) (w : world E),
    Z.of_nat (S remaining) = maxRetries - i ->
    exists x w' rest,
      retry (S remaining) i w = (Threw x, w') /\
      thrown_log (env w') = x :: rest /\
      List.length (x :: rest) = (List.length (thrown_log (env w)) + S remaining)%nat.
Proof.
  intros Hfails.
  induction remaining as [| r IH]; intros i w Hinv; rewrite retry_step;
    destruct (ensureCooldown_spec w) as (_ & _ & _ & _ & Henv);
    destruct (Hfails (snd (ensureCooldown w))) as (e & w1 & Hop & Hretry);
    rewrite Hop; apply operation_logs in Hop; rewrite Henv in Hop;
    destruct Hretry as [[Hrate [s Hmsg]] | [Hrate Hserver]]; rewrite Hrate.
  - rewrite Hmsg. cbn [delay_of]. cbn zeta.
    replace (i =? maxRetries - 1) with true by (symmetry; apply Z.eqb_eq; lia).
    eexists _, _, _. split; [reflexivity |]. cbn [env]. split; [exact Hop |].
    cbn [List.length]. lia.
  - replace (i =? maxRetries - 1) with true by (symmetry; apply Z.eqb_eq; lia).
    rewrite orb_true_r.
    eexists _, _, _. split; [reflexivity |]. split; [exact Hop |].
    cbn [List.length]. lia.
  - rewrite Hmsg. cbn [delay_of]. cbn zeta.
    replace (i =? maxRetries - 1) with false by (symmetry; apply Z.eqb_neq; lia).
    match goal with |- context [retry (S r) ?j ?w2] =>
      destruct (IH j w2 ltac:(lia)) as (x & w' & rest & -> & Hlog & Hlen) end.
    cbn [env] in Hlen. rewrite Hop in Hlen. cbn [List.length] in Hlen.
    exists x, w', rest. split; [reflexivity |]. split; [exact Hlog |].
    cbn [List.length]. lia.
  - replace (i =? maxRetries - 1) with false by (symmetry; apply Z.eqb_neq; lia).
    rewrite Hserver. cbn [negb orb].
    match goal with |- context [retry (S r) ?j ?w2] =>
      destruct (IH j w2 ltac:(lia)) as (x & w' & rest & -> & Hlog & Hlen) end.
    cbn [env] in Hlen. rewrite Hop in Hlen. cbn [List.length] in Hlen.
    exists x, w', rest. split; [reflexivity |]. split; [exact Hlog |].
    cbn [List.length]. lia.
Qed.

End ErrorLog.

(** C7 (as amended): with at least one allowed attempt, whatever
    [retryWithBackoff] throws is the error of the last attempt it made (or
    the [TypeError] that the [catch] clause throws on reading a message of
    that error that is no string); in particular, when every attempt fails
    with an error that is retried, the operation is attempted exactly
    [maxRetries] times and the error of the last of these attempts is
    re-thrown.  The fresh 'Max retries exceeded' error is raised only when
    no attempt is allowed, and then at once.  (The errors thrown by the
    operation are observed through a log kept in the operation's state.) *)
Theorem C7_exhaustion_rethrows_last_error :
  forall thrown_log : E -> list js_error,
    (forall w e w',
        operation w = (Threw e, w') -> thrown_log (env w') = e :: thrown_log (env w)) ->
    (0 < maxRetries ->
     forall (w w' : world E) (x : js_error),
       retryWithBackoff T E Math_random operation maxRetries baseDelay w = (Threw x, w') ->
       exists e rest, thrown_log (env w') = e :: rest /\ provoked_by e x) /\
    (0 < maxRetries ->
     (forall w, exists e w', operation w = (Threw e, w') /\ retryable e) ->
     forall w : world E,
       exists x w' rest,
         retryWithBackoff T E Math_random operation maxRetries baseDelay w = (Threw x, w') /\
         thrown_log (env w') = x :: rest /\
         List.length (x :: rest)
         = (List.length (thrown_log (env w)) + Z.to_nat maxRetries)%nat) /\
    (maxRetries <= 0 ->
     forall w : world E,
       retryWithBackoff T E Math_random operation maxRetries baseDelay w
       = (Threw maxRetriesError, w)).
Proof.
  intros thrown_log Hlogs. split; [| split].
  - intros Hpos w w' x. unfold retryWithBackoff.
    destruct (Z.to_nat maxRetries) as [| r] eqn:Hn; [lia |].
    apply (retry_throws_last_error thrown_log Hlogs). lia.
  - intros Hpos Hfails w. unfold retryWithBackoff.
    destruct (Z.to_nat maxRetries) as [| r] eqn:Hn; [lia |].
    apply (retry_exhausts thrown_log Hlogs r Hfails). lia.
  - intros Hle w. unfold retryWithBackoff.
    replace (Z.to_nat maxRetries) with 0%nat by lia. reflexivity.
Qed.

End RetryFacts.

(** ** Concrete runs of the retry loop *)

Section RetryRuns.

Import RetryPolicy.
Local Open Scope string_scope.
Local Open Scope Z_scope.

(** Every [Math.random()] call returns one half. *)
Definition half_draws : nat -> Q := fun _ => (1 # 2)%Q.

Lemma half_draws_range : forall k, (0 <= half_draws k)%Q /\ (half_draws k < 1)%Q.
Proof. intros k. unfold half_draws, Qle, Qlt. cbn. lia. Qed.

Definition quoted (s : string) : string := String dquote (s ++ String dquote EmptyString).

(** The message of a rate-limit error of the LLM service with a retry hint
    of [secs] seconds. *)
Definition rate_limit_message (secs : string) : string :=
  "[429 Too Many Requests] {" ++ quoted "retryDelay" ++ ":" ++ quoted (secs ++ "s") ++ "}".

Definition rate_limit_error (secs : string) : js_error :=
  mkError None (Text (rate_limit_message secs)).

Definition service_unavailable : js_error := mkError (Some 503) "Service Unavailable".

(** A rejection whose message is a number: [{ status: 400, message: 12345 }]. *)
Definition bad_request_with_code : js_error := mkError (Some 400) NotText.

(** An operation that takes 10 ms, counts its calls and always throws [e]. *)
Definition always_throws (e : js_error) : M nat unit :=
  fun w => (Threw e, mkWorld (clock w + 10) (last429CooldownUntil w) (draws w) (S (env w))).

(** An operation that takes 10 ms, always throws [e] and logs what it
    throws. *)
Definition always_logs (e : js_error) : M (list js_error) unit :=
  fun w => (Threw e, mkWorld (clock w + 10) (last429CooldownUntil w) (draws w) (e :: env w)).

Definition start : world nat := mkWorld 0 0 0 0%nat.

Definition start_log : world (list js_error) := mkWorld 0 0 0 [].

(** C5, counterexample: a hint of zero seconds parses (to 0 ms), yet the
    cooldown is set 30000 ms plus the jitter (750 ms) after the failure, not
    0 ms plus the jitter. *)
Lemma C5_counterexample_zero_hint :
  message (rate_limit_error "0") = Text (rate_limit_message "0") /\
  parseRetryDelayMs (rate_limit_message "0") = Some 0 /\
  isRate (rate_limit_error "0") = inr true /\
  jitter half_draws 1500 0 = 750 /\
  retryWithBackoff unit nat half_draws (always_throws (rate_limit_error "0")) 1 1200 start
  = (Threw (rate_limit_error "0"), mkWorld 10 (10 + (30000 + 750)) 1 1%nat).
Proof. repeat split; vm_compute; reflexivity. Qed.

Lemma C5_witness :
  clock (snd (ensureCooldown start)) = 0 /\
  (last429CooldownUntil start - clock start <= 2147483647 ->
   last429CooldownUntil (snd (ensureCooldown start)) <= clock (snd (ensureCooldown start))) /\
  0 <= jitter half_draws 1500 0 < 1500 /\
  retry_from unit nat half_draws (always_throws (rate_limit_error "17")) 4 1200 4 0 start
  = retry_from unit nat half_draws (always_throws (rate_limit_error "17")) 4 1200 3 1
      (mkWorld (10 + (17000 + 750)) (10 + (17000 + 750)) 1 1%nat).
Proof.
  apply (C5_rate_limit_delay_and_cooldown unit nat half_draws half_draws_range
           (always_throws (rate_limit_error "17")) 4 1200 3 0 start
           (mkWorld 10 0 0 1%nat) (rate_limit_error "17") (rate_limit_message "17")
           eq_refl eq_refl eq_refl).
  vm_compute. split; discriminate.
Defined.

(** A hint beyond the range of a timer (3000000 s): the cooldown is set that
    far ahead, and the loop sleeps 1 ms before the next attempt. *)
Lemma rate_limit_hint_beyond_timer_range :
  retry_from unit nat half_draws (always_throws (rate_limit_error "3000000")) 4 1200 4 0 start
  = retry_from unit nat half_draws (always_throws (rate_limit_error "3000000")) 4 1200 3 1
      (mkWorld (10 + 1) (10 + (3000000000 + 750)) 1 1%nat).
Proof. vm_compute. reflexivity. Qed.

Lemma C6_witness :
  0 <= jitter half_draws 400 0 < 400 /\
  retry_from unit nat half_draws (always_throws service_unavailable) 4 1200 4 0 start
  = retry_from unit nat half_draws (always_throws service_unavailable) 4 1200 3 1
      (mkWorld (10 + (1200 + 200)) 0 1 1%nat).
Proof.
  exact (proj1 (proj2 (C6_fatal_rethrown_transient_backoff unit nat half_draws half_draws_range
                         (always_throws service_unavailable) 4 1200 3 0 start
                         (mkWorld 10 0 0 1%nat) service_unavailable eq_refl))
           eq_refl eq_refl).
Defined.

(** C6, failing input: the operation rejects with a status of 400 and a
    message that is a number.  The error is neither a rate-limit signal nor
    a 500/503, yet what [retryWithBackoff] throws is not that error but the
    [TypeError] of [msg.includes]. *)
Lemma C6_counterexample_message_not_a_string :
  status_of bad_request_with_code = Some 400 /\
  isServer bad_request_with_code = false /\
  retryWithBackoff unit nat half_draws (always_throws bad_request_with_code) 4 1200 start
  = (Threw (TypeError "msg.includes"), mkWorld 10 0 0 1%nat) /\
  TypeError "msg.includes" <> bad_request_with_code.
Proof. repeat split; try (vm_compute; reflexivity). discriminate. Qed.

(** C7, counterexample: four attempts are allowed, all four fail with a 503,
    and what is thrown is that 503 error, whose message is not
    'Max retries exceeded'. *)
Lemma C7_counterexample_last_error_rethrown :
  retryWithBackoff unit nat half_draws (always_throws service_unavailable) 4 1200 start
  = (Threw service_unavailable, mkWorld 9040 0 3 4%nat) /\
  message service_unavailable <> message maxRetriesError.
Proof. split; [vm_compute; reflexivity | discriminate]. Qed.

Lemma C7_witness :
  exists x w' rest,
    retryWithBackoff unit (list js_error) half_draws (always_logs service_unavailable) 4 1200
      start_log = (Threw x, w') /\
    env w' = x :: rest /\
    List.length (x :: rest) = (List.length (env start_log) + Z.to_nat 4)%nat.
Proof.
  refine (proj1 (proj2 (C7_exhaustion_rethrows_last_error unit (list js_error) half_draws
                          (always_logs service_unavailable) 4 1200 (fun log => log) _))
            eq_refl _ start_log).
  - intros w e w' [= <- <-]. reflexivity.
  - intros w. eexists _, _. split; [reflexivity |]. right. split; reflexivity.
Defined.

End RetryRuns.

(* ====================================================================== *)
(** * Properties of the batch executor *)
(* ====================================================================== *)

Section BatchFacts.

Import RetryPolicy BatchExecutor.
Local Open Scope Z_scope.

Variables (TInput TOutput : Type).
Variable options : BatchProcessorOptions.
Variable processor : TInput -> completion (option TOutput).

(** A [getItemName] that does not throw. *)
Variable itemName : TInput -> string.

Local Abbreviation out_of := (batch_output options processor).
Local Abbreviation named := (never_throws itemName).

(** What [processItemWithTimeout] resolves with. *)
Definition item_value (item : TInput) : option TOutput :=
  match processor item with
  | Completes ms before_timers (Fulfilled (Some v)) =>
      if completion_tick ms before_timers <? item_timer options then Some v else None
  | _ => None
  end.

(** All the batches of [items], [n] items each. *)
Definition batches_of (n : nat) (items : list TInput) : list (list TInput) :=
  chunks (List.length items) n items.

(** *** The order of the events of a batch *)

(** A processing ends before the item timer fires when it ends in an
    earlier millisecond, or in the same millisecond ahead of the timers. *)
Lemma completion_before_item_timer (ms : Z) (before_timers : bool) :
  completion_tick ms before_timers < item_timer options <->
  ms < timer_delay (itemTimeoutMs options) \/
  (ms = timer_delay (itemTimeoutMs options) /\ before_timers = true).
Proof.
  unfold completion_tick, item_timer, tick.
  destruct before_timers; cbn [slot_index]; split; intros H.
  - destruct (Z.eq_dec ms (timer_delay (itemTimeoutMs options))); [right; auto | left; lia].
  - destruct H as [H | [H _]]; lia.
  - left. lia.
  - destruct H as [H | [_ H]]; [lia | discriminate].
Qed.

(** A tick at which no batch timer can fire. *)
Definition off_batch_timers (t : Z) : Prop :=
  exists q r, t = 4 * q + r /\ (r = 0 \/ r = 1 \/ r = 3).

Lemma item_settle_time_off_batch_timers (item : TInput) :
  off_batch_timers (item_settle_time TInput TOutput options processor item).
Proof.
  unfold item_settle_time, item_timer, completion_tick, tick.
  destruct (processor item) as [ms [|] s |]; cbn [slot_index].
  - destruct (Z.min_spec (4 * ms + 0) (4 * timer_delay (itemTimeoutMs options) + 1))
      as [[_ ->] | [_ ->]]; eexists _, _; split; try reflexivity; auto.
  - destruct (Z.min_spec (4 * ms + 3) (4 * timer_delay (itemTimeoutMs options) + 1))
      as [[_ ->] | [_ ->]]; eexists _, _; split; try reflexivity; auto.
  - eexists _, _; split; [reflexivity | auto].
Qed.

Lemma last_settle_time_off_batch_timers (batch : list TInput) :
  off_batch_timers
    (fold_right Z.max 0 (map (item_settle_time TInput TOutput options processor) batch)).
Proof.
  induction batch as [| item batch IH]; cbn [map fold_right].
  - exists 0, 0. split; [reflexivity | auto].
  - match goal with |- off_batch_timers (Z.max ?a ?b) =>
      destruct (Z.max_spec a b) as [[_ ->] | [_ ->]] end;
      [exact IH | apply item_settle_time_off_batch_timers].
Qed.

Lemma last_settle_time_not_batch_timer (batch : list TInput) :
  fold_right Z.max 0 (map (item_settle_time TInput TOutput options processor) batch)
  <> batch_timer options.
Proof.
  destruct (last_settle_time_off_batch_timers batch) as (q & r & -> & Hr).
  unfold batch_timer, tick. cbn [slot_index]. lia.
Qed.

Lemma processItemWithTimeout_settles (item : TInput) (name : string) :
  processItemWithTimeout TInput TOutput options processor item name
  = SettlesAt (item_settle_time TInput TOutput options processor item)
              (Fulfilled (item_value item)).
Proof.
  unfold processItemWithTimeout, item_settle_time, item_value, timeoutPromise, race, catching,
    started.
  fold (item_timer options).
  destruct (processor item) as [ms b [[v |] | e] |]; cbn; try reflexivity;
    assert (Hne : completion_tick ms b <> item_timer options)
      by (unfold completion_tick, item_timer, tick; destruct b; cbn [slot_index]; lia);
    destruct (item_timer options <? completion_tick ms b) eqn:Hlt;
    [apply Z.ltb_lt in Hlt | apply Z.ltb_ge in Hlt | apply Z.ltb_lt in Hlt
     | apply Z.ltb_ge in Hlt | apply Z.ltb_lt in Hlt | apply Z.ltb_ge in Hlt];
    try (replace (completion_tick ms b <? item_timer options) with false
           by (symmetry; apply Z.ltb_ge; lia));
    try (replace (completion_tick ms b <? item_timer options) with true
           by (symmetry; apply Z.ltb_lt; lia));
    f_equal; lia.
Qed.

Lemma names_of_named (batch : list TInput) :
  names_of TInput named batch = inr (map itemName batch).
Proof.
  induction batch as [| item batch IH]; cbn [names_of map]; [reflexivity |].
  unfold never_throws at 1. now rewrite IH.
Qed.

Lemma item_promises_named (batch : list TInput) :
  item_promises TInput TOutput options processor named batch
  = inr (map (fun item => processItemWithTimeout TInput TOutput options processor item
                            (itemName item)) batch).
Proof.
  induction batch as [| item batch IH]; cbn [item_promises map]; [reflexivity |].
  unfold never_throws at 1. now rewrite IH.
Qed.

Lemma allSettled_items (batch : list TInput) :
  allSettled (map (fun item => processItemWithTimeout TInput TOutput options processor item
                                 (itemName item)) batch)
  = SettlesAt (fold_right Z.max 0 (map (item_settle_time TInput TOutput options processor) batch))
              (Fulfilled (map (fun item => Fulfilled (item_value item)) batch)).
Proof.
  induction batch as [| item batch IH]; cbn [map allSettled fold_right]; [reflexivity |].
  rewrite processItemWithTimeout_settles, IH. reflexivity.
Qed.

Lemma successfulResults_items (batch : list TInput) :
  successfulResults TOutput (map (fun item => Fulfilled (item_value item)) batch)
  = successful_outputs options processor batch.
Proof.
  unfold successful_outputs.
  induction batch as [| item batch IH]; cbn [map successfulResults flat_map]; [reflexivity |].
  unfold item_value at 1, item_output at 1.
  destruct (processor item) as [ms b [[v |] | e] |]; cbn; try exact IH.
  destruct (completion_tick ms b <? item_timer options); cbn; [f_equal |]; exact IH.
Qed.

(** The race of the batch against its timer: the batch wins exactly when
    its last item stops before the batch timer fires. *)
Lemma race_against_batch_timer (batch : list TInput) :
  race (allSettled (map (fun item => processItemWithTimeout TInput TOutput options processor
                                       item (itemName item)) batch))
       (timeoutPromise BatchTimer "Batch timeout"%string (batchTimeoutMs options))
  = if batch_in_time options processor batch
    then SettlesAt (fold_right Z.max 0
                      (map (item_settle_time TInput TOutput options processor) batch))
                   (Fulfilled (map (fun item => Fulfilled (item_value item)) batch))
    else SettlesAt (batch_timer options) (Rejected (mkError None "Batch timeout"%string)).
Proof.
  rewrite allSettled_items. unfold timeoutPromise, race, batch_in_time.
  fold (batch_timer options).
  pose proof (last_settle_time_not_batch_timer batch) as Hne.
  destruct (batch_timer options <? _) eqn:Hlt;
    [apply Z.ltb_lt in Hlt | apply Z.ltb_ge in Hlt].
  - replace (_ <? batch_timer options) with false by (symmetry; apply Z.ltb_ge; lia).
    reflexivity.
  - replace (_ <? batch_timer options) with true by (symmetry; apply Z.ltb_lt; lia).
    reflexivity.
Qed.

(** A batch either beats its timer and yields its items' outputs, or the
    race rejects; it never hangs. *)
Lemma batchRace_await (batch : list TInput) :
  (batch_in_time options processor batch = true /\
   exists rs, batchRace TInput TOutput options processor named batch = Done rs /\
              successfulResults TOutput rs = successful_outputs options processor batch) \/
  (batch_in_time options processor batch = false /\
   exists e, batchRace TInput TOutput options processor named batch = Raised e).
Proof.
  unfold batchRace. rewrite item_promises_named, race_against_batch_timer.
  destruct (batch_in_time options processor batch); [left | right];
    (split; [reflexivity |]); cbn [await]; eauto using successfulResults_items.
Qed.

Lemma concurrentBatch_settles (batch : list TInput) :
  exists t, concurrentBatch TInput TOutput options processor named batch
            = SettlesAt t (Fulfilled (out_of batch)).
Proof.
  unfold concurrentBatch, batch_output.
  rewrite item_promises_named, race_against_batch_timer.
  destruct (batch_in_time options processor batch); eexists;
    rewrite ?successfulResults_items; reflexivity.
Qed.

Lemma Promise_all_group (group : list (list TInput)) :
  exists t, Promise_all (map (concurrentBatch TInput TOutput options processor named) group)
            = SettlesAt t (Fulfilled (map out_of group)).
Proof.
  induction group as [| batch group [t IH]]; cbn [map Promise_all]; [eauto |].
  destruct (concurrentBatch_settles batch) as [t' ->]. rewrite IH. eauto.
Qed.

(** *** Slices of a list taken from the left *)

Lemma slice_from_left {A : Type} (l : list A) (i n : nat) :
  slice l (Z.of_nat i) (Z.of_nat i + Z.of_nat n) = firstn n (skipn i l).
Proof.
  unfold slice, clamp_index.
  replace (Z.of_nat i <? 0) with false by (symmetry; apply Z.ltb_ge; lia).
  replace (Z.of_nat i + Z.of_nat n <? 0) with false by (symmetry; apply Z.ltb_ge; lia).
  destruct (Nat.le_gt_cases (i + n) (List.length l)) as [Hle | Hgt].
  - f_equal; [| f_equal]; lia.
  - destruct (Nat.le_gt_cases i (List.length l)) as [Hi | Hi].
    + replace (Z.to_nat (Z.min (Z.of_nat i) (Z.of_nat (List.length l)))) with i by lia.
      rewrite !firstn_all2; [reflexivity | rewrite length_skipn; lia | rewrite length_skipn; lia].
    + rewrite !skipn_all2 by lia. now rewrite !firstn_nil.
Qed.

Lemma chunks_enough_fuel (n : nat) :
  (0 < n)%nat ->
  forall fuel (items : list TInput),
    (List.length items <= fuel)%nat -> chunks fuel n items = batches_of n items.
Proof.
  intros Hn. unfold batches_of.
  assert (H : forall fuel fuel' (items : list TInput),
             (List.length items <= fuel)%nat -> (List.length items <= fuel')%nat ->
             chunks fuel n items = chunks fuel' n items).
  { induction fuel as [| fuel IH]; intros fuel' items Hf Hf'.
    - destruct items; [| cbn [List.length] in Hf; lia]. destruct fuel'; reflexivity.
    - destruct items as [| a items]; [destruct fuel'; reflexivity |].
      destruct fuel' as [| fuel']; [cbn [List.length] in Hf'; lia |].
      cbn [chunks]. f_equal.
      apply IH; rewrite length_skipn; cbn [List.length] in *; lia. }
  intros fuel items Hf. apply H; lia.
Qed.

Lemma batches_of_nonempty (n : nat) (a : TInput) (items : list TInput) :
  (0 < n)%nat ->
  batches_of n (a :: items) = firstn n (a :: items) :: batches_of n (skipn n (a :: items)).
Proof.
  intros Hn. unfold batches_of at 1. cbn [List.length chunks]. f_equal.
  apply chunks_enough_fuel; [assumption |].
  rewrite length_skipn. cbn [List.length]. lia.
Qed.

Lemma concat_batches_of (n : nat) :
  (0 < n)%nat -> forall items : list TInput, List.concat (batches_of n items) = items.
Proof.
  intros Hn items.
  remember (List.length items) as len eqn:Hlen.
  revert items Hlen. induction len as [len IH] using lt_wf_ind. intros items Hlen.
  destruct items as [| a items]; [reflexivity |].
  rewrite batches_of_nonempty by assumption. cbn [List.concat].
  rewrite (IH (List.length (skipn n (a :: items)))); [apply firstn_skipn | | reflexivity].
  rewrite length_skipn. cbn [List.length] in *. lia.
Qed.

Lemma chunks_length (n fuel : nat) (items : list TInput) :
  (List.length (chunks fuel n items) <= fuel)%nat.
Proof.
  revert items. induction fuel as [| fuel IH]; intros items; cbn [chunks]; [reflexivity |].
  destruct items; cbn [List.length]; [lia |]. specialize (IH (skipn n (t :: items))). lia.
Qed.

(** *** The three loops *)

Lemma sequential_from_spec (b : nat) (b_pos : (0 < b)%nat)
    (batchSize_b : batchSize options = Z.of_nat b) (items : list TInput) :
  forall fuel k acc,
    (List.length items - k < fuel)%nat ->
    sequential_from TInput TOutput options processor named fuel items (Z.of_nat k) acc
    = Some (Done (acc ++ flat_map out_of (batches_of b (skipn k items)))).
Proof.
  induction fuel as [| fuel IH]; intros k acc Hfuel; [lia |].
  cbn [sequential_from]. rewrite batchSize_b.
  destruct (Z.of_nat k <? Z.of_nat (List.length items)) eqn:Hlt.
  - apply Z.ltb_lt in Hlt. rewrite slice_from_left, names_of_named.
    replace (Z.of_nat k + Z.of_nat b) with (Z.of_nat (k + b)) by lia.
    destruct (skipn k items) as [| a rest] eqn:Hskip.
    { apply (f_equal (@List.length _)) in Hskip. rewrite length_skipn in Hskip.
      cbn [List.length] in Hskip. lia. }
    rewrite batches_of_nonempty by assumption. cbn [flat_map].
    replace (skipn b (a :: rest)) with (skipn (k + b) items)
      by (rewrite <- Hskip, skipn_skipn; f_equal; lia).
    unfold batch_output at 1.
    destruct (batchRace_await (firstn b (a :: rest)))
      as [(-> & rs & -> & Hrs) | (-> & e & ->)].
    + rewrite IH by lia. rewrite Hrs, app_assoc. reflexivity.
    + rewrite IH by lia. reflexivity.
  - apply Z.ltb_ge in Hlt. rewrite skipn_all2 by lia.
    cbn. now rewrite app_nil_r.
Qed.

Lemma batches_from_spec (b : nat) (b_pos : (0 < b)%nat)
    (batchSize_b : batchSize options = Z.of_nat b) (items : list TInput) :
  forall fuel k acc,
    (List.length items - k < fuel)%nat ->
    batches_from TInput options fuel items (Z.of_nat k) acc
    = Some (acc ++ batches_of b (skipn k items)).
Proof.
  induction fuel as [| fuel IH]; intros k acc Hfuel; [lia |].
  cbn [batches_from]. rewrite batchSize_b.
  destruct (Z.of_nat k <? Z.of_nat (List.length items)) eqn:Hlt.
  - apply Z.ltb_lt in Hlt. rewrite slice_from_left.
    replace (Z.of_nat k + Z.of_nat b) with (Z.of_nat (k + b)) by lia.
    destruct (skipn k items) as [| a rest] eqn:Hskip.
    { apply (f_equal (@List.length _)) in Hskip. rewrite length_skipn in Hskip.
      cbn [List.length] in Hskip. lia. }
    rewrite batches_of_nonempty by assumption.
    replace (skipn b (a :: rest)) with (skipn (k + b) items)
      by (rewrite <- Hskip, skipn_skipn; f_equal; lia).
    rewrite IH by lia. rewrite <- app_assoc. reflexivity.
  - apply Z.ltb_ge in Hlt. rewrite skipn_all2 by lia.
    cbn. now rewrite app_nil_r.
Qed.

Lemma groups_from_spec (c : nat) (c_pos : (0 < c)%nat)
    (concurrentBatches_c : concurrentBatches options = Z.of_nat c)
    (batches : list (list TInput)) :
  forall fuel k acc,
    (List.length batches - k < fuel)%nat ->
    groups_from TInput TOutput options processor named fuel batches (Z.of_nat k) acc
    = Some (Done (acc ++ flat_map out_of (skipn k batches))).
Proof.
  induction fuel as [| fuel IH]; intros k acc Hfuel; [lia |].
  cbn [groups_from]. rewrite concurrentBatches_c.
  destruct (Z.of_nat k <? Z.of_nat (List.length batches)) eqn:Hlt.
  - apply Z.ltb_lt in Hlt. rewrite slice_from_left.
    replace (Z.of_nat k + Z.of_nat c) with (Z.of_nat (k + c)) by lia.
    destruct (Promise_all_group (firstn c (skipn k batches))) as [t ->]. cbn [await].
    rewrite IH by lia. rewrite <- flat_map_concat_map, <- app_assoc. do 3 f_equal.
    rewrite <- flat_map_app.
    replace (skipn (k + c) batches) with (skipn c (skipn k batches))
      by (rewrite skipn_skipn; f_equal; lia).
    now rewrite firstn_skipn.
  - apply Z.ltb_ge in Hlt. rewrite skipn_all2 by lia.
    cbn. now rewrite app_nil_r.
Qed.

(** The sequential and the concurrent path return the outputs of the
    batches, batch after batch. *)
Lemma processBatches_runs (items : list TInput) (fuel : nat) :
  1 <= batchSize options ->
  (List.length items < fuel)%nat ->
  processBatches options processor named fuel items
  = Some (Done (flat_map out_of (batches_of (Z.to_nat (batchSize options)) items))).
Proof.
  intros Hb Hfuel.
  set (b := Z.to_nat (batchSize options)).
  assert (Hbpos : (0 < b)%nat) by (subst b; lia).
  assert (Hbeq : batchSize options = Z.of_nat b) by (subst b; lia).
  unfold processBatches. destruct (1 <? concurrentBatches options) eqn:Hc.
  - apply Z.ltb_lt in Hc. unfold processConcurrentBatches.
    pose proof (batches_from_spec b Hbpos Hbeq items fuel 0 []) as Hcut.
    change (Z.of_nat 0) with 0 in Hcut. cbn [skipn app] in Hcut.
    rewrite Hcut by lia.
    pose proof (groups_from_spec (Z.to_nat (concurrentBatches options))
                  ltac:(lia) ltac:(lia) (batches_of b items) fuel 0 []) as Hgroups.
    change (Z.of_nat 0) with 0 in Hgroups. cbn [skipn app] in Hgroups.
    apply Hgroups.
    pose proof (chunks_length b (List.length items) items). unfold batches_of. lia.
  - pose proof (sequential_from_spec b Hbpos Hbeq items fuel 0 []) as Hseq.
    change (Z.of_nat 0) with 0 in Hseq. cbn [skipn app] in Hseq.
    apply Hseq. lia.
Qed.

(** With an item timer that is not set later than the batch timer, no batch
    can lose the race against its own timer. *)
Lemma batch_in_time_always (batch : list TInput) :
  timer_delay (itemTimeoutMs options) <= timer_delay (batchTimeoutMs options) ->
  batch_in_time options processor batch = true.
Proof.
  intros Hle. unfold batch_in_time. apply Z.ltb_lt.
  pose proof (timer_delay_pos (itemTimeoutMs options)) as Hpos.
  assert (H : fold_right Z.max 0 (map (item_settle_time TInput TOutput options processor) batch)
              <= item_timer options).
  { induction batch as [| item batch IH]; cbn [map fold_right].
    - unfold item_timer, tick. cbn [slot_index]. lia.
    - unfold item_settle_time at 1. destruct (processor item); lia. }
  unfold item_timer, batch_timer, tick in *. cbn [slot_index] in *. lia.
Qed.

Lemma all_batches_in_time (items : list TInput) (b : nat) :
  (0 < b)%nat ->
  timer_delay (itemTimeoutMs options) <= timer_delay (batchTimeoutMs options) ->
  flat_map out_of (batches_of b items) = successful_outputs options processor items.
Proof.
  intros Hb Htimers.
  rewrite <- (concat_batches_of b Hb items) at 2.
  generalize (batches_of b items) as batches.
  induction batches as [| batch batches IH]; [reflexivity |].
  cbn [flat_map List.concat]. unfold successful_outputs in *.
  rewrite flat_map_app, <- IH. f_equal.
  unfold batch_output. now rewrite batch_in_time_always by assumption.
Qed.

(** On the sequential path, an exception of [getItemName] on the first item
    leaves [processBatches]. *)
Lemma sequential_name_throws (getItemName : TInput -> js_error + string)
    (item : TInput) (rest : list TInput) (e : js_error) (fuel : nat) :
  1 <= batchSize options ->
  concurrentBatches options <= 1 ->
  getItemName item = inl e ->
  processBatches options processor getItemName (S fuel) (item :: rest) = Some (Raised e).
Proof.
  intros Hb Hc Hname. unfold processBatches.
  replace (1 <? concurrentBatches options) with false by (symmetry; apply Z.ltb_ge; lia).
  cbn [sequential_from]. cbn [List.length].
  replace (0 <? Z.of_nat (S (List.length rest))) with true by (symmetry; apply Z.ltb_lt; lia).
  pose proof (slice_from_left (item :: rest) 0 (Z.to_nat (batchSize options))) as Hslice.
  change (Z.of_nat 0) with 0 in Hslice.
  rewrite Z2Nat.id in Hslice by lia. rewrite Hslice. cbn [skipn].
  destruct (Z.to_nat (batchSize options)) as [| b] eqn:Hn; [lia |].
  cbn [firstn names_of]. now rewrite Hname.
Qed.

End BatchFacts.

Section BatchClaims.

Import RetryPolicy BatchExecutor.
Local Open Scope Z_scope.

Variables (TInput TOutput : Type).
Variable options : BatchProcessorOptions.
Variable processor : TInput -> completion (option TOutput).

(** C1 (as amended): with a batch size of at least one and a [getItemName]
    that does not throw, [processBatches] returns (it neither throws nor
    hangs, and its loops end within [length items + 1] iterations) the
    outputs of the batches in batch order, where a batch whose items have
    all settled or timed out before the batch timer fires yields exactly
    the non-null outputs of its items that succeeded before their item
    timer fired, in item order, and a batch that runs into the batch timeout
    yields nothing; and when the item timer is not set later than the batch
    timer, as with the defaults, that is exactly the non-null successful
    outputs of all the items, in input order.  An item succeeds before its
    timer when its processing ends in an earlier millisecond than the
    timer's delay, or in that millisecond ahead of the timers.  On the
    sequential path, a [getItemName] that throws on the first item makes
    [processBatches] itself throw. *)
Theorem C1_processBatches_collects_successes :
  forall (itemName : TInput -> string) (items : list TInput) (fuel : nat),
    1 <= batchSize options ->
    (List.length items < fuel)%nat ->
    processBatches options processor (never_throws itemName) fuel items
    = Some (Done (flat_map (batch_output options processor)
                    (batches_of TInput (Z.to_nat (batchSize options)) items)))
    /\ (timer_delay (itemTimeoutMs options) <= timer_delay (batchTimeoutMs options) ->
        processBatches options processor (never_throws itemName) fuel items
        = Some (Done (successful_outputs options processor items)))
    /\ (forall ms before_timers,
           completion_tick ms before_timers < item_timer options <->
           ms < timer_delay (itemTimeoutMs options) \/
           (ms = timer_delay (itemTimeoutMs options) /\ before_timers = true))
    /\ (forall (getItemName : TInput -> js_error + string) (item : TInput)
               (rest : list TInput) (e : js_error),
           concurrentBatches options <= 1 ->
           getItemName item = inl e ->
           processBatches options processor getItemName fuel (item :: rest) = Some (Raised e)).
Proof.
  intros itemName items fuel Hb Hfuel.
  pose proof (processBatches_runs TInput TOutput options processor itemName items fuel Hb Hfuel)
    as Hrun.
  split; [exact Hrun |]. split; [| split].
  - intros Htimers. rewrite Hrun. do 2 f_equal.
    apply all_batches_in_time; [lia | assumption].
  - apply completion_before_item_timer.
  - intros getItemName item rest e Hc Hname.
    destruct fuel as [| fuel]; [lia |].
    now apply sequential_name_throws.
Qed.

End BatchClaims.

(** ** Concrete runs of the batch executor *)

Section BatchRuns.

Import RetryPolicy BatchExecutor.
Local Open Scope string_scope.
Local Open Scope Z_scope.

(** Item 0 succeeds after 10 ms; item 1 never settles; item 2 fails after
    50 ms; any other item [n] succeeds with [n] after 600 ms. *)
Definition sample_processor (item : nat) : completion (option Z) :=
  match item with
  | 0%nat => Completes 10 true (Fulfilled (Some 100))
  | 1%nat => Never
  | 2%nat => Completes 50 true (Rejected (mkError (Some 500) "Internal error"))
  | n => Completes 600 true (Fulfilled (Some (Z.of_nat n)))
  end.

Definition sample_name (item : nat) : string := "item".

(** A batch timeout (500 ms) below the item timeout (1000 ms). *)
Definition short_batch_timeout : BatchProcessorOptions :=
  mkOptions 2 3000 1000 500 4 1200 1.

(** The same timeout (1000 ms) for an item and for a batch. *)
Definition equal_timeouts : BatchProcessorOptions :=
  mkOptions 2 3000 1000 1000 4 1200 1.

(** C1, counterexample: item 0 succeeds well within its timeout, and its
    sibling in the batch never settles; the batch timer fires before the
    sibling's item timer, and the output of item 0 is lost with the batch. *)
Lemma C1_counterexample_batch_timeout :
  successful_outputs short_batch_timeout sample_processor [0; 1]%nat = [100] /\
  processBatches short_batch_timeout sample_processor (never_throws sample_name) 3 [0; 1]%nat
  = Some (Done []).
Proof. split; vm_compute; reflexivity. Qed.

Lemma C1_witness :
  processBatches equal_timeouts sample_processor (never_throws sample_name) 6
    [0; 1; 2; 3; 4]%nat
  = Some (Done (successful_outputs equal_timeouts sample_processor [0; 1; 2; 3; 4]%nat)).
Proof.
  exact (proj1 (proj2 (C1_processBatches_collects_successes nat Z equal_timeouts
                         sample_processor sample_name
                         [0; 1; 2; 3; 4]%nat 6 ltac:(cbn; lia) ltac:(cbn; lia)))
               ltac:(cbn; lia)).
Defined.

(** With equal timeouts the item timer of the item that never settles fires
    ahead of the batch timer, and the output of its sibling is kept. *)
Lemma equal_timeouts_keep_the_batch :
  processBatches equal_timeouts sample_processor (never_throws sample_name) 6
    [0; 1; 2; 3; 4]%nat
  = Some (Done [100; 3; 4]).
Proof. vm_compute. reflexivity. Qed.

End BatchRuns.

(* ====================================================================== *)
(** * Properties of the ability estimator *)
(* ====================================================================== *)

Section EstimatorFacts.

Import AbilityEstimator.
Local Open Scope R_scope.

(** ** The estimator on finite inputs, as real functions *)

(** The value of a finite number. *)
Definition real_of (a : number) : R :=
  match a with
  | Fin r => r
  | _ => 0
  end.

Definition Rsigmoid (z : R) : R := / (1 + exp (- z)).

Definition Rlikelihood (theta k n : R) : R :=
  if Req_dec_T k n then Rsigmoid (theta - k)
  else Rsigmoid (theta - k) - Rsigmoid (theta - (k + 1)).

Definition Repsilon : R := / 10 ^ 10.

Definition Rloglik_from (acc theta : R) (l : list (R * R)) : R :=
  fold_left (fun acc p => acc + ln (Rmax (Rlikelihood theta (fst p) (snd p)) Repsilon)) l acc.

Definition Rloglik (theta : R) (l : list (R * R)) : R := Rloglik_from 0 theta l.

Definition Rlogprior (x BETA_PARAM xMin xMax : R) : R :=
  ln 6 + ln (x - xMin) - ln (xMax - xMin)
  + (BETA_PARAM - 1) * (ln (xMax - x) - ln (xMax - xMin)).

Definition Rgrid (xMin xMax : R) (gridPoints i : nat) : R :=
  xMin + INR i / INR gridPoints * (xMax - xMin).

(** Evaluations with finite levels and maxima. *)
Definition evals (l : list (R * R)) : list evaluation :=
  map (fun p => mkEval (Fin (fst p)) (Fin (snd p))) l.

Ltac decide_reals :=
  repeat match goal with
    | |- context [Rlt_dec ?a ?b] => destruct (Rlt_dec a b)
    | |- context [Req_dec_T ?a ?b] => destruct (Req_dec_T a b)
    | |- context [Rle_dec ?a ?b] => destruct (Rle_dec a b)
    end.

Lemma Rsigmoid_pos (z : R) : 0 < Rsigmoid z.
Proof. unfold Rsigmoid. apply Rinv_0_lt_compat. pose proof (exp_pos (- z)). lra. Qed.

Lemma Rsigmoid_lt_1 (z : R) : Rsigmoid z < 1.
Proof.
  unfold Rsigmoid. pose proof (exp_pos (- z)).
  rewrite <- Rinv_1 at 2. apply Rinv_lt_contravar; nra.
Qed.

Lemma Rsigmoid_increasing (x y : R) : x < y -> Rsigmoid x < Rsigmoid y.
Proof.
  intros Hxy. unfold Rsigmoid.
  pose proof (exp_pos (- x)). pose proof (exp_pos (- y)).
  assert (exp (- y) < exp (- x)) by (apply exp_increasing; lra).
  apply Rinv_lt_contravar; nra.
Qed.

Lemma Repsilon_pos : 0 < Repsilon.
Proof. unfold Repsilon. apply Rinv_0_lt_compat. apply pow_lt. lra. Qed.

Lemma sigmoid_fin (z : R) : sigmoid (Fin z) = Fin (Rsigmoid z).
Proof.
  unfold sigmoid, Rsigmoid. cbn. pose proof (exp_pos (- z)).
  destruct (Req_dec_T _ _); [lra |]. f_equal. unfold Rdiv. ring.
Qed.

Lemma likelihood_fin (theta k n : R) :
  likelihood (Fin theta) (mkEval (Fin k) (Fin n)) = Fin (Rlikelihood theta k n).
Proof.
  unfold likelihood, Rlikelihood, item_alpha, item_beta. cbn [level predictedMaxScore].
  cbn [sub neg add mul js_eq]. unfold Reqb.
  replace (1 * (theta + - k) + 0) with (theta - k) by ring.
  replace (1 * (theta + - (k + 1)) + 0) with (theta - (k + 1)) by ring.
  rewrite !sigmoid_fin. destruct (Req_dec_T k n); reflexivity.
Qed.

Lemma floored_log_fin (x : R) :
  Math_log (Math_max (Fin x) epsilon) = Fin (ln (Rmax x Repsilon)).
Proof.
  pose proof Repsilon_pos as He. unfold epsilon. fold Repsilon. cbn. unfold Rltb, Rmax.
  destruct (Rlt_dec x Repsilon), (Rle_dec x Repsilon); try lra; cbn;
    destruct (Rlt_dec 0 _); try lra; try reflexivity.
  replace x with Repsilon by lra. reflexivity.
Qed.

Lemma logLikelihood_from_fin (theta : R) (l : list (R * R)) :
  forall acc,
    fold_left
      (fun acc evalItem =>
         add acc (Math_log (Math_max (likelihood (Fin theta) evalItem) epsilon)))
      (evals l) (Fin acc)
    = Fin (Rloglik_from acc theta l).
Proof.
  induction l as [| [k n] l IH]; intros acc; [reflexivity |].
  cbn [evals map fold_left fst snd]. rewrite likelihood_fin, floored_log_fin.
  cbn [add]. apply IH.
Qed.

Lemma logLikelihood_fin (theta : R) (l : list (R * R)) :
  logLikelihood (Fin theta) (evals l) = Fin (Rloglik theta l).
Proof. apply logLikelihood_from_fin. Qed.

(** A posterior is finite only when the prior is. *)
Lemma add_finite (a b : number) :
  isFinite (add a b) = true -> isFinite a = true /\ isFinite b = true.
Proof. destruct a, b; cbn; intros H; try discriminate; auto. Qed.

(** The prior is finite only strictly inside the domain. *)
Lemma logPrior_finite_inside (x ALPHA BETA_PARAM : number) (xMin xMax : R) :
  isFinite (logPrior x ALPHA BETA_PARAM (Fin xMin) (Fin xMax)) = true ->
  exists r, x = Fin r /\ xMin < r < xMax.
Proof.
  unfold logPrior. destruct x as [r | | |]; unfold js_le, js_lt, js_eq, Rltb, Reqb;
    try discriminate.
  destruct (Rlt_dec xMin r), (Req_dec_T xMin r), (Rlt_dec r xMax), (Req_dec_T r xMax),
    (Req_dec_T r xMin); cbn [negb andb orb isFinite]; try discriminate; try lra;
    intros _; exists r; (split; [reflexivity | lra]).
Qed.

Lemma logPrior_fin (x ALPHA BETA_PARAM xMin xMax : R) :
  xMin < x < xMax ->
  logPrior (Fin x) (Fin ALPHA) (Fin BETA_PARAM) (Fin xMin) (Fin xMax)
  = Fin (Rlogprior x BETA_PARAM xMin xMax).
Proof.
  intros Hx. unfold logPrior, Rlogprior, js_le, js_lt, js_eq, Rltb, Reqb.
  destruct (Rlt_dec xMin x), (Rlt_dec x xMax), (Req_dec_T x xMax), (Req_dec_T x xMin);
    try lra; cbn [negb andb orb].
  cbn [sub neg add mul Math_log].
  destruct (Rlt_dec 0 6), (Rlt_dec 0 (x + - xMin)), (Rlt_dec 0 (xMax + - xMin)),
    (Rlt_dec 0 (xMax + - x)); try lra.
  cbn [sub neg add mul]. reflexivity.
Qed.

(** ** The grid search as an arg-max over indices *)

Lemma mapi_from_map_seq {A B : Type} (f : A -> nat -> B) (g : nat -> A) (n : nat) :
  forall k, mapi_from k f (map g (List.seq k n)) = map (fun i => f (g i) i) (List.seq k n).
Proof.
  induction n as [| n IH]; intros k; cbn [List.seq map mapi_from]; [reflexivity |].
  now rewrite IH.
Qed.

Lemma at_index_map_seq (g : nat -> number) (n i : nat) :
  (i < n)%nat -> at_index (map g (List.seq 0 n)) i = g i.
Proof.
  intros Hi. unfold at_index.
  rewrite (nth_indep _ NaN (g 0%nat)) by (rewrite length_map, length_seq; exact Hi).
  rewrite map_nth. f_equal. now rewrite seq_nth.
Qed.

Lemma filter_map_swap {A B : Type} (p : B -> bool) (f : A -> B) (l : list A) :
  filter p (map f l) = map f (filter (fun a => p (f a)) l).
Proof.
  induction l as [| a l IH]; cbn [map filter]; [reflexivity |].
  destruct (p (f a)); cbn [map]; now rewrite IH.
Qed.

(** The first index kept by a filter over a range, and what follows it. *)
Lemma filter_seq_first (p : nat -> bool) (n : nat) :
  forall a x r,
    filter p (List.seq a n) = x :: r ->
    (a <= x < a + n)%nat /\ p x = true /\
    (forall j, (a <= j < x)%nat -> p j = false) /\
    r = filter p (List.seq (S x) (a + n - S x)).
Proof.
  induction n as [| n IH]; intros a x r; cbn [List.seq filter]; [discriminate |].
  destruct (p a) eqn:Hpa.
  - intros H; injection H as <- <-. repeat split; try lia; [assumption | ].
    do 2 f_equal. lia.
  - intros H. apply IH in H as (Hx & Hpx & Hfirst & Hr).
    repeat split; try lia; [assumption | | ].
    + intros j Hj. destruct (Nat.eq_dec j a) as [-> | Hne]; [assumption |].
      apply Hfirst. lia.
    + rewrite Hr. do 2 f_equal. lia.
Qed.

Section ArgMax.

(** The log-posterior at each grid index. *)
Variable post : nat -> number.

Definition valid (i : nat) : bool := isFinite (post i).

(** The step of the [reduce], on indices. *)
Definition keep_max (max current : nat) : nat :=
  if js_gt (post current) (post max) then current else max.

Lemma reduce_max_indices (first : nat) (rest : list nat) :
  reduce_max (mkIndexed (post first) first) (map (fun i => mkIndexed (post i) i) rest)
  = mkIndexed (post (fold_left keep_max rest first)) (fold_left keep_max rest first).
Proof.
  unfold reduce_max. revert first.
  induction rest as [| c rest IH]; intros first; cbn [map fold_left]; [reflexivity |].
  cbn [value]. unfold keep_max at 2 4. destruct (js_gt (post c) (post first)); apply IH.
Qed.

Lemma js_gt_valid (i j : nat) :
  valid i = true -> valid j = true ->
  js_gt (post i) (post j) = true <-> real_of (post j) < real_of (post i).
Proof.
  unfold valid, js_gt. destruct (post i), (post j); cbn; try discriminate.
  intros _ _. unfold Rltb. destruct (Rlt_dec r0 r); split; intros; auto; discriminate.
Qed.

(** The [reduce] over the valid indices of a range keeps the first index of
    the largest value. *)
Lemma keep_max_range (n : nat) :
  forall a acc,
    (acc < a)%nat -> valid acc = true ->
    let m := fold_left keep_max (filter valid (List.seq a n)) acc in
    (m = acc \/ (a <= m < a + n)%nat) /\ valid m = true /\
    real_of (post acc) <= real_of (post m) /\
    (m <> acc -> real_of (post acc) < real_of (post m)) /\
    (forall j, (a <= j < a + n)%nat -> valid j = true ->
               real_of (post j) <= real_of (post m)) /\
    (forall j, (a <= j < m)%nat -> valid j = true ->
               real_of (post j) < real_of (post m)).
Proof.
  induction n as [| n IH]; intros a acc Hacc Hvalid; cbn [List.seq filter fold_left].
  - cbn zeta. repeat split; auto; try lra; try lia; intros; lia.
  - destruct (valid a) eqn:Hva; cbn [fold_left].
    + destruct (js_gt (post a) (post acc)) eqn:Hgt.
      * replace (keep_max acc a) with a by (unfold keep_max; now rewrite Hgt).
        apply js_gt_valid in Hgt; [| assumption | assumption].
        specialize (IH (S a) a ltac:(lia) Hva). cbn zeta in IH |- *.
        destruct IH as (Hm & Hvm & Hle & Hlt & Hmax & Hfirst).
        repeat split.
        -- destruct Hm as [-> | Hm]; right; lia.
        -- assumption.
        -- lra.
        -- intros _. lra.
        -- intros j Hj Hvj. destruct (Nat.eq_dec j a) as [-> | Hne]; [assumption |].
           apply Hmax; [lia | assumption].
        -- intros j Hj Hvj. destruct (Nat.eq_dec j a) as [-> | Hne].
           ++ apply Hlt. lia.
           ++ apply Hfirst; [lia | assumption].
      * replace (keep_max acc a) with acc by (unfold keep_max; now rewrite Hgt).
        assert (Hnot : ~ real_of (post acc) < real_of (post a)).
        { intros Hc. apply js_gt_valid in Hc; [congruence | assumption | assumption]. }
        specialize (IH (S a) acc ltac:(lia) Hvalid). cbn zeta in IH |- *.
        destruct IH as (Hm & Hvm & Hle & Hlt & Hmax & Hfirst).
        repeat split.
        -- destruct Hm as [-> | Hm]; [left; reflexivity | right; lia].
        -- assumption.
        -- assumption.
        -- assumption.
        -- intros j Hj Hvj. destruct (Nat.eq_dec j a) as [-> | Hne]; [lra |].
           apply Hmax; [lia | assumption].
        -- intros j Hj Hvj. destruct (Nat.eq_dec j a) as [-> | Hne].
           ++ assert (fold_left keep_max (filter valid (List.seq (S a) n)) acc <> acc) by lia.
              specialize (Hlt H). lra.
           ++ apply Hfirst; [lia | assumption].
    + specialize (IH (S a) acc ltac:(lia) Hvalid). cbn zeta in IH |- *.
      destruct IH as (Hm & Hvm & Hle & Hlt & Hmax & Hfirst).
      repeat split; try assumption.
      * destruct Hm as [-> | Hm]; [left; reflexivity | right; lia].
      * intros j Hj Hvj. destruct (Nat.eq_dec j a) as [-> | Hne]; [congruence |].
        apply Hmax; [lia | assumption].
      * intros j Hj Hvj. destruct (Nat.eq_dec j a) as [-> | Hne]; [congruence |].
        apply Hfirst; [lia | assumption].
Qed.

End ArgMax.

Section AnyGridSearch.

Variable ops : AnyArithmetic.Arithmetic.
Variable evaluations : list evaluation.
Variables ALPHA BETA_PARAM xMin xMax : number.
Variable gridPoints : nat.

Local Abbreviation any_post :=
  (AnyArithmetic.posterior_at ops evaluations ALPHA BETA_PARAM xMin xMax gridPoints).

(** What the search returns for a non-empty list, whatever the arithmetic:
    [xMin] when no grid point has a finite log-posterior, and otherwise the
    first grid point among those of the largest finite log-posterior. *)
Lemma any_grid_search_spec :
  evaluations <> [] ->
  let best :=
    bestAbility (AnyArithmetic.estimateAbilityByGridSearchMAP ops evaluations
                   ALPHA BETA_PARAM xMin xMax gridPoints) in
  ((forall i, (i <= gridPoints)%nat -> valid any_post i = false) /\ best = xMin)
  \/
  (exists m,
      (m <= gridPoints)%nat /\ valid any_post m = true /\
      best = AnyArithmetic.grid_point ops xMin xMax gridPoints m /\
      (forall j, (j <= gridPoints)%nat -> valid any_post j = true ->
                 real_of (any_post j) <= real_of (any_post m)) /\
      (forall j, (j < m)%nat -> valid any_post j = true ->
                 real_of (any_post j) < real_of (any_post m))).
Proof.
  intros Hne. unfold AnyArithmetic.estimateAbilityByGridSearchMAP.
  destruct evaluations as [| e es] eqn:Hevs; [congruence |]. rewrite <- Hevs. clear Hne.
  rewrite !map_map. unfold mapi.
  rewrite (mapi_from_map_seq _ _ (S gridPoints) 0).
  rewrite (map_ext_in _ any_post).
  2:{ intros i Hi. apply in_seq in Hi. unfold AnyArithmetic.posterior_at. f_equal.
      apply (at_index_map_seq
               (fun i => AnyArithmetic.logPrior ops
                           (AnyArithmetic.grid_point ops xMin xMax gridPoints i)
                           ALPHA BETA_PARAM xMin xMax)).
      lia. }
  rewrite (mapi_from_map_seq _ _ (S gridPoints) 0).
  rewrite (filter_map_swap _ (fun i => mkIndexed (any_post i) i)). cbn [value].
  fold (valid any_post).
  destruct (filter (valid any_post) (List.seq 0 (S gridPoints))) as [| first rest] eqn:HV;
    cbn [map bestAbility].
  - left. split; [| reflexivity]. intros i Hi.
    destruct (valid any_post i) eqn:Hvi; [| reflexivity].
    assert (Hin : In i (filter (valid any_post) (List.seq 0 (S gridPoints))))
      by (apply filter_In; split; [apply in_seq; lia | assumption]).
    rewrite HV in Hin. destruct Hin.
  - right. apply filter_seq_first in HV as (Hfirst & Hvfirst & Hbefore & ->).
    rewrite reduce_max_indices. cbn [index].
    pose proof (keep_max_range any_post (0 + S gridPoints - S first) (S first) first
                  ltac:(lia) Hvfirst) as Hmax.
    cbn zeta in Hmax.
    set (m := fold_left (keep_max any_post)
                (filter (valid any_post) (List.seq (S first) (0 + S gridPoints - S first)))
                first) in *.
    destruct Hmax as (Hm & Hvm & Hle & Hlt & Hall & Hties).
    assert (Hmg : (first <= m <= gridPoints)%nat) by (destruct Hm; lia).
    exists m. repeat split; try assumption; try lia.
    + apply (at_index_map_seq (AnyArithmetic.grid_point ops xMin xMax gridPoints)). lia.
    + intros j Hj Hvj.
      destruct (Nat.lt_trichotomy j first) as [Hlow | [-> | Hhigh]].
      * rewrite Hbefore in Hvj by lia. discriminate.
      * assumption.
      * apply Hall; [lia | assumption].
    + intros j Hj Hvj.
      destruct (Nat.lt_trichotomy j first) as [Hlow | [-> | Hhigh]].
      * rewrite Hbefore in Hvj by lia. discriminate.
      * apply Hlt. lia.
      * apply Hties; [lia | assumption].
Qed.

(** A grid point with a finite log-prior lies strictly between the bounds,
    whatever the arithmetic: the guards of [logPrior] are comparisons. *)
Lemma any_logPrior_finite_inside (x : number) :
  isFinite (AnyArithmetic.logPrior ops x ALPHA BETA_PARAM xMin xMax) = true ->
  js_lt xMin x = true /\ js_lt x xMax = true.
Proof.
  unfold AnyArithmetic.logPrior. cbn zeta.
  destruct (js_le xMin x && js_le x xMax) eqn:Hin; cbn [negb]; [| discriminate].
  destruct (js_eq x xMin || js_eq x xMax) eqn:Heq; [discriminate |]. intros _.
  apply andb_true_iff in Hin as [Hlo Hhi].
  apply orb_false_iff in Heq as [Hne1 Hne2].
  unfold js_le in Hlo, Hhi.
  assert (Hne1' : js_eq xMin x = false).
  { destruct x, xMin; cbn in *; try reflexivity; try discriminate.
    unfold Reqb in *. destruct (Req_dec_T r0 r), (Req_dec_T r r0); congruence. }
  rewrite Hne1' in Hlo. rewrite Hne2 in Hhi. rewrite !orb_false_r in *. auto.
Qed.

End AnyGridSearch.

Section GridSearch.

Variable evaluations : list evaluation.
Variables ALPHA BETA_PARAM xMin xMax : number.
Variable gridPoints : nat.

(** The log-posterior the search computes at grid index [i]. *)
Definition posterior_at (i : nat) : number :=
  add (logLikelihood (grid_point xMin xMax gridPoints i) evaluations)
      (logPrior (grid_point xMin xMax gridPoints i) ALPHA BETA_PARAM xMin xMax).

(** The functions of [AnyArithmetic] at the exact arithmetic are those of
    [AbilityEstimator]. *)
Lemma exact_functions :
  AnyArithmetic.estimateAbilityByGridSearchMAP AnyArithmetic.exact evaluations
    ALPHA BETA_PARAM xMin xMax gridPoints
  = estimateAbilityByGridSearchMAP evaluations ALPHA BETA_PARAM xMin xMax gridPoints
  /\ AnyArithmetic.posterior_at AnyArithmetic.exact evaluations
       ALPHA BETA_PARAM xMin xMax gridPoints
     = posterior_at
  /\ AnyArithmetic.grid_point AnyArithmetic.exact xMin xMax gridPoints
     = grid_point xMin xMax gridPoints.
Proof. repeat split. Qed.

(** What the search returns for a non-empty list: [xMin] when no grid point
    has a finite log-posterior, and otherwise the first grid point among
    those of the largest finite log-posterior. *)
Lemma grid_search_spec :
  evaluations <> [] ->
  let best :=
    bestAbility (estimateAbilityByGridSearchMAP evaluations ALPHA BETA_PARAM xMin xMax gridPoints) in
  ((forall i, (i <= gridPoints)%nat -> valid posterior_at i = false) /\ best = xMin)
  \/
  (exists m,
      (m <= gridPoints)%nat /\ valid posterior_at m = true /\
      best = grid_point xMin xMax gridPoints m /\
      (forall j, (j <= gridPoints)%nat -> valid posterior_at j = true ->
                 real_of (posterior_at j) <= real_of (posterior_at m)) /\
      (forall j, (j < m)%nat -> valid posterior_at j = true ->
                 real_of (posterior_at j) < real_of (posterior_at m))).
Proof.
  exact (any_grid_search_spec AnyArithmetic.exact evaluations ALPHA BETA_PARAM xMin xMax
           gridPoints).
Qed.

End GridSearch.

(** ** Finite inputs *)

Lemma grid_point_fin (xMin xMax : R) (gridPoints i : nat) :
  (0 < gridPoints)%nat ->
  grid_point (Fin xMin) (Fin xMax) gridPoints i = Fin (Rgrid xMin xMax gridPoints i).
Proof.
  intros Hg. unfold grid_point, Rgrid. cbn.
  assert (0 < INR gridPoints) by (apply lt_0_INR; exact Hg).
  destruct (Req_dec_T (INR gridPoints) 0); [lra |]. cbn. f_equal.
Qed.

Lemma Rgrid_inside (xMin xMax : R) (gridPoints i : nat) :
  xMin < xMax -> (0 < i < gridPoints)%nat ->
  xMin < Rgrid xMin xMax gridPoints i < xMax.
Proof.
  intros Hlt [Hi Hg]. unfold Rgrid.
  assert (0 < INR i) by (apply lt_0_INR; exact Hi).
  assert (INR i < INR gridPoints) by (apply lt_INR; exact Hg).
  assert (Hfrac : 0 < INR i / INR gridPoints < 1).
  { split; [apply Rdiv_lt_0_compat; lra |].
    apply (Rmult_lt_reg_r (INR gridPoints)); [lra |]. field_simplify; lra. }
  nra.
Qed.

Lemma Rgrid_first (xMin xMax : R) (gridPoints : nat) : Rgrid xMin xMax gridPoints 0 = xMin.
Proof. unfold Rgrid. cbn [INR]. unfold Rdiv. ring. Qed.

Lemma Rgrid_last (xMin xMax : R) (gridPoints : nat) :
  (0 < gridPoints)%nat -> Rgrid xMin xMax gridPoints gridPoints = xMax.
Proof.
  intros Hg. unfold Rgrid. assert (0 < INR gridPoints) by (apply lt_0_INR; exact Hg).
  field. lra.
Qed.

Lemma Rgrid_increasing (xMin xMax : R) (gridPoints i j : nat) :
  xMin < xMax -> (0 < gridPoints)%nat -> (i < j)%nat ->
  Rgrid xMin xMax gridPoints i < Rgrid xMin xMax gridPoints j.
Proof.
  intros Hlt Hg Hij. unfold Rgrid.
  assert (0 < INR gridPoints) by (apply lt_0_INR; exact Hg).
  assert (INR i < INR j) by (apply lt_INR; exact Hij).
  assert (INR i / INR gridPoints < INR j / INR gridPoints).
  { unfold Rdiv. apply Rmult_lt_compat_r; [apply Rinv_0_lt_compat; lra | lra]. }
  nra.
Qed.

(** The log-posterior of the finite model at an interior point. *)
Definition Rlogposterior (l : list (R * R)) (BETA_PARAM xMin xMax x : R) : R :=
  Rloglik x l + Rlogprior x BETA_PARAM xMin xMax.

Lemma posterior_at_inside (l : list (R * R)) (ALPHA BETA_PARAM xMin xMax : R)
    (gridPoints i : nat) :
  (0 < gridPoints)%nat ->
  xMin < Rgrid xMin xMax gridPoints i < xMax ->
  posterior_at (evals l) (Fin ALPHA) (Fin BETA_PARAM) (Fin xMin) (Fin xMax) gridPoints i
  = Fin (Rlogposterior l BETA_PARAM xMin xMax (Rgrid xMin xMax gridPoints i)).
Proof.
  intros Hg Hin. unfold posterior_at.
  rewrite grid_point_fin, logLikelihood_fin, logPrior_fin by assumption. reflexivity.
Qed.

Lemma valid_inside (evaluations : list evaluation) (ALPHA BETA_PARAM : number)
    (xMin xMax : R) (gridPoints i : nat) :
  valid (posterior_at evaluations ALPHA BETA_PARAM (Fin xMin) (Fin xMax) gridPoints) i = true ->
  exists x, grid_point (Fin xMin) (Fin xMax) gridPoints i = Fin x /\ xMin < x < xMax.
Proof.
  unfold valid, posterior_at. intros H. apply add_finite in H as [_ H].
  now apply logPrior_finite_inside in H.
Qed.

Lemma js_lt_le (a b : number) : js_lt a b = true -> js_le a b = true.
Proof. unfold js_le. intros ->. reflexivity. Qed.

Lemma js_le_refl (a b : number) : js_lt a b = true -> js_le a a = true.
Proof.
  unfold js_le. destruct a, b; cbn; try discriminate; try reflexivity; intros _;
    unfold Reqb; destruct (Req_dec_T r r); try congruence; apply orb_true_r.
Qed.

(** C2 (as amended): with [xMin < xMax], for a non-empty list and whatever
    the arithmetic rounds to (a finite sum having finite summands), the
    returned [bestAbility] lies within [xMin, xMax]: it is [xMin] when no
    grid point of the [(gridPoints+1)]-point grid has a finite
    log-posterior, and otherwise it is the first grid point among those
    whose finite log-posterior is largest, and it lies strictly between
    [xMin] and [xMax]; for the empty list it is the closed-form mode, which,
    computed exactly, lies within [xMin, xMax] when [ALPHA >= 1],
    [BETA_PARAM >= 1] and [ALPHA + BETA_PARAM > 2]. *)
Theorem C2_bestAbility_in_domain :
  (forall (ops : AnyArithmetic.Arithmetic) (evaluations : list evaluation)
          (ALPHA BETA_PARAM xMin xMax : number) (gridPoints : nat),
      (forall a b, isFinite (AnyArithmetic.plus ops a b) = true ->
                   isFinite a = true /\ isFinite b = true) ->
      js_lt xMin xMax = true ->
      evaluations <> [] ->
      let best :=
        bestAbility (AnyArithmetic.estimateAbilityByGridSearchMAP ops evaluations
                       ALPHA BETA_PARAM xMin xMax gridPoints) in
      let point := AnyArithmetic.grid_point ops xMin xMax gridPoints in
      let post :=
        AnyArithmetic.posterior_at ops evaluations ALPHA BETA_PARAM xMin xMax gridPoints in
      (js_le xMin best = true /\ js_le best xMax = true) /\
      (((forall i, (i <= gridPoints)%nat -> isFinite (post i) = false) /\ best = xMin)
       \/
       (exists m,
           (m <= gridPoints)%nat /\ isFinite (post m) = true /\
           best = point m /\
           js_lt xMin best = true /\ js_lt best xMax = true /\
           (forall j, (j <= gridPoints)%nat -> isFinite (post j) = true ->
                      real_of (post j) <= real_of (post m)) /\
           (forall j, (j < m)%nat -> isFinite (post j) = true ->
                      real_of (post j) < real_of (post m))))) /\
  (forall (a b xMin xMax : R) (gridPoints : nat),
      xMin < xMax -> 1 <= a -> 1 <= b -> 2 < a + b ->
      exists x,
        bestAbility (estimateAbilityByGridSearchMAP [] (Fin a) (Fin b) (Fin xMin) (Fin xMax)
                       gridPoints) = Fin x
        /\ xMin <= x <= xMax).
Proof.
  split.
  - intros ops evaluations ALPHA BETA_PARAM xMin xMax gridPoints Hplus Hlt Hne best point post.
    pose proof (any_grid_search_spec ops evaluations ALPHA BETA_PARAM xMin xMax
                  gridPoints Hne) as Hspec.
    cbn zeta in Hspec. fold best post in Hspec. unfold valid in Hspec.
    destruct Hspec as [[Hnone Hbest] | (m & Hm & Hvm & Hbest & Hmax & Hfirst)].
    + split; [| left; split; assumption].
      rewrite Hbest. split; [now apply js_le_refl with xMax | now apply js_lt_le].
    + pose proof Hvm as Hin. apply Hplus in Hin as [_ Hin].
      apply any_logPrior_finite_inside in Hin as [Hlo Hhi].
      fold point in Hbest. fold (point m) in Hlo, Hhi. rewrite <- Hbest in Hlo, Hhi.
      split; [split; now apply js_lt_le |].
      right. exists m. repeat split; assumption.
  - intros a b xMin xMax gridPoints Hlt Ha Hb Hab. cbn.
    destruct (Req_dec_T (a + b + - (2)) 0); [lra |].
    eexists. split; [reflexivity |].
    assert (Hfrac : 0 <= (a + - (1)) / (a + b + - (2)) <= 1).
    { split.
      - apply Rmult_le_pos; [lra |]. apply Rlt_le, Rinv_0_lt_compat. lra.
      - apply (Rmult_le_reg_r (a + b + - (2))); [lra |]. field_simplify; lra. }
    replace ((xMax + - xMin) * (a + - (1)) / (a + b + - (2)))
      with ((xMax - xMin) * ((a + - (1)) / (a + b + - (2)))) by (field; lra).
    nra.
Qed.

(** C3: for the empty list the search is skipped (no grid is built) and
    [bestAbility] is the closed-form mode
    [xMin + (xMax - xMin) * (ALPHA - 1) / (ALPHA + BETA_PARAM - 2)], which is
    [xMin + (xMax - xMin) / 5] for [ALPHA = 2] and [BETA_PARAM = 5]; and the
    confidence interval is the whole domain, whatever the estimate. *)
Theorem C3_empty_list_prior_mode :
  forall (ALPHA BETA_PARAM xMin xMax estimatedAbility : number) (gridPoints : nat),
    estimateAbilityByGridSearchMAP [] ALPHA BETA_PARAM xMin xMax gridPoints
    = mkMAP (add xMin (div (mul (sub xMax xMin) (sub ALPHA (Fin 1)))
                           (sub (add ALPHA BETA_PARAM) (Fin 2))))
            [] [] [] []
    /\ calculateBayesianConfidenceInterval estimatedAbility [] ALPHA BETA_PARAM xMin xMax
       = mkInterval xMin xMax
    /\ forall lo hi : R,
         bestAbility (estimateAbilityByGridSearchMAP [] (Fin 2) (Fin 5) (Fin lo) (Fin hi) gridPoints)
         = Fin (lo + (hi - lo) * (2 - 1) / (2 + 5 - 2)).
Proof.
  intros. repeat split. intros lo hi. cbn.
  destruct (Req_dec_T (2 + 5 + - (2)) 0); [lra |]. f_equal.
Qed.

(** ** The confidence interval *)

Lemma sqrt_pos_lt (i : R) : 0 < i -> 0 < sqrt i.
Proof. intros Hi. apply sqrt_lt_R0. exact Hi. Qed.

(** C4: for a non-empty list and an estimate within [xMin, xMax], with [I]
    the negated central second difference of the log-posterior around the
    estimate with step [1/10000], the interval is the whole domain when [I]
    is [<= 0] or not finite, and otherwise
    [max(xMin, estimate - 1.96/sqrt(I)), min(xMax, estimate + 1.96/sqrt(I))];
    either way it lies within [xMin, xMax] and contains the estimate. *)
Theorem C4_confidence_interval :
  forall (evaluations : list evaluation) (ALPHA BETA_PARAM : number)
         (xMin xMax estimate : R),
    evaluations <> [] ->
    xMin <= estimate <= xMax ->
    let lp := fun x => logPosterior (Fin x) evaluations ALPHA BETA_PARAM (Fin xMin) (Fin xMax) in
    let I := neg (div (add (sub (lp (estimate + / 10000)) (mul (Fin 2) (lp estimate)))
                           (lp (estimate - / 10000)))
                      (Fin (/ 10000 * / 10000))) in
    let ci := calculateBayesianConfidenceInterval (Fin estimate) evaluations
                ALPHA BETA_PARAM (Fin xMin) (Fin xMax) in
    (js_le I (Fin 0) || negb (isFinite I) = true -> ci = mkInterval (Fin xMin) (Fin xMax)) /\
    (forall i, I = Fin i -> 0 < i ->
       ci = mkInterval (Fin (Rmax xMin (estimate - 196 / 100 / sqrt i)))
                       (Fin (Rmin xMax (estimate + 196 / 100 / sqrt i)))) /\
    (exists lo hi, ci = mkInterval (Fin lo) (Fin hi) /\
                   xMin <= lo <= estimate /\ estimate <= hi <= xMax).
Proof.
  intros evaluations ALPHA BETA_PARAM xMin xMax estimate Hne Hin lp I ci.
  assert (Hci : ci = if js_le I (Fin 0) || negb (isFinite I)
                     then mkInterval (Fin xMin) (Fin xMax)
                     else mkInterval
                            (Math_max (Fin xMin)
                               (sub (Fin estimate) (mul zScore (div (Fin 1) (Math_sqrt I)))))
                            (Math_min (Fin xMax)
                               (add (Fin estimate) (mul zScore (div (Fin 1) (Math_sqrt I)))))).
  { subst ci I lp. unfold calculateBayesianConfidenceInterval.
    destruct evaluations; [congruence | reflexivity]. }
  assert (Hpos : forall i, I = Fin i -> 0 < i ->
            ci = mkInterval (Fin (Rmax xMin (estimate - 196 / 100 / sqrt i)))
                            (Fin (Rmin xMax (estimate + 196 / 100 / sqrt i)))).
  { intros i Hi Hipos. rewrite Hci, Hi. pose proof (sqrt_pos_lt i Hipos) as Hs.
    unfold js_le, js_lt, js_eq, Rltb, Reqb, zScore. cbn [isFinite Math_sqrt negb].
    destruct (Rlt_dec i 0), (Req_dec_T i 0); try lra. cbn [orb div].
    destruct (Req_dec_T (sqrt i) 0); [lra |]. cbn [mul sub add neg Math_max Math_min js_lt].
    unfold Rltb, Rmax, Rmin.
    replace (estimate + - (196 / 100 * (1 / sqrt i))) with (estimate - 196 / 100 / sqrt i)
      by (field; lra).
    replace (estimate + 196 / 100 * (1 / sqrt i)) with (estimate + 196 / 100 / sqrt i)
      by (field; lra).
    f_equal; f_equal.
    - destruct (Rlt_dec xMin _), (Rle_dec xMin _);
        try reflexivity; try lra; f_equal; lra.
    - destruct (Rlt_dec _ xMax), (Rle_dec xMax _);
        try reflexivity; try lra; f_equal; lra. }
  split; [| split].
  - intros Hfallback. now rewrite Hci, Hfallback.
  - exact Hpos.
  - destruct I as [i | | |] eqn:HI.
    + destruct (Rlt_dec 0 i) as [Hipos | Hneg].
      * rewrite (Hpos i eq_refl Hipos). do 2 eexists. split; [reflexivity |].
        pose proof (sqrt_pos_lt i Hipos) as Hs.
        assert (0 < 196 / 100 / sqrt i) by (apply Rdiv_lt_0_compat; lra).
        unfold Rmax, Rmin. destruct (Rle_dec xMin _), (Rle_dec xMax _); lra.
      * rewrite Hci. unfold js_le, js_lt, js_eq, Rltb, Reqb.
        destruct (Rlt_dec i 0), (Req_dec_T i 0); try lra; cbn [orb];
          exists xMin, xMax; (split; [reflexivity | lra]).
    + rewrite Hci. cbn. exists xMin, xMax. split; [reflexivity | lra].
    + rewrite Hci. cbn. exists xMin, xMax. split; [reflexivity | lra].
    + rewrite Hci. cbn. exists xMin, xMax. split; [reflexivity | lra].
Qed.

Lemma js_lt_not_eq (a b : number) : js_lt a b = true -> js_eq a b = false.
Proof.
  destruct a, b; cbn; try discriminate; try reflexivity.
  unfold Rltb, Reqb. destruct (Rlt_dec r r0), (Req_dec_T r r0);
    try discriminate; try lra; reflexivity.
Qed.

(** C10 (as amended): for a non-empty list and [xMin < xMax], whatever the
    arithmetic rounds to, [bestAbility] never equals [xMax], and the search
    takes its fallback only when no grid point has a finite log-posterior:
    as soon as one has, [bestAbility] is a grid point strictly between
    [xMin] and [xMax].  For evaluations with finite levels and maxima, with
    at least two grid intervals and over exact real arithmetic, some
    interior grid point has a finite log-posterior, so the fallback is not
    taken. *)
Theorem C10_fallback_unreachable :
  (forall (ops : AnyArithmetic.Arithmetic) (evaluations : list evaluation)
          (ALPHA BETA_PARAM xMin xMax : number) (gridPoints : nat),
      (forall a b, isFinite (AnyArithmetic.plus ops a b) = true ->
                   isFinite a = true /\ isFinite b = true) ->
      js_lt xMin xMax = true ->
      evaluations <> [] ->
      let best :=
        bestAbility (AnyArithmetic.estimateAbilityByGridSearchMAP ops evaluations
                       ALPHA BETA_PARAM xMin xMax gridPoints) in
      let post :=
        AnyArithmetic.posterior_at ops evaluations ALPHA BETA_PARAM xMin xMax gridPoints in
      js_eq best xMax = false /\
      ((exists i, (i <= gridPoints)%nat /\ isFinite (post i) = true) ->
       exists m, (m <= gridPoints)%nat /\ isFinite (post m) = true /\
                 best = AnyArithmetic.grid_point ops xMin xMax gridPoints m /\
                 js_lt xMin best = true /\ js_lt best xMax = true)) /\
  (forall (l : list (R * R)) (ALPHA BETA_PARAM xMin xMax : R) (gridPoints : nat),
      l <> [] -> xMin < xMax -> (2 <= gridPoints)%nat ->
      let post := posterior_at (evals l) (Fin ALPHA) (Fin BETA_PARAM) (Fin xMin) (Fin xMax)
                    gridPoints in
      let best := bestAbility (estimateAbilityByGridSearchMAP (evals l) (Fin ALPHA)
                                 (Fin BETA_PARAM) (Fin xMin) (Fin xMax) gridPoints) in
      (exists i, (0 < i < gridPoints)%nat /\ isFinite (post i) = true) /\
      (exists m x, (0 < m < gridPoints)%nat /\ isFinite (post m) = true /\
                   best = grid_point (Fin xMin) (Fin xMax) gridPoints m /\
                   best = Fin x /\ xMin < x < xMax)).
Proof.
  split.
  - intros ops evaluations ALPHA BETA_PARAM xMin xMax gridPoints Hplus Hlt Hne best post.
    pose proof (any_grid_search_spec ops evaluations ALPHA BETA_PARAM xMin xMax
                  gridPoints Hne) as Hspec.
    cbn zeta in Hspec. fold best post in Hspec. unfold valid in Hspec.
    destruct Hspec as [[Hnone Hbest] | (m & Hm & Hvm & Hbest & _)].
    + split; [rewrite Hbest; now apply js_lt_not_eq |].
      intros (i & Hi & Hvi). rewrite Hnone in Hvi by assumption. discriminate.
    + pose proof Hvm as Hin. apply Hplus in Hin as [_ Hin].
      apply any_logPrior_finite_inside in Hin as [Hlo Hhi].
      rewrite <- Hbest in Hlo, Hhi.
      split; [now apply js_lt_not_eq |].
      intros _. exists m. repeat split; assumption.
  - intros l ALPHA BETA_PARAM xMin xMax gridPoints Hne Hlt Hg post best.
    assert (Hone : isFinite (post 1%nat) = true).
    { subst post. rewrite posterior_at_inside; [reflexivity | lia |].
      apply Rgrid_inside; [assumption | lia]. }
    split; [exists 1%nat; split; [lia | exact Hone] |].
    assert (Hevs : evals l <> []) by (destruct l; [congruence | discriminate]).
    pose proof (grid_search_spec (evals l) (Fin ALPHA) (Fin BETA_PARAM) (Fin xMin) (Fin xMax)
                  gridPoints Hevs) as Hspec.
    cbn zeta in Hspec. fold best post in Hspec. unfold valid in Hspec.
    destruct Hspec as [[Hnone _] | (m & Hm & Hvm & Hbest & _)].
    + rewrite Hnone in Hone by lia. discriminate.
    + pose proof Hvm as Hin. apply valid_inside in Hin as (x & Hgrid & Hx).
      exists m, x. rewrite grid_point_fin in Hgrid by lia. injection Hgrid as Hgrid.
      repeat split; try assumption; try lra; try congruence.
      * destruct m; [| lia]. rewrite Rgrid_first in Hgrid. lra.
      * destruct (Nat.eq_dec m gridPoints) as [-> | Hneq]; [| lia].
        rewrite Rgrid_last in Hgrid by lia. lra.
      * rewrite Hbest, grid_point_fin by lia. now f_equal.
Qed.

(** ** Elementary bounds on [exp] and [ln] *)

Lemma exp_INR_mult (n : nat) (y : R) : exp (INR n * y) = exp y ^ n.
Proof.
  induction n as [| n IH].
  - cbn. rewrite Rmult_0_l. apply exp_0.
  - rewrite S_INR, Rmult_plus_distr_r, Rmult_1_l, exp_plus, IH. cbn. ring.
Qed.

(** [exp x >= (1 + x/n)^n], the bound the numeric estimates below rest on. *)
Lemma exp_ge_pow (n : nat) (d x : R) :
  d = INR n -> 0 < d -> 0 <= 1 + x / d -> (1 + x / d) ^ n <= exp x.
Proof.
  intros -> Hd Hpos.
  replace (exp x) with (exp (INR n * (x / INR n))) by (f_equal; field; lra).
  rewrite exp_INR_mult. apply pow_incr. split; [assumption | apply exp_ineq1_le].
Qed.

Lemma exp_le_inv (x : R) : x < 1 -> exp x <= / (1 - x).
Proof.
  intros Hx. pose proof (exp_ineq1_le (- x)) as H. pose proof (exp_pos x) as Hp.
  rewrite exp_Ropp in H.
  apply (Rmult_le_reg_r (1 - x)); [lra |]. rewrite Rinv_l by lra.
  apply (Rmult_le_compat_l (exp x)) in H; [| lra].
  rewrite Rinv_r in H by lra. lra.
Qed.

Lemma ln_le_minus_1 (t : R) : 0 < t -> ln t <= t - 1.
Proof.
  intros Ht. pose proof (exp_ineq1_le (ln t)) as H. rewrite exp_ln in H by assumption. lra.
Qed.

Lemma ln_diff_upper (x y : R) : 0 < x -> 0 < y -> ln y - ln x <= y / x - 1.
Proof.
  intros Hx Hy.
  replace (ln y - ln x) with (ln (y / x)).
  - apply ln_le_minus_1. apply Rdiv_lt_0_compat; assumption.
  - unfold Rdiv. rewrite ln_mult, ln_Rinv; auto using Rinv_0_lt_compat.
Qed.

Lemma ln_diff_lower (x y : R) : 0 < x -> 0 < y -> 1 - x / y <= ln y - ln x.
Proof. intros Hx Hy. pose proof (ln_diff_upper y x Hy Hx). lra. Qed.

Lemma ln_monotone (x y : R) : 0 < x -> x <= y -> ln x <= ln y.
Proof.
  intros Hx [Hlt | ->]; [| lra]. left. apply ln_increasing; assumption.
Qed.

(** The floored logarithm of the likelihood. *)
Lemma floored_ln_monotone (x y : R) :
  x <= y -> ln (Rmax x Repsilon) <= ln (Rmax y Repsilon).
Proof.
  intros Hxy. pose proof Repsilon_pos. apply ln_monotone.
  - unfold Rmax. destruct (Rle_dec x Repsilon); lra.
  - unfold Rmax. destruct (Rle_dec x Repsilon), (Rle_dec y Repsilon); lra.
Qed.

Lemma floored_ln_diff_lower (x y : R) :
  Repsilon <= x -> 0 < y ->
  1 - x / y <= ln (Rmax y Repsilon) - ln (Rmax x Repsilon).
Proof.
  intros Hx Hy. pose proof Repsilon_pos as He.
  replace (Rmax x Repsilon) with x by (unfold Rmax; destruct (Rle_dec x Repsilon); lra).
  assert (ln y <= ln (Rmax y Repsilon)).
  { apply ln_monotone; [assumption |]. unfold Rmax. destruct (Rle_dec y Repsilon); lra. }
  pose proof (ln_diff_lower x y ltac:(lra) Hy). lra.
Qed.

Lemma Rsigmoid_shift (x k : R) : Rsigmoid (x - k) = / (1 + exp (k - x)).
Proof. unfold Rsigmoid. do 3 f_equal. ring. Qed.

(** ** The two scenarios of the specification *)

Definition high_scores : list (R * R) := [(4, 4); (3, 4)].
Definition low_scores : list (R * R) := [(0, 4); (1, 4)].

Lemma le_div (c n d : R) : 0 < d -> c * d <= n -> c <= n / d.
Proof.
  intros Hd H. apply (Rmult_le_reg_r d); [assumption |].
  replace (n / d * d) with n by (field; lra). assumption.
Qed.

Lemma step_core (v w E b : R) :
  3 <= v -> 8 <= w -> 1 + / 125 <= E <= 125 / 124 -> 0 < b <= 1508 / 1000 ->
  0 < w * (E - 1) / (1 + w * E)
      + (E - 1) * (v * w * E - 1) / ((1 + v * E) * (1 + w * E))
      + (/ 125 / b - 4 * / 125 / (4 - b)).
Proof.
  intros Hv Hw [HE1 HE2] [Hb1 Hb2].
  assert (H1 : 85 / 100 * / 125 <= w * (E - 1) / (1 + w * E)).
  { apply le_div; nra. }
  assert (H2 : 6 / 10 * / 125 <= (E - 1) * (v * w * E - 1) / ((1 + v * E) * (1 + w * E))).
  { assert (Hvw : 0 <= (v - 3) * (w - 8)) by nra.
    assert (Hden : 0 < (1 + v * E) * (1 + w * E)) by nra.
    apply le_div; [assumption |].
    assert (Hnum : 6 / 10 * ((1 + v * E) * (1 + w * E)) <= v * w * E - 1) by nra.
    nra. }
  assert (H3 : - (95 / 100) * / 125 <= / 125 / b - 4 * / 125 / (4 - b)).
  { assert (Hb : 1000 / 1508 <= / b).
    { replace (1000 / 1508) with (/ (1508 / 1000)) by field.
      apply Rinv_le_contravar; lra. }
    assert (Hc : / (4 - b) <= 1000 / 2492).
    { replace (1000 / 2492) with (/ (2492 / 1000)) by field.
      apply Rinv_le_contravar; lra. }
    unfold Rdiv. lra. }
  lra.
Qed.

Lemma high_posterior_unfold (x : R) :
  Rlogposterior high_scores 5 0 4 x
  = ln (Rmax (/ (1 + exp (4 - x))) Repsilon)
    + ln (Rmax (/ (1 + exp (3 - x)) - / (1 + exp (4 - x))) Repsilon)
    + (ln 6 + ln x - ln 4 + 4 * (ln (4 - x) - ln 4)).
Proof.
  unfold Rlogposterior, Rloglik, Rloglik_from, high_scores, Rlogprior, Rlikelihood.
  cbn [fold_left fst snd].
  destruct (Req_dec_T 4 4) as [_ | Hne]; [| lra].
  destruct (Req_dec_T 3 4) as [Heq | _]; [lra |].
  replace (3 + 1) with 4 by ring. rewrite !Rsigmoid_shift.
  replace (x - 0) with x by ring. replace (4 - 0) with 4 by ring.
  replace (5 - 1) with 4 by ring. ring.
Qed.

Lemma exp_1_le_3 : exp 1 <= 3.
Proof. exact exp_le_3. Qed.

Lemma exp_le_pow3 (n : nat) (x : R) : x <= INR n -> exp x <= 3 ^ n.
Proof.
  intros Hx. apply Rle_trans with (exp (INR n)).
  - destruct Hx as [Hlt | ->]; [left; now apply exp_increasing | lra].
  - replace (INR n) with (INR n * 1) by ring. rewrite exp_INR_mult.
    apply pow_incr. split; [left; apply exp_pos | apply exp_le_3].
Qed.

Lemma exp_ge_1 (x : R) : 0 <= x -> 1 <= exp x.
Proof. intros Hx. pose proof (exp_ineq1_le x). lra. Qed.

(** Around 1.5 and below, the posterior of the high scores still climbs
    from one grid point to the next. *)
Lemma high_scores_step (a : R) :
  0 < a <= 3 / 2 ->
  Rlogposterior high_scores 5 0 4 a < Rlogposterior high_scores 5 0 4 (a + / 125).
Proof.
  intros [Ha1 Ha2]. rewrite !high_posterior_unfold.
  set (b := a + / 125).
  assert (Hb : 0 < b <= 1508 / 1000) by (subst b; lra).
  set (E := exp (/ 125)). set (v := exp (3 - b)). set (w := exp (4 - b)).
  assert (HvE : exp (3 - a) = v * E).
  { subst v E. rewrite <- exp_plus. f_equal. subst b. ring. }
  assert (HwE : exp (4 - a) = w * E).
  { subst w E. rewrite <- exp_plus. f_equal. subst b. ring. }
  assert (Hwv : w = exp 1 * v).
  { subst w v. rewrite <- exp_plus. f_equal. ring. }
  assert (HE : 1 + / 125 <= E <= 125 / 124).
  { subst E. split; [apply exp_ineq1_le |].
    replace (125 / 124) with (/ (1 - / 125)) by field. apply exp_le_inv. lra. }
  assert (Hv : 3 <= v).
  { pose proof (exp_ge_pow 2 2 (3 - b) ltac:(cbn; lra) ltac:(lra) ltac:(lra)) as H.
    fold v in H. nra. }
  assert (Hw : 8 <= w).
  { pose proof (exp_ge_pow 8 8 (4 - b) ltac:(cbn; lra) ltac:(lra) ltac:(lra)) as H.
    fold w in H.
    assert (Hbase : 0 <= 1 + (2492 / 1000) / 8 <= 1 + (4 - b) / 8) by lra.
    pose proof (pow_incr _ _ 8 Hbase) as Hpow.
    assert (8 <= (1 + 2492 / 1000 / 8) ^ 8) by lra. lra. }
  assert (He2 : 2 <= exp 1) by (pose proof (exp_ineq1_le 1); lra).
  assert (HvE27 : v * E <= 27).
  { rewrite <- HvE. pose proof (exp_le_pow3 3 (3 - a) ltac:(cbn; lra)). lra. }
  assert (HwE81 : w * E <= 81).
  { rewrite <- HwE. pose proof (exp_le_pow3 4 (4 - a) ltac:(cbn; lra)). lra. }
  rewrite HvE, HwE.
  assert (HE0 : 0 < E) by lra.
  assert (Hv0 : 0 < v) by lra.
  assert (Hw0 : 0 < w) by lra.
  assert (HvE0 : 0 < v * E) by nra.
  assert (HwE0 : 0 < w * E) by nra.
  assert (Hgap : 0 < w - v) by nra.
  (* the likelihoods at [a] stay clear of the floor *)
  assert (Hfloor1 : Repsilon <= / (1 + w * E)).
  { unfold Repsilon. apply Rinv_le_contravar; lra. }
  assert (HG3a : / (1 + v * E) - / (1 + w * E)
                 = (w - v) * E / ((1 + v * E) * (1 + w * E))) by (field; lra).
  assert (HG3b : / (1 + v) - / (1 + w) = (w - v) / ((1 + v) * (1 + w))) by (field; lra).
  assert (Hfloor2 : Repsilon <= / (1 + v * E) - / (1 + w * E)).
  { rewrite HG3a. apply le_div; [nra |].
    assert (Repsilon <= / (28 * 82)) by (unfold Repsilon; apply Rinv_le_contravar; lra).
    assert (Hprod : (1 + v * E) * (1 + w * E) <= 28 * 82) by nra.
    assert (3 <= (w - v) * E) by nra.
    assert (Hinv : / (28 * 82) * ((1 + v * E) * (1 + w * E)) <= 1).
    { apply (Rmult_le_reg_l (28 * 82)); [lra |]. rewrite <- Rmult_assoc, Rinv_r by lra. lra. }
    pose proof Repsilon_pos. nra. }
  assert (HG3b_pos : 0 < / (1 + v) - / (1 + w)).
  { rewrite HG3b. apply Rdiv_lt_0_compat; nra. }
  pose proof (floored_ln_diff_lower _ (/ (1 + w)) Hfloor1
                ltac:(apply Rinv_0_lt_compat; lra)) as H1.
  pose proof (floored_ln_diff_lower _ _ Hfloor2 HG3b_pos) as H2.
  pose proof (ln_diff_lower a b Ha1 ltac:(lra)) as H3.
  pose proof (ln_diff_lower (4 - a) (4 - b) ltac:(lra) ltac:(lra)) as H4.
  pose proof (step_core v w E b Hv Hw HE Hb) as Hcore.
  replace (1 - / (1 + w * E) / / (1 + w)) with (w * (E - 1) / (1 + w * E)) in H1
    by (field; lra).
  replace (1 - (/ (1 + v * E) - / (1 + w * E)) / (/ (1 + v) - / (1 + w)))
    with ((E - 1) * (v * w * E - 1) / ((1 + v * E) * (1 + w * E))) in H2
    by (field; repeat split; lra).
  replace (1 - a / b) with (/ 125 / b) in H3 by (subst b; field; lra).
  replace (1 - (4 - a) / (4 - b)) with (- / 125 / (4 - b)) in H4 by (subst b; field; lra).
  unfold Rdiv in *. lra.
Qed.

(** The mass of one level, [sigmoid z - sigmoid (z - 1)], falls once [z] is
    past its peak at one half. *)
Lemma level_mass_decreasing (z1 z2 : R) :
  / 2 <= z1 -> z1 <= z2 ->
  Rsigmoid z2 - Rsigmoid (z2 - 1) <= Rsigmoid z1 - Rsigmoid (z1 - 1).
Proof.
  intros Hz1 Hz12.
  replace z1 with (z1 - 0) at 1 by ring. replace z2 with (z2 - 0) at 1 by ring.
  rewrite !Rsigmoid_shift.
  set (e := exp 1). set (u1 := exp (- z1)). set (u2 := exp (- z2)).
  replace (exp (0 - z1)) with u1 by (subst u1; f_equal; ring).
  replace (exp (0 - z2)) with u2 by (subst u2; f_equal; ring).
  replace (exp (1 - z1)) with (e * u1) by (subst e u1; rewrite <- exp_plus; f_equal; ring).
  replace (exp (1 - z2)) with (e * u2) by (subst e u2; rewrite <- exp_plus; f_equal; ring).
  assert (He : 2 <= e) by (subst e; pose proof (exp_ineq1_le 1); lra).
  assert (Hu1 : 0 < u1) by apply exp_pos.
  assert (Hu2 : 0 < u2) by apply exp_pos.
  assert (Hu21 : u2 <= u1).
  { subst u1 u2. destruct Hz12 as [Hlt | ->]; [left; apply exp_increasing; lra | lra]. }
  assert (Hprod : e * u1 * u2 <= 1).
  { replace (e * u1 * u2) with (exp (1 - z1 - z2))
      by (subst e u1 u2; rewrite <- !exp_plus; f_equal; ring).
    destruct (Req_dec_T (1 - z1 - z2) 0) as [Heq | Hne].
    - rewrite Heq, exp_0. lra.
    - pose proof (exp_increasing (1 - z1 - z2) 0 ltac:(lra)) as Hlt.
      rewrite exp_0 in Hlt. lra. }
  assert (Hdiff : (/ (1 + u1) - / (1 + e * u1)) - (/ (1 + u2) - / (1 + e * u2))
                  = (e - 1) * (u1 - u2) * (1 - e * u1 * u2)
                    / ((1 + u1) * (1 + e * u1) * (1 + u2) * (1 + e * u2))).
  { field. repeat split; nra. }
  assert (0 <= (e - 1) * (u1 - u2) * (1 - e * u1 * u2)
               / ((1 + u1) * (1 + e * u1) * (1 + u2) * (1 + e * u2))).
  { apply Rmult_le_pos.
    - repeat apply Rmult_le_pos; lra.
    - left. apply Rinv_0_lt_compat. repeat apply Rmult_lt_0_compat; nra. }
  lra.
Qed.

Lemma low_posterior_unfold (x : R) :
  Rlogposterior low_scores 5 0 4 x
  = ln (Rmax (Rsigmoid x - Rsigmoid (x - 1)) Repsilon)
    + ln (Rmax (Rsigmoid (x - 1) - Rsigmoid (x - 1 - 1)) Repsilon)
    + (ln 6 + ln x - ln 4 + 4 * (ln (4 - x) - ln 4)).
Proof.
  unfold Rlogposterior, Rloglik, Rloglik_from, low_scores, Rlogprior, Rlikelihood.
  cbn [fold_left fst snd].
  destruct (Req_dec_T 0 4) as [Heq | _]; [lra |].
  destruct (Req_dec_T 1 4) as [Heq | _]; [lra |].
  replace (x - (0 + 1)) with (x - 1) by ring.
  replace (x - (1 + 1)) with (x - 1 - 1) by ring.
  replace (x - 0) with x by ring. replace (4 - 0) with 4 by ring.
  replace (5 - 1) with 4 by ring. ring.
Qed.

(** From 1.5 on, the posterior of the low scores only falls. *)
Lemma low_scores_decreasing (a b : R) :
  3 / 2 <= a -> a < b -> b < 4 ->
  Rlogposterior low_scores 5 0 4 b < Rlogposterior low_scores 5 0 4 a.
Proof.
  intros Ha Hab Hb. rewrite !low_posterior_unfold.
  pose proof (floored_ln_monotone _ _ (level_mass_decreasing a b ltac:(lra) ltac:(lra))) as H1.
  pose proof (floored_ln_monotone _ _
                (level_mass_decreasing (a - 1) (b - 1) ltac:(lra) ltac:(lra))) as H2.
  pose proof (ln_diff_upper a b ltac:(lra) ltac:(lra)) as H3.
  pose proof (ln_diff_upper (4 - a) (4 - b) ltac:(lra) ltac:(lra)) as H4.
  assert (Hprior : b / a - 1 + 4 * ((4 - b) / (4 - a) - 1) < 0).
  { replace (b / a - 1 + 4 * ((4 - b) / (4 - a) - 1))
      with (- ((b - a) * (5 * a - 4) / (a * (4 - a)))) by (field; lra).
    assert (0 < (b - a) * (5 * a - 4) / (a * (4 - a))); [| lra].
    apply Rdiv_lt_0_compat; nra. }
  lra.
Qed.

(** ** The search on finite inputs *)

Lemma grid_point_zero_intervals (xMin xMax : R) :
  grid_point (Fin xMin) (Fin xMax) 0 0 = NaN.
Proof.
  unfold grid_point. cbn [INR div]. destruct (Req_dec_T 0 0) as [_ | Hne]; [| lra].
  unfold signed_inf. destruct (Rlt_dec 0 0); [lra |]. reflexivity.
Qed.

(** For finite evaluations the search returns [xMin] when the grid has no
    interior point, and otherwise the first interior grid point among those
    of the largest log-posterior. *)
Lemma finite_search_spec (l : list (R * R)) (ALPHA BETA_PARAM xMin xMax : R)
    (gridPoints : nat) :
  l <> [] ->
  let best := bestAbility (estimateAbilityByGridSearchMAP (evals l) (Fin ALPHA)
                             (Fin BETA_PARAM) (Fin xMin) (Fin xMax) gridPoints) in
  let F := Rlogposterior l BETA_PARAM xMin xMax in
  let x := Rgrid xMin xMax gridPoints in
  ((~ xMin < xMax \/ (gridPoints < 2)%nat) /\ best = Fin xMin)
  \/
  (xMin < xMax /\ (2 <= gridPoints)%nat /\
   exists m, (0 < m < gridPoints)%nat /\ best = Fin (x m) /\
             (forall j, (0 < j < gridPoints)%nat -> F (x j) <= F (x m)) /\
             (forall j, (0 < j < m)%nat -> F (x j) < F (x m))).
Proof.
  intros Hne best F x.
  assert (Hevs : evals l <> []) by (destruct l; [congruence | discriminate]).
  pose proof (grid_search_spec (evals l) (Fin ALPHA) (Fin BETA_PARAM) (Fin xMin) (Fin xMax)
                gridPoints Hevs) as Hspec.
  cbn zeta in Hspec. fold best in Hspec.
  set (post := posterior_at (evals l) (Fin ALPHA) (Fin BETA_PARAM) (Fin xMin) (Fin xMax)
                 gridPoints) in *.
  assert (Hinside : forall j, xMin < xMax -> (0 < j < gridPoints)%nat ->
                              post j = Fin (F (x j))).
  { intros j Hlt Hj. subst post. apply posterior_at_inside; [lia |].
    apply Rgrid_inside; assumption. }
  destruct Hspec as [[Hnone Hbest] | (m & Hm & Hvm & Hbest & Hmax & Hfirst)].
  - left. split; [| exact Hbest].
    destruct (Rlt_dec xMin xMax) as [Hlt | Hge]; [| left; exact Hge].
    destruct (Nat.lt_ge_cases gridPoints 2) as [Hsmall | Hbig]; [right; exact Hsmall |].
    specialize (Hnone 1%nat ltac:(lia)). unfold valid in Hnone.
    rewrite Hinside in Hnone by (assumption || lia). discriminate.
  - right. pose proof Hvm as Hin. apply valid_inside in Hin as (y & Hgrid & Hy).
    assert (Hlt : xMin < xMax) by lra.
    assert (Hg : (0 < gridPoints)%nat).
    { destruct gridPoints; [| lia]. replace m with 0%nat in Hgrid by lia.
      rewrite grid_point_zero_intervals in Hgrid. discriminate. }
    rewrite grid_point_fin in Hgrid, Hbest by assumption. injection Hgrid as Hgrid.
    fold x in Hgrid, Hbest.
    assert (Hm0 : (0 < m)%nat).
    { destruct m; [| lia]. subst x. rewrite Rgrid_first in Hgrid. lra. }
    assert (Hmg : (m < gridPoints)%nat).
    { destruct (Nat.eq_dec m gridPoints) as [-> | Hneq]; [| lia].
      subst x. rewrite Rgrid_last in Hgrid by assumption. lra. }
    split; [assumption |]. split; [lia |].
    exists m. split; [lia |]. split; [assumption |].
    assert (Hpost : forall j, (0 < j < gridPoints)%nat ->
                              valid post j = true /\ real_of (post j) = F (x j)).
    { intros j Hj. unfold valid. rewrite Hinside by assumption. split; reflexivity. }
    destruct (Hpost m ltac:(lia)) as [_ Hrm]. split.
    + intros j Hj. destruct (Hpost j Hj) as [Hvj Hrj].
      rewrite <- Hrj, <- Hrm. apply Hmax; [lia | assumption].
    + intros j Hj. destruct (Hpost j ltac:(lia)) as [Hvj Hrj].
      rewrite <- Hrj, <- Hrm. apply Hfirst; [lia | assumption].
Qed.

Lemma Rgrid_0_4_500 (i : nat) : Rgrid 0 4 500 i = INR i / 125.
Proof.
  unfold Rgrid. replace (INR 500) with 500 by (rewrite INR_IZR_INZ; reflexivity). field.
Qed.

(** C9: on the domain [0, 4] with the Beta(2, 5)-shaped prior and 500 grid
    intervals, the two evaluations (4 of 4) and (3 of 4) give an estimate
    above 1.5, and the two evaluations (0 of 4) and (1 of 4) give an estimate
    below 2. *)
Theorem C9_example_scenarios :
  (exists x,
      bestAbility (estimateAbilityByGridSearchMAP (evals high_scores) (Fin 2) (Fin 5)
                     (Fin 0) (Fin 4) 500) = Fin x
      /\ 3 / 2 < x)
  /\
  (exists y,
      bestAbility (estimateAbilityByGridSearchMAP (evals low_scores) (Fin 2) (Fin 5)
                     (Fin 0) (Fin 4) 500) = Fin y
      /\ y < 2).
Proof.
  split.
  - destruct (finite_search_spec high_scores 2 5 0 4 500 ltac:(discriminate))
      as [[[Hlt | Hg] _] | (_ & _ & m & Hm & Hbest & Hmax & _)]; [lra | lia |].
    eexists. split; [exact Hbest |]. rewrite Rgrid_0_4_500 in *.
    destruct (Nat.lt_ge_cases m 188) as [Hlow | Hhigh].
    + exfalso. specialize (Hmax (S m) ltac:(lia)). rewrite !Rgrid_0_4_500 in Hmax.
      assert (HSm : INR (S m) / 125 = INR m / 125 + / 125) by (rewrite S_INR; field).
      rewrite HSm in Hmax.
      assert (0 < INR m) by (apply lt_0_INR; lia).
      assert (INR m <= 187).
      { replace 187 with (INR 187) by (rewrite INR_IZR_INZ; reflexivity). apply le_INR. lia. }
      pose proof (high_scores_step (INR m / 125) ltac:(lra)). lra.
    + assert (188 <= INR m).
      { replace 188 with (INR 188) by (rewrite INR_IZR_INZ; reflexivity). apply le_INR. lia. }
      lra.
  - destruct (finite_search_spec low_scores 2 5 0 4 500 ltac:(discriminate))
      as [[[Hlt | Hg] _] | (_ & _ & m & Hm & Hbest & Hmax & _)]; [lra | lia |].
    eexists. split; [exact Hbest |]. rewrite Rgrid_0_4_500 in *.
    destruct (Nat.lt_ge_cases m 250) as [Hlow | Hhigh].
    + assert (INR m <= 249).
      { replace 249 with (INR 249) by (rewrite INR_IZR_INZ; reflexivity). apply le_INR. lia. }
      lra.
    + exfalso. specialize (Hmax 249%nat ltac:(lia)). rewrite !Rgrid_0_4_500 in Hmax.
      replace (INR 249) with 249 in Hmax by (rewrite INR_IZR_INZ; reflexivity).
      assert (250 <= INR m).
      { replace 250 with (INR 250) by (rewrite INR_IZR_INZ; reflexivity). apply le_INR. lia. }
      assert (INR m < 500).
      { replace 500 with (INR 500) by (rewrite INR_IZR_INZ; reflexivity). apply lt_INR. lia. }
      pose proof (low_scores_decreasing (249 / 125) (INR m / 125) ltac:(lra) ltac:(lra)
                    ltac:(lra)). lra.
Qed.

(** ** Raising one level *)

(** The floored log-likelihood of one evaluation. *)
Definition Rterm (x : R) (p : R * R) : R :=
  ln (Rmax (Rlikelihood x (fst p) (snd p)) Repsilon).

Lemma Rloglik_from_acc (x : R) (l : list (R * R)) :
  forall acc, Rloglik_from acc x l = acc + Rloglik_from 0 x l.
Proof.
  unfold Rloglik_from. induction l as [| p l IH]; intros acc; cbn [fold_left]; [ring |].
  rewrite IH, (IH (0 + _)). ring.
Qed.

Lemma Rloglik_from_app (x : R) (l1 l2 : list (R * R)) (acc : R) :
  Rloglik_from acc x (l1 ++ l2) = Rloglik_from (Rloglik_from acc x l1) x l2.
Proof. unfold Rloglik_from. apply fold_left_app. Qed.

Lemma Rloglik_from_cons (x : R) (p : R * R) (l : list (R * R)) (acc : R) :
  Rloglik_from acc x (p :: l) = Rloglik_from (acc + Rterm x p) x l.
Proof. reflexivity. Qed.

Lemma Rloglik_insert (x : R) (pre suf : list (R * R)) (p : R * R) :
  Rloglik x (pre ++ p :: suf) = Rloglik x (pre ++ suf) + Rterm x p.
Proof.
  unfold Rloglik. rewrite !Rloglik_from_app, Rloglik_from_cons.
  rewrite Rloglik_from_acc, (Rloglik_from_acc x suf (Rloglik_from 0 x pre)). ring.
Qed.














(** ** Levels and abilities of the usual range stay clear of the floor *)

Lemma exp_ge_inv_pow3 (n : nat) (x : R) : - INR n <= x -> / 3 ^ n <= exp x.
Proof.
  intros Hx. pose proof (exp_le_pow3 n (- x) ltac:(lra)) as H.
  rewrite exp_Ropp in H. pose proof (exp_pos x) as Hp.
  assert (H3 : 0 < 3 ^ n) by (apply pow_lt; lra).
  apply (Rmult_le_reg_r (3 ^ n)); [assumption |]. rewrite Rinv_l by lra.
  apply (Rmult_le_compat_l (exp x)) in H; [| lra]. rewrite Rinv_r in H by lra. lra.
Qed.

Lemma likelihood_clear_of_floor (x k n : R) :
  - 4 <= x - k <= 5 -> Repsilon <= Rlikelihood x k n.
Proof.
  intros [Hlo Hhi]. unfold Rlikelihood. rewrite !Rsigmoid_shift.
  pose proof (exp_le_pow3 4 (k - x) ltac:(cbn; lra)) as Hu81.
  pose proof (exp_ge_inv_pow3 5 (k - x) ltac:(cbn; lra)) as Hu243.
  pose proof (exp_pos (k - x)) as Hu.
  destruct (Req_dec_T k n) as [_ | _].
  - unfold Repsilon. apply Rinv_le_contravar; lra.
  - replace (exp (k + 1 - x)) with (exp 1 * exp (k - x)) by (rewrite <- exp_plus; f_equal; ring).
    set (u := exp (k - x)) in *. set (e := exp 1).
    assert (He : 2 <= e <= 3) by (subst e; split; [pose proof (exp_ineq1_le 1); lra | apply exp_le_3]).
    assert (Heu : 0 < e * u) by (apply Rmult_lt_0_compat; lra).
    replace (/ (1 + u) - / (1 + e * u)) with ((e - 1) * u / ((1 + u) * (1 + e * u)))
      by (field; lra).
    apply le_div; [apply Rmult_lt_0_compat; lra |].
    assert (Hnum : / 243 <= (e - 1) * u) by nra.
    assert (Hden : (1 + u) * (1 + e * u) <= 82 * 244) by nra.
    assert (Heps : Repsilon <= / 243 / (82 * 244)).
    { unfold Repsilon. replace (/ 243 / (82 * 244)) with (/ (243 * (82 * 244))) by field.
      apply Rinv_le_contravar; lra. }
    pose proof Repsilon_pos.
    apply Rle_trans with (/ 243 / (82 * 244) * ((1 + u) * (1 + e * u))).
    + apply Rmult_le_compat_r; [nra | assumption].
    + apply Rle_trans with (/ 243 / (82 * 244) * (82 * 244)).
      * apply Rmult_le_compat_l; [| assumption]. apply Rlt_le, Rdiv_lt_0_compat; lra.
      * replace (/ 243 / (82 * 244) * (82 * 244)) with (/ 243) by field. assumption.
Qed.

(** ** The posterior as a product, for comparing two grid points *)






Lemma Rmax_clear (x k n : R) :
  - 4 <= x - k <= 5 -> Rmax (Rlikelihood x k n) Repsilon = Rlikelihood x k n.
Proof.
  intros H. apply likelihood_clear_of_floor with (n := n) in H.
  unfold Rmax. destruct (Rle_dec _ _); lra.
Qed.

(** ** A level above its predicted maximum *)













(** ** The information at the middle of the domain *)

Lemma exp_sum_ge_2 (d : R) : 2 <= exp d + exp (- d).
Proof.
  rewrite exp_Ropp. pose proof (exp_pos d) as Hp.
  assert (Hi : 0 < / exp d) by (apply Rinv_0_lt_compat; lra).
  assert (Hsq : 0 <= / exp d * ((exp d - 1) * (exp d - 1)))
    by (apply Rmult_le_pos; [lra | apply Rle_0_sqr]).
  replace (/ exp d * ((exp d - 1) * (exp d - 1))) with (exp d + / exp d - 2) in Hsq
    by (field; lra).
  lra.
Qed.

(** The logarithm of the sigmoid is concave: its second difference is not
    positive. *)
Lemma Rsigmoid_product_le (a d : R) :
  Rsigmoid (a + d) * Rsigmoid (a - d) <= Rsigmoid a * Rsigmoid a.
Proof.
  unfold Rsigmoid.
  replace (- (a + d)) with (- a + - d) by ring.
  replace (- (a - d)) with (- a + d) by ring.
  rewrite !exp_plus.
  pose proof (exp_pos (- a)) as Hu. pose proof (exp_pos d) as Hp.
  pose proof (exp_pos (- d)) as Hq. pose proof (exp_sum_ge_2 d) as Hsum.
  assert (Hpq : exp d * exp (- d) = 1) by (rewrite <- exp_plus, Rplus_opp_r; apply exp_0).
  set (u := exp (- a)) in *. set (p := exp d) in *. set (q := exp (- d)) in *.
  rewrite <- !Rinv_mult.
  apply Rinv_le_contravar; [nra |].
  assert (Hupq : 0 <= u * (p + q - 2)) by (apply Rmult_le_pos; lra).
  nra.
Qed.

Lemma ln_Rsigmoid_second_difference (a d : R) :
  ln (Rsigmoid (a + d)) + ln (Rsigmoid (a - d)) - 2 * ln (Rsigmoid a) <= 0.
Proof.
  pose proof (Rsigmoid_pos (a + d)) as H1. pose proof (Rsigmoid_pos (a - d)) as H2.
  pose proof (Rsigmoid_pos a) as H3.
  rewrite <- ln_mult by assumption.
  replace (2 * ln (Rsigmoid a)) with (ln (Rsigmoid a * Rsigmoid a))
    by (rewrite ln_mult by assumption; ring).
  pose proof (ln_monotone (Rsigmoid (a + d) * Rsigmoid (a - d)) (Rsigmoid a * Rsigmoid a)
                ltac:(nra) (Rsigmoid_product_le a d)).
  lra.
Qed.

(** The second difference of the logarithm. *)
Lemma ln_second_difference (x d : R) :
  0 < d < x -> ln (x + d) + ln (x - d) - 2 * ln x <= - (d * d) / (x * x).
Proof.
  intros Hd.
  rewrite <- ln_mult by lra.
  replace (2 * ln x) with (ln (x * x)) by (rewrite ln_mult by lra; ring).
  pose proof (ln_diff_upper (x * x) ((x + d) * (x - d)) ltac:(nra) ltac:(nra)) as H.
  replace ((x + d) * (x - d) / (x * x) - 1) with (- (d * d) / (x * x)) in H by (field; lra).
  exact H.
Qed.

(** One full mark (level 4 of 4), an estimate of 2 on [0, 4]: the negated
    second difference of the log-posterior with step [1/10000] is finite and
    at least [5/4]. *)
Lemma information_at_the_middle :
  exists i,
    neg (div (add (sub (logPosterior (Fin (2 + / 10000)) (evals [(4, 4)])
                          (Fin 2) (Fin 5) (Fin 0) (Fin 4))
                       (mul (Fin 2)
                            (logPosterior (Fin 2) (evals [(4, 4)])
                               (Fin 2) (Fin 5) (Fin 0) (Fin 4))))
                  (logPosterior (Fin (2 - / 10000)) (evals [(4, 4)])
                     (Fin 2) (Fin 5) (Fin 0) (Fin 4)))
             (Fin (/ 10000 * / 10000)))
    = Fin i
    /\ 5 / 4 <= i.
Proof.
  unfold logPosterior.
  rewrite !logLikelihood_fin, !logPrior_fin by lra.
  cbn [sub neg add mul div].
  destruct (Req_dec_T (/ 10000 * / 10000) 0) as [H0 | _]; [lra |].
  eexists. split; [reflexivity |].
  unfold Rloglik, Rloglik_from. cbn [fold_left fst snd].
  rewrite !Rmax_clear by lra.
  unfold Rlikelihood. destruct (Req_dec_T 4 4) as [_ | Hne]; [| lra].
  unfold Rlogprior.
  replace (2 + / 10000 - 4) with (- 2 + / 10000) by ring.
  replace (2 - / 10000 - 4) with (- 2 - / 10000) by ring.
  replace (2 - 4) with (- 2) by ring.
  pose proof (ln_Rsigmoid_second_difference (- 2) (/ 10000)) as HL.
  pose proof (ln_second_difference 2 (/ 10000) ltac:(lra)) as HP.
  replace (2 + / 10000 - 0) with (2 + / 10000) by ring.
  replace (2 - / 10000 - 0) with (2 - / 10000) by ring.
  replace (2 - 0) with 2 by ring.
  replace (4 - (2 + / 10000)) with (2 - / 10000) by ring.
  replace (4 - (2 - / 10000)) with (2 + / 10000) by ring.
  replace (4 - 2) with 2 by ring.
  set (A := ln (Rsigmoid (- 2 + / 10000))) in *.
  set (B := ln (Rsigmoid (- 2 - / 10000))) in *.
  set (C := ln (Rsigmoid (- 2))) in *.
  set (P := ln (2 + / 10000)) in *. set (Q := ln (2 - / 10000)) in *.
  set (S := ln 2) in *. set (L6 := ln 6). set (L4 := ln (4 - 0)).
  apply (Rmult_le_reg_r (/ 10000 * / 10000)); [lra |].
  field_simplify. lra.
Qed.

End EstimatorFacts.

(** ** Concrete instances for the estimator *)

Section EstimatorRuns.

Import AbilityEstimator.
Local Open Scope R_scope.

(** C2, counterexample: a Beta(1/2, 5) prior on [0, 4] and no evaluation;
    the closed-form mode is [-4/7], below [xMin]. *)
Lemma C2_counterexample_mode_outside :
  bestAbility (estimateAbilityByGridSearchMAP [] (Fin (1 / 2)) (Fin 5) (Fin 0) (Fin 4) 500)
  = Fin (- (4 / 7)) /\ - (4 / 7) < 0.
Proof.
  split; [| lra]. cbn.
  destruct (Req_dec_T (1 / 2 + 5 + - (2)) 0); [lra |]. f_equal. field.
Qed.

(** Two evaluations, one below its maximum and one at it. *)
Definition two_evaluations : list (R * R) := [(1, 4); (3, 3)].

Lemma second_grid_point_inside : 0 < Rgrid 0 4 500 1 < 4.
Proof. apply Rgrid_inside; [lra | lia]. Qed.

Lemma zero_lt_four : js_lt (Fin 0) (Fin 4) = true.
Proof. cbn. unfold Rltb. destruct (Rlt_dec 0 4); [reflexivity | lra]. Qed.

Lemma two_evaluations_nonempty : evals two_evaluations <> [].
Proof. discriminate. Qed.

Lemma C2_witness :
  (js_le (Fin 0)
     (bestAbility (estimateAbilityByGridSearchMAP (evals two_evaluations) (Fin 2) (Fin 5)
                     (Fin 0) (Fin 4) 500)) = true
   /\ js_le (bestAbility (estimateAbilityByGridSearchMAP (evals two_evaluations) (Fin 2)
                            (Fin 5) (Fin 0) (Fin 4) 500))
            (Fin 4) = true)
  /\ exists m,
       (m <= 500)%nat
       /\ isFinite (posterior_at (evals two_evaluations) (Fin 2) (Fin 5) (Fin 0) (Fin 4) 500 m)
          = true
       /\ bestAbility (estimateAbilityByGridSearchMAP (evals two_evaluations) (Fin 2) (Fin 5)
                         (Fin 0) (Fin 4) 500)
          = grid_point (Fin 0) (Fin 4) 500 m
       /\ js_lt (Fin 0)
            (bestAbility (estimateAbilityByGridSearchMAP (evals two_evaluations) (Fin 2)
                            (Fin 5) (Fin 0) (Fin 4) 500)) = true
       /\ js_lt (bestAbility (estimateAbilityByGridSearchMAP (evals two_evaluations) (Fin 2)
                                (Fin 5) (Fin 0) (Fin 4) 500))
                (Fin 4) = true
       /\ (forall j, (j <= 500)%nat ->
              isFinite (posterior_at (evals two_evaluations) (Fin 2) (Fin 5) (Fin 0) (Fin 4)
                          500 j) = true ->
              real_of (posterior_at (evals two_evaluations) (Fin 2) (Fin 5) (Fin 0) (Fin 4)
                         500 j)
              <= real_of (posterior_at (evals two_evaluations) (Fin 2) (Fin 5) (Fin 0) (Fin 4)
                            500 m))
       /\ (forall j, (j < m)%nat ->
              isFinite (posterior_at (evals two_evaluations) (Fin 2) (Fin 5) (Fin 0) (Fin 4)
                          500 j) = true ->
              real_of (posterior_at (evals two_evaluations) (Fin 2) (Fin 5) (Fin 0) (Fin 4)
                         500 j)
              < real_of (posterior_at (evals two_evaluations) (Fin 2) (Fin 5) (Fin 0) (Fin 4)
                           500 m)).
Proof.
  pose proof (proj1 C2_bestAbility_in_domain AnyArithmetic.exact (evals two_evaluations)
                (Fin 2) (Fin 5) (Fin 0) (Fin 4) 500%nat add_finite zero_lt_four
                two_evaluations_nonempty) as H.
  cbn zeta in H.
  destruct (exact_functions (evals two_evaluations) (Fin 2) (Fin 5) (Fin 0) (Fin 4) 500)
    as (Hest & Hpost & Hpoint).
  rewrite Hest, Hpost, Hpoint in H.
  destruct H as [Hin [[Hnone _] | Hm]].
  - exfalso. specialize (Hnone 1%nat ltac:(lia)).
    rewrite posterior_at_inside in Hnone by (try lia; apply second_grid_point_inside).
    discriminate Hnone.
  - split; [exact Hin | exact Hm].
Defined.

Lemma margin_below_2 (i : R) : 5 / 4 <= i -> 0 < 196 / 100 / sqrt i < 2.
Proof.
  intros Hi.
  assert (Hs : 98 / 100 < sqrt i).
  { rewrite <- (sqrt_square (98 / 100)) by lra. apply sqrt_lt_1_alt. lra. }
  split; [apply Rdiv_lt_0_compat; lra |].
  apply (Rmult_lt_reg_r (sqrt i)); [lra |].
  replace (196 / 100 / sqrt i * sqrt i) with (196 / 100) by (field; lra). lra.
Qed.

Lemma C4_witness :
  exists i,
    neg (div (add (sub (logPosterior (Fin (2 + / 10000)) (evals [(4, 4)])
                          (Fin 2) (Fin 5) (Fin 0) (Fin 4))
                       (mul (Fin 2)
                            (logPosterior (Fin 2) (evals [(4, 4)])
                               (Fin 2) (Fin 5) (Fin 0) (Fin 4))))
                  (logPosterior (Fin (2 - / 10000)) (evals [(4, 4)])
                     (Fin 2) (Fin 5) (Fin 0) (Fin 4)))
             (Fin (/ 10000 * / 10000)))
    = Fin i
    /\ 0 < i
    /\ calculateBayesianConfidenceInterval (Fin 2) (evals [(4, 4)]) (Fin 2) (Fin 5)
         (Fin 0) (Fin 4)
       = mkInterval (Fin (2 - 196 / 100 / sqrt i)) (Fin (2 + 196 / 100 / sqrt i))
    /\ 0 < 2 - 196 / 100 / sqrt i
    /\ 2 + 196 / 100 / sqrt i < 4.
Proof.
  destruct information_at_the_middle as (i & Hi & Hbound).
  pose proof (margin_below_2 i Hbound) as Hmargin.
  exists i. split; [exact Hi |]. split; [lra |].
  pose proof (proj1 (proj2 (C4_confidence_interval (evals [(4, 4)]) (Fin 2) (Fin 5) 0 4 2
                              ltac:(discriminate) ltac:(lra)))
                i Hi ltac:(lra)) as Hci.
  rewrite Hci. split; [| lra].
  unfold Rmax, Rmin.
  destruct (Rle_dec 0 (2 - 196 / 100 / sqrt i)), (Rle_dec 4 (2 + 196 / 100 / sqrt i));
    try lra; reflexivity.
Defined.

(** C10, counterexample: an evaluation whose level is [NaN].  Every
    log-posterior of the grid is [NaN], no grid point is valid, and the
    search takes its fallback, [xMin]. *)
Lemma C10_counterexample_level_not_a_number :
  (forall i, posterior_at [mkEval NaN (Fin 4)] (Fin 2) (Fin 5) (Fin 0) (Fin 4) 500 i = NaN)
  /\ bestAbility (estimateAbilityByGridSearchMAP [mkEval NaN (Fin 4)] (Fin 2) (Fin 5)
                    (Fin 0) (Fin 4) 500) = Fin 0.
Proof.
  assert (Hnan : forall i,
             posterior_at [mkEval NaN (Fin 4)] (Fin 2) (Fin 5) (Fin 0) (Fin 4) 500 i = NaN).
  { intros i. unfold posterior_at, logLikelihood, likelihood.
    cbn [fold_left level predictedMaxScore js_eq].
    destruct (grid_point (Fin 0) (Fin 4) 500 i); reflexivity. }
  split; [exact Hnan |].
  destruct (grid_search_spec [mkEval NaN (Fin 4)] (Fin 2) (Fin 5) (Fin 0) (Fin 4) 500
              ltac:(discriminate)) as [[_ Hbest] | (m & _ & Hvm & _)].
  - exact Hbest.
  - unfold valid in Hvm. rewrite Hnan in Hvm. discriminate.
Qed.

Lemma C10_witness :
  exists m x,
    (0 < m < 500)%nat
    /\ isFinite (posterior_at (evals two_evaluations) (Fin 2) (Fin 5) (Fin 0) (Fin 4) 500 m)
       = true
    /\ bestAbility (estimateAbilityByGridSearchMAP (evals two_evaluations) (Fin 2) (Fin 5)
                      (Fin 0) (Fin 4) 500) = grid_point (Fin 0) (Fin 4) 500 m
    /\ bestAbility (estimateAbilityByGridSearchMAP (evals two_evaluations) (Fin 2) (Fin 5)
                      (Fin 0) (Fin 4) 500) = Fin x
    /\ 0 < x < 4.
Proof.
  exact (proj2 (proj2 C10_fallback_unreachable two_evaluations 2 5 0 4 500%nat
                  ltac:(discriminate) ltac:(lra) ltac:(lia))).
Defined.

(** ** Raising a level that was at its ceiling *)




End EstimatorRuns.

(* ====================================================================== *)
(** * Further properties of the retry policy *)
(* ====================================================================== *)

Section RetryLoop.

Import RetryPolicy.
Local Open Scope string_scope.
Local Open Scope Z_scope.

Variables (T E : Type).
Variable Math_random : nat -> Q.
Hypothesis Math_random_range : forall k, (0 <= Math_random k)%Q /\ (Math_random k < 1)%Q.

Variable operation : M E T.
Variables maxRetries baseDelay : Z.

Local Abbreviation retry := (retry_from T E Math_random operation maxRetries baseDelay).
Local Abbreviation draw := (jitter Math_random).

(** *** Where a returned value comes from *)

Lemma retry_returns_operation_value (remaining : nat) :
  forall (i : Z) (w w' : world E) (v : T),
    retry remaining i w = (Returned v, w') ->
    exists w1, operation w1 = (Returned v, w').
Proof.
  induction remaining as [| r IH]; intros i w w' v Hrun; [discriminate |].
  rewrite retry_step in Hrun.
  destruct (operation _) as [[a | e] w1] eqn:Hop.
  - injection Hrun as <- <-. eauto.
  - destruct (isRate e) as [te | [|]]; [discriminate | |].
    + destruct (delay_of (message e)); [discriminate |]. cbn zeta in Hrun.
      destruct (i =? maxRetries - 1); [discriminate | eauto].
    + destruct (negb (isServer e) || (i =? maxRetries - 1)); [discriminate | eauto].
Qed.

(** X1: Whatever [retryWithBackoff] returns is the value of an attempt of the
    operation, and the world is left exactly as that attempt left it:
    nothing is waited for, drawn or written after a success. *)
Theorem retryWithBackoff_returns_operation_value :
  forall (w w' : world E) (v : T),
    retryWithBackoff T E Math_random operation maxRetries baseDelay w = (Returned v, w') ->
    exists w1, operation w1 = (Returned v, w').
Proof. intros w w' v. apply retry_returns_operation_value. Qed.

(** *** How often the operation is attempted *)

Section Attempts.

(** A counter of the operation's calls, kept in the operation's own state. *)
Variable calls : E -> nat.
Hypothesis operation_counts :
  forall w, calls (env (snd (operation w))) = S (calls (env w)).

Lemma retry_attempts (remaining : nat) :
  forall (i : Z) (w : world E),
    (calls (env w) <= calls (env (snd (retry remaining i w))) <= calls (env w) + remaining)%nat
    /\ ((0 < remaining)%nat -> (calls (env w) < calls (env (snd (retry remaining i w))))%nat).
Proof.
  induction remaining as [| r IH]; intros i w; [cbn; lia |].
  rewrite retry_step.
  destruct (ensureCooldown_spec E w) as (_ & _ & _ & _ & Henv).
  pose proof (operation_counts (snd (ensureCooldown w))) as Hcount. rewrite Henv in Hcount.
  destruct (operation _) as [[a | e] w1]; cbn [snd] in *; [lia |].
  destruct (isRate e) as [te | [|]]; cbn [snd]; [lia | |].
  - destruct (delay_of (message e)); cbn [snd]; [lia |]. cbn zeta.
    destruct (i =? maxRetries - 1); cbn [snd env]; [lia |].
    match goal with |- context [retry r ?j ?w2] => destruct (IH j w2) as [Hle _] end.
    cbn [env] in Hle. lia.
  - destruct (negb (isServer e) || (i =? maxRetries - 1)); cbn [snd env]; [lia |].
    match goal with |- context [retry r ?j ?w2] => destruct (IH j w2) as [Hle _] end.
    cbn [env] in Hle. lia.
Qed.

End Attempts.

(** X2: The operation is attempted at most [maxRetries] times, and at least once
    when [maxRetries] is positive. *)
Theorem retryWithBackoff_attempts_at_most_maxRetries :
  forall (calls : E -> nat),
    (forall w, calls (env (snd (operation w))) = S (calls (env w))) ->
    forall w : world E,
      let w' := snd (retryWithBackoff T E Math_random operation maxRetries baseDelay w) in
      (calls (env w') <= calls (env w) + Z.to_nat maxRetries)%nat
      /\ (0 < maxRetries -> (calls (env w) < calls (env w'))%nat).
Proof.
  intros calls Hcounts w w'. subst w'. unfold retryWithBackoff.
  destruct (retry_attempts calls Hcounts (Z.to_nat maxRetries) 0 w) as [[_ Hle] Hlt].
  split; [exact Hle | intros Hpos; apply Hlt; lia].
Qed.

(** *** The shared cooldown *)

Lemma parseRetryDelayMs_thousands (msg : string) (d : Z) :
  parseRetryDelayMs msg = Some d -> exists n, 0 <= n /\ d = n * 1000.
Proof.
  unfold parseRetryDelayMs. destruct msg as [| c msg]; [discriminate |].
  destruct (regex_search retryDelay_here _) as [ds |] eqn:Hs; [| discriminate].
  intros [= <-]. exists (parseInt10 ds). split; [| reflexivity].
  apply regex_search_some in Hs as [s' Hs]. apply retryDelay_here_digits in Hs.
  apply parse_digits_nonneg; [lia | assumption].
Qed.

Lemma delay_or_default_at_least_a_second (msg : string) : 1000 <= delay_or_default msg.
Proof.
  unfold delay_or_default.
  destruct (parseRetryDelayMs msg) as [d |] eqn:Hd; [| lia].
  apply parseRetryDelayMs_thousands in Hd as (n & Hn & ->).
  destruct (n * 1000 =? 0) eqn:H0; [lia | apply Z.eqb_neq in H0; lia].
Qed.

Lemma retry_rate_limit_thrown (remaining : nat) :
  forall (i : Z) (w w' : world E) (x : js_error),
    retry remaining i w = (Threw x, w') ->
    isRate x = inr true ->
    clock w' + 1000 <= last429CooldownUntil w'.
Proof.
  induction remaining as [| r IH]; intros i w w' x Hrun Hrate.
  - cbn in Hrun. injection Hrun as <- _. discriminate.
  - rewrite retry_step in Hrun.
    destruct (operation _) as [[a | e] w1]; [discriminate |].
    destruct (isRate e) as [te | [|]] eqn:He.
    + injection Hrun as <- _. apply isRate_throws in He as [_ ->]. discriminate.
    + destruct (delay_of (message e)) as [te | hint] eqn:Hd.
      * injection Hrun as <- _. apply delay_of_throws in Hd as [_ ->]. discriminate.
      * cbn zeta in Hrun. destruct (i =? maxRetries - 1); [| eauto].
        injection Hrun as <- <-. cbn [clock last429CooldownUntil].
        destruct (message e) as [s |]; [| discriminate]. injection Hd as <-.
        pose proof (delay_or_default_at_least_a_second s).
        pose proof (jitter_range Math_random Math_random_range 1500 (draws w1) ltac:(lia)). lia.
    + destruct (negb (isServer e) || (i =? maxRetries - 1)); [| eauto].
      injection Hrun as <- _. congruence.
Qed.

(** X4: When [retryWithBackoff] gives up on a rate-limit error, it leaves the
    shared cooldown at least one second in the future; the next caller's
    [ensureCooldown] then waits until that instant before it attempts
    anything when the instant is at most [2^31 - 1] ms away, and for 1 ms
    only when it is further away (the delay of its timer overflows). *)
Theorem retryWithBackoff_rate_limit_leaves_cooldown :
  forall (w w' : world E) (x : js_error),
    retryWithBackoff T E Math_random operation maxRetries baseDelay w = (Threw x, w') ->
    isRate x = inr true ->
    clock w' + 1000 <= last429CooldownUntil w'
    /\ clock (snd (ensureCooldown w'))
       = (if last429CooldownUntil w' - clock w' <=? 2147483647
          then last429CooldownUntil w'
          else clock w' + 1).
Proof.
  intros w w' x Hrun Hrate.
  pose proof (retry_rate_limit_thrown _ _ _ _ _ Hrun Hrate) as Hcool.
  split; [exact Hcool |].
  destruct (ensureCooldown_clock E w') as [_ ->]. unfold TIMEOUT_MAX.
  destruct (_ <=? _); lia.
Qed.

(** X5: As long as no attempt fails with a rate-limit error, the shared cooldown
    is left as it was (the operation itself cannot write it). *)
Theorem retry_without_rate_limit_keeps_cooldown :
  (forall w, last429CooldownUntil (snd (operation w)) = last429CooldownUntil w) ->
  (forall w e w1, operation w = (Threw e, w1) -> isRate e <> inr true) ->
  forall (remaining : nat) (i : Z) (w : world E),
    last429CooldownUntil (snd (retry remaining i w)) = last429CooldownUntil w.
Proof.
  intros Hkeeps Hnever.
  induction remaining as [| r IH]; intros i w; [reflexivity |].
  rewrite retry_step.
  destruct (ensureCooldown_spec E w) as (_ & _ & Hcool & _).
  pose proof (Hkeeps (snd (ensureCooldown w))) as Hop. rewrite Hcool in Hop.
  destruct (operation _) as [[a | e] w1] eqn:Hrun; cbn [snd] in *; [exact Hop |].
  pose proof (Hnever _ _ _ Hrun) as Hno.
  destruct (isRate e) as [te | [|]]; [exact Hop | congruence |].
  destruct (negb (isServer e) || (i =? maxRetries - 1)); cbn [snd]; [exact Hop |].
  rewrite IH. exact Hop.
Qed.

(** *** A failure that does not go away *)



End RetryLoop.

Section RetryHint.

Import RetryPolicy.
Local Open Scope string_scope.
Local Open Scope Z_scope.

(** No character of [s] is the letter [a], in either case. *)
Fixpoint free_of (a : ascii) (s : string) : Prop :=
  match s with
  | EmptyString => True
  | String c s' => eqb_ci a c = false /\ free_of a s'
  end.

Definition optional_quote (present : bool) : string :=
  if present then String dquote EmptyString else EmptyString.

Lemma is_digit_not_quote (c : ascii) : is_digit c = true -> Ascii.eqb c dquote = false.
Proof.
  intros Hc. apply Ascii.eqb_neq. intros ->. discriminate.
Qed.

Lemma is_digit_unit (u : ascii) : eqb_ci u "s" = true -> is_digit u = false.
Proof.
  intros Hu. destruct (is_digit u) eqn:Hd; [| reflexivity].
  unfold eqb_ci in Hu. apply Ascii.eqb_eq in Hu.
  unfold is_digit in Hd. apply andb_true_iff in Hd as [H1 H2].
  apply Nat.leb_le in H1, H2. unfold lower in Hu.
  destruct ((65 <=? nat_of_ascii u) && (nat_of_ascii u <=? 90))%nat eqn:Hcase.
  - apply andb_true_iff in Hcase as [H3 _]. apply Nat.leb_le in H3. lia.
  - rewrite <- (ascii_nat_embedding u) in Hu. 
    apply (f_equal nat_of_ascii) in Hu. rewrite ascii_nat_embedding in Hu.
    rewrite Hu in H2. vm_compute in H2. lia.
Qed.

Lemma span_digits_run (ds : string) (u : ascii) (rest : string) :
  all_digits ds -> is_digit u = false ->
  span_digits (ds ++ String u rest) = (ds, String u rest).
Proof.
  intros Hds Hu. induction ds as [| d ds IH]; cbn [append span_digits].
  - now rewrite Hu.
  - destruct Hds as [Hd Hds]. rewrite Hd, (IH Hds). reflexivity.
Qed.

Lemma regex_search_past (pre m : string) :
  free_of "r" pre ->
  regex_search retryDelay_here (pre ++ m) = regex_search retryDelay_here m.
Proof.
  induction pre as [| c pre IH]; intros Hfree; [reflexivity |].
  destruct Hfree as [Hc Hfree]. cbn [append regex_search].
  unfold retryDelay_here at 1. cbn [strip_prefix_ci]. rewrite Hc. auto.
Qed.

Lemma strip_retryDelay (r : string) :
  strip_prefix_ci "retryDelay" ("retryDelay" ++ r) = Some r.
Proof. reflexivity. Qed.

Lemma skip_optional_quote (present : bool) (c : ascii) (rest : string) :
  Ascii.eqb c dquote = false ->
  skip_quote (optional_quote present ++ String c rest) = String c rest.
Proof.
  intros Hc. destruct present; cbn [optional_quote append skip_quote].
  - now rewrite Ascii.eqb_refl.
  - now rewrite Hc.
Qed.

Lemma retryDelay_here_hint (q1 q2 : bool) (ds : string) (u : ascii) (rest : string) :
  ds <> EmptyString -> all_digits ds -> eqb_ci u "s" = true ->
  retryDelay_here ("retryDelay" ++ optional_quote q1 ++ ":" ++ optional_quote q2
                     ++ ds ++ String u rest) = Some ds.
Proof.
  intros Hne Hds Hu. unfold retryDelay_here. rewrite strip_retryDelay.
  change (":" ++ optional_quote q2 ++ ds ++ String u rest)
    with (String ":" (optional_quote q2 ++ ds ++ String u rest)).
  rewrite skip_optional_quote by reflexivity.
  rewrite Ascii.eqb_refl.
  destruct ds as [| d ds]; [congruence |]. destruct Hds as [Hd Hds].
  change (String d ds ++ String u rest) with (String d (ds ++ String u rest)).
  rewrite skip_optional_quote by (now apply is_digit_not_quote).
  change (String d (ds ++ String u rest)) with (String d ds ++ String u rest).
  rewrite span_digits_run by (try split; try assumption; now apply is_digit_unit).
  now rewrite Hu.
Qed.

(** X6: A retry hint is read as written: for a message made of a text without
    the letter r, then [retryDelay], an optional double quote, a colon, an
    optional double quote, one or more digits and an [s] (of either case),
    followed by anything, [parseRetryDelayMs] returns the number those
    digits write, times 1000, as long as that product is at most [2^53]
    (beyond it [parseInt] and the product round to a binary64). *)
Theorem parseRetryDelayMs_reads_hint :
  forall (pre : string) (q1 q2 : bool) (ds : string) (u : ascii) (rest : string),
    free_of "r" pre ->
    ds <> EmptyString ->
    all_digits ds ->
    eqb_ci u "s" = true ->
    parseInt10 ds * 1000 <= 2 ^ 53 ->
    parseRetryDelayMs
      (pre ++ "retryDelay" ++ optional_quote q1 ++ ":" ++ optional_quote q2
           ++ ds ++ String u rest)
    = Some (parseInt10 ds * 1000).
Proof.
  intros pre q1 q2 ds u rest Hfree Hne Hds Hu _.
  pose proof (retryDelay_here_hint q1 q2 ds u rest Hne Hds Hu) as Hhere.
  unfold parseRetryDelayMs.
  rewrite regex_search_past by assumption.
  set (m := "retryDelay" ++ optional_quote q1 ++ ":" ++ optional_quote q2
              ++ ds ++ String u rest) in *.
  assert (Hfound : regex_search retryDelay_here m = Some ds)
    by (destruct m; cbn [regex_search]; now rewrite Hhere).
  rewrite Hfound.
  destruct pre; [| reflexivity].
  subst m. reflexivity.
Qed.


(** *** The status read off the message *)

(** No character of [s] is [a]. *)
Fixpoint lacks (a : ascii) (s : string) : Prop :=
  match s with
  | EmptyString => True
  | String c s' => Ascii.eqb c a = false /\ lacks a s'
  end.

Lemma status_here_needs_bracket (c : ascii) (s : string) :
  Ascii.eqb c "[" = false -> status_here (String c s) = None.
Proof.
  intros Hc. unfold status_here.
  destruct s as [| d1 [| d2 [| d3 [| sp s]]]]; try reflexivity.
  now rewrite Hc.
Qed.

Lemma regex_search_status_past (pre m : string) :
  lacks "[" pre ->
  regex_search status_here (pre ++ m) = regex_search status_here m.
Proof.
  induction pre as [| c pre IH]; intros Hlacks; [reflexivity |].
  destruct Hlacks as [Hc Hlacks]. cbn [append regex_search].
  rewrite status_here_needs_bracket by assumption. auto.
Qed.

(** X7: When the thrown value has no [status] field (or a [status] of 0), the
    status is the first three-digit code that the message holds between an
    opening bracket and a space: for a message made of a text without
    bracket, then a bracket, three digits and a space, it is the number
    those digits write, and the error is retried as a server error exactly
    when that number is 500 or 503. *)
Theorem status_of_reads_the_message :
  forall (field : option Z) (pre : string) (d1 d2 d3 : ascii) (rest : string),
    field = None \/ field = Some 0 ->
    lacks "[" pre ->
    is_digit d1 = true -> is_digit d2 = true -> is_digit d3 = true ->
    let code := parseInt10 (String d1 (String d2 (String d3 EmptyString))) in
    let e := mkError field
               (pre ++ String "[" (String d1 (String d2 (String d3 (String " " rest))))) in
    status_of e = Some code
    /\ isServer e = ((code =? 500) || (code =? 503))
    /\ (code = 429 -> isRate e = inr true).
Proof.
  intros field pre d1 d2 d3 rest Hfield Hpre H1 H2 H3 code e.
  assert (Hstatus : status_of e = Some code).
  { unfold status_of, e. cbn [status message status_in_message].
    assert (Hsearch : regex_search status_here
                        (pre ++ String "[" (String d1 (String d2 (String d3 (String " " rest)))))
                      = Some code).
    { rewrite regex_search_status_past by assumption.
      cbn [regex_search status_here]. rewrite H1, H2, H3. reflexivity. }
    destruct Hfield as [-> | ->]; exact Hsearch. }
  split; [exact Hstatus |]. split.
  - unfold isServer. rewrite Hstatus. reflexivity.
  - intros Hcode. unfold isRate. rewrite Hstatus. cbn [opt_eqb]. rewrite Hcode. reflexivity.
Qed.

End RetryHint.

Section RetryLoopRuns.

Import RetryPolicy.
Local Open Scope string_scope.
Local Open Scope Z_scope.

(** An operation that takes 10 ms, counts its calls, fails with a 503 on
    its first two calls and returns 7 from the third call on. *)
Definition third_time_lucky : M nat Z :=
  fun w =>
    (if (env w <? 2)%nat then Threw service_unavailable else Returned 7,
     mkWorld (clock w + 10) (last429CooldownUntil w) (draws w) (S (env w))).

Lemma retryWithBackoff_returns_operation_value_witness :
  exists w1, third_time_lucky w1 = (Returned 7, mkWorld 4030 0 2 3%nat).
Proof.
  exact (retryWithBackoff_returns_operation_value Z nat half_draws third_time_lucky 4 1200
           start (mkWorld 4030 0 2 3%nat) 7 eq_refl).
Defined.

Lemma retryWithBackoff_attempts_at_most_maxRetries_witness :
  (env (snd (retryWithBackoff Z nat half_draws third_time_lucky 4 1200 start))
   <= env start + Z.to_nat 4)%nat
  /\ (0 < 4 ->
      (env start < env (snd (retryWithBackoff Z nat half_draws third_time_lucky 4 1200 start)))%nat).
Proof.
  exact (retryWithBackoff_attempts_at_most_maxRetries Z nat half_draws third_time_lucky 4 1200
           (fun n => n) (fun w => eq_refl) start).
Defined.

Lemma retryWithBackoff_rate_limit_leaves_cooldown_witness :
  clock (mkWorld 17770 35520 2 2%nat) + 1000 <= last429CooldownUntil (mkWorld 17770 35520 2 2%nat)
  /\ clock (snd (ensureCooldown (mkWorld 17770 35520 2 2%nat)))
     = last429CooldownUntil (mkWorld 17770 35520 2 2%nat).
Proof.
  exact (retryWithBackoff_rate_limit_leaves_cooldown unit nat half_draws half_draws_range
           (always_throws (rate_limit_error "17")) 2 1200
           start (mkWorld 17770 35520 2 2%nat) (rate_limit_error "17") eq_refl eq_refl).
Defined.

(** After a hint of 3000000 s the cooldown lies beyond the range of a timer,
    and the next caller's [ensureCooldown] returns after 1 ms. *)
Lemma ensureCooldown_beyond_timer_range :
  retryWithBackoff unit nat half_draws (always_throws (rate_limit_error "3000000")) 1 1200 start
  = (Threw (rate_limit_error "3000000"), mkWorld 10 3000000760 1 1%nat)
  /\ clock (snd (ensureCooldown (mkWorld 10 3000000760 1 1%nat))) = 11.
Proof. split; vm_compute; reflexivity. Qed.

Lemma retry_without_rate_limit_keeps_cooldown_witness :
  last429CooldownUntil
    (snd (retry_from unit nat half_draws (always_throws service_unavailable) 4 1200 4 0 start))
  = last429CooldownUntil start.
Proof.
  apply (retry_without_rate_limit_keeps_cooldown unit nat half_draws
           (always_throws service_unavailable) 4 1200).
  - intros w. reflexivity.
  - intros w e w1 [= <- _]. discriminate.
Defined.


Lemma parseRetryDelayMs_reads_hint_witness :
  parseRetryDelayMs
    ("[429 Too Many] {" ++ "retryDelay" ++ optional_quote true ++ ":" ++ optional_quote true
       ++ "17" ++ String "s" "}")
  = Some (parseInt10 "17" * 1000).
Proof.
  apply (parseRetryDelayMs_reads_hint "[429 Too Many] {" true true "17" "s" "}").
  - cbn. repeat split; reflexivity.
  - discriminate.
  - cbn. repeat split; reflexivity.
  - reflexivity.
  - vm_compute. discriminate.
Defined.

Lemma status_of_reads_the_message_witness :
  status_of (mkError None "Error fetching: [503 Service Unavailable] overloaded") = Some 503
  /\ isServer (mkError None "Error fetching: [503 Service Unavailable] overloaded")
     = ((503 =? 500) || (503 =? 503))
  /\ (503 = 429 ->
      isRate (mkError None "Error fetching: [503 Service Unavailable] overloaded") = inr true).
Proof.
  apply (status_of_reads_the_message None "Error fetching: " "5" "0" "3"
           "Service Unavailable] overloaded").
  - left. reflexivity.
  - cbn. repeat split; reflexivity.
  - reflexivity.
  - reflexivity.
  - reflexivity.
Defined.

End RetryLoopRuns.

(* ====================================================================== *)
(** * Further properties of the batch executor *)
(* ====================================================================== *)

Section BatchLoops.

Import RetryPolicy BatchExecutor.
Local Open Scope Z_scope.

Variables (TInput TOutput : Type).
Variable options : BatchProcessorOptions.
Variable processor : TInput -> completion (option TOutput).

(** A [getItemName] that does not throw. *)
Variable itemName : TInput -> string.

Local Abbreviation out_of := (batch_output options processor).
Local Abbreviation named := (never_throws itemName).

(** [xs] is [ys] with some elements left out, the order kept. *)
Inductive subsequence {A : Type} : list A -> list A -> Prop :=
| subsequence_nil : subsequence [] []
| subsequence_keep (a : A) (xs ys : list A) :
    subsequence xs ys -> subsequence (a :: xs) (a :: ys)
| subsequence_drop (a : A) (xs ys : list A) :
    subsequence xs ys -> subsequence xs (a :: ys).

Lemma subsequence_refl {A : Type} (l : list A) : subsequence l l.
Proof. induction l; constructor; assumption. Qed.

Lemma subsequence_empty {A : Type} (l : list A) : subsequence [] l.
Proof. induction l; constructor; assumption. Qed.

Lemma subsequence_app {A : Type} (xs ys xs' ys' : list A) :
  subsequence xs ys -> subsequence xs' ys' -> subsequence (xs ++ xs') (ys ++ ys').
Proof.
  intros H H'. induction H; cbn [app]; try constructor; assumption.
Qed.

Lemma subsequence_length {A : Type} (xs ys : list A) :
  subsequence xs ys -> (List.length xs <= List.length ys)%nat.
Proof. intros H. induction H; cbn [List.length]; lia. Qed.

Lemma subsequence_In {A : Type} (xs ys : list A) (a : A) :
  subsequence xs ys -> In a xs -> In a ys.
Proof.
  intros H. induction H; cbn [In]; intros Hin; [assumption | | right; auto].
  destruct Hin; [left | right]; auto.
Qed.

(** The race of a batch against its timer settles, one way or the other. *)
Lemma batchRace_never_hangs (batch : list TInput) :
  batchRace TInput TOutput options processor named batch <> Hung.
Proof.
  destruct (batchRace_await TInput TOutput options processor itemName batch)
    as [(_ & rs & -> & _) | (_ & e & ->)]; discriminate.
Qed.

Lemma batch_output_subsequence (batch : list TInput) :
  subsequence (out_of batch) (successful_outputs options processor batch).
Proof.
  unfold batch_output. destruct (batch_in_time options processor batch);
    [apply subsequence_refl | apply subsequence_empty].
Qed.

Lemma successful_outputs_length (items : list TInput) :
  (List.length (successful_outputs options processor items) <= List.length items)%nat.
Proof.
  unfold successful_outputs.
  induction items as [| item items IH]; cbn [flat_map List.length]; [lia |].
  rewrite length_app. unfold item_output at 1.
  destruct (processor item) as [ms b [[v |] | e] |]; cbn [List.length]; try lia.
  destruct (completion_tick ms b <? item_timer options); cbn [List.length]; lia.
Qed.

(** X8: [processItemWithTimeout] never rejects and never stays pending: it is
    fulfilled no later than its item timer fires, with the value of the
    processing when that was fulfilled with one before the timer fired (in
    an earlier millisecond than the timer's delay, or in that millisecond
    ahead of the timers), and with [null] in every other case.  The delay
    of the timer is [itemTimeoutMs] when that lies between 1 and
    [2^31 - 1], and 1 ms otherwise. *)
Theorem processItemWithTimeout_always_fulfils :
  forall (item : TInput) (name : string),
    exists t v,
      processItemWithTimeout TInput TOutput options processor item name
      = SettlesAt t (Fulfilled v)
      /\ t <= tick (timer_delay (itemTimeoutMs options)) ItemTimer
      /\ forall out,
           v = Some out <->
           exists ms before_timers,
             processor item = Completes ms before_timers (Fulfilled (Some out))
             /\ (ms < timer_delay (itemTimeoutMs options)
                 \/ (ms = timer_delay (itemTimeoutMs options) /\ before_timers = true)).
Proof.
  intros item name.
  exists (item_settle_time TInput TOutput options processor item),
         (item_value TInput TOutput options processor item).
  split; [apply processItemWithTimeout_settles |].
  split.
  - unfold item_settle_time. fold (item_timer options). destruct (processor item); lia.
  - intros out. unfold item_value.
    destruct (processor item) as [ms b [[v |] | e] |].
    + pose proof (completion_before_item_timer options ms b) as Hbefore.
      destruct (completion_tick ms b <? item_timer options) eqn:Hlt.
      * apply Z.ltb_lt in Hlt. split.
        -- intros [= ->]. exists ms, b. split; [reflexivity | now apply Hbefore].
        -- intros (ms' & b' & [= <- <- <-] & _). reflexivity.
      * apply Z.ltb_ge in Hlt. split; [discriminate |].
        intros (ms' & b' & [= <- <- <-] & Hin). apply Hbefore in Hin. lia.
    + split; [discriminate | intros (ms' & b' & [=] & _)].
    + split; [discriminate | intros (ms' & b' & [=] & _)].
    + split; [discriminate | intros (ms' & b' & [=] & _)].
Qed.

(** X9: On an empty list [processBatches] returns the empty list at once, on
    either path and whatever the options are (a batch size of zero
    included). *)
Theorem processBatches_empty :
  forall (getItemName : TInput -> js_error + string) (fuel : nat),
    processBatches options processor getItemName (S fuel) [] = Some (Done []).
Proof.
  intros getItemName fuel. unfold processBatches, processConcurrentBatches.
  destruct (1 <? concurrentBatches options); reflexivity.
Qed.

(** The loop index never passes the end of a non-empty list when the batch
    size is not positive. *)
Lemma sequential_from_stuck (items : list TInput) :
  batchSize options <= 0 -> items <> [] ->
  forall fuel i acc,
    i <= 0 -> sequential_from TInput TOutput options processor named fuel items i acc = None.
Proof.
  intros Hb Hitems.
  assert (Hlen : 0 < Z.of_nat (List.length items)) by (destruct items; [congruence | cbn; lia]).
  induction fuel as [| fuel IH]; intros i acc Hi; [reflexivity |].
  cbn [sequential_from].
  replace (i <? Z.of_nat (List.length items)) with true by (symmetry; apply Z.ltb_lt; lia).
  rewrite names_of_named.
  pose proof (batchRace_never_hangs (slice items i (i + batchSize options))) as Hrace.
  destruct (batchRace _ _ _ _ _ _); [apply IH; lia | apply IH; lia | congruence].
Qed.

Lemma batches_from_stuck (items : list TInput) :
  batchSize options <= 0 -> items <> [] ->
  forall fuel i acc,
    i <= 0 -> batches_from TInput options fuel items i acc = None.
Proof.
  intros Hb Hitems.
  assert (Hlen : 0 < Z.of_nat (List.length items)) by (destruct items; [congruence | cbn; lia]).
  induction fuel as [| fuel IH]; intros i acc Hi; [reflexivity |].
  cbn [batches_from].
  replace (i <? Z.of_nat (List.length items)) with true by (symmetry; apply Z.ltb_lt; lia).
  apply IH. lia.
Qed.

(** X10: With a batch size of zero or less and at least one item, the loop of
    [processBatches] never ends: no number of iterations produces a result,
    on either path ([getItemName] not throwing). *)
Theorem processBatches_nonpositive_batchSize_never_returns :
  forall (items : list TInput) (fuel : nat),
    batchSize options <= 0 ->
    items <> [] ->
    processBatches options processor named fuel items = None.
Proof.
  intros items fuel Hb Hitems. unfold processBatches, processConcurrentBatches.
  destruct (1 <? concurrentBatches options).
  - now rewrite batches_from_stuck by (assumption || lia).
  - apply sequential_from_stuck; (assumption || lia).
Qed.

(** X11: With a batch size of at least one (and a [getItemName] that does not
    throw), what [processBatches] returns is a subsequence of the
    successful outputs of the items (nothing is invented, duplicated or
    reordered, also when batches time out), so it never holds more outputs
    than there are items; and every output it returns is the value of an
    item whose processing was fulfilled before its item timer fired (in an
    earlier millisecond than the timer's delay, or in that millisecond
    ahead of the timers). *)
Theorem processBatches_returns_subsequence :
  forall (items : list TInput) (fuel : nat),
    1 <= batchSize options ->
    (List.length items < fuel)%nat ->
    exists out,
      processBatches options processor named fuel items = Some (Done out)
      /\ subsequence out (successful_outputs options processor items)
      /\ (List.length out <= List.length items)%nat
      /\ forall v, In v out ->
           exists item ms before_timers,
             In item items
             /\ processor item = Completes ms before_timers (Fulfilled (Some v))
             /\ (ms < timer_delay (itemTimeoutMs options)
                 \/ (ms = timer_delay (itemTimeoutMs options) /\ before_timers = true)).
Proof.
  intros items fuel Hb Hfuel.
  eexists. split; [apply processBatches_runs; assumption |].
  assert (Hsub : subsequence
                   (flat_map out_of (batches_of TInput (Z.to_nat (batchSize options)) items))
                   (successful_outputs options processor items)).
  { rewrite <- (concat_batches_of TInput (Z.to_nat (batchSize options)) ltac:(lia) items) at 2.
    generalize (batches_of TInput (Z.to_nat (batchSize options)) items) as batches.
    induction batches as [| batch batches IH]; [constructor |].
    cbn [flat_map List.concat]. unfold successful_outputs in *. rewrite flat_map_app.
    apply subsequence_app; [apply batch_output_subsequence | exact IH]. }
  split; [exact Hsub |]. split.
  - apply subsequence_length in Hsub. pose proof (successful_outputs_length items). lia.
  - intros v Hv. apply (subsequence_In _ _ v Hsub) in Hv.
    unfold successful_outputs in Hv. apply in_flat_map in Hv as (item & Hitem & Hv).
    unfold item_output in Hv.
    destruct (processor item) as [ms b [[v' |] | e] |] eqn:Hp; try contradiction.
    destruct (completion_tick ms b <? item_timer options) eqn:Hlt; [| contradiction].
    destruct Hv as [<- | []]. apply Z.ltb_lt in Hlt.
    apply completion_before_item_timer in Hlt. eauto 6.
Qed.

(** X12: The loop of [processConcurrentBatches] that cuts the items into batches
    loses and duplicates nothing: the batches, one after the other, are the
    items, and every batch holds between one and [batchSize] items. *)
Theorem batches_from_partitions :
  forall (items : list TInput) (fuel : nat),
    1 <= batchSize options ->
    (List.length items < fuel)%nat ->
    exists batches,
      batches_from TInput options fuel items 0 [] = Some batches
      /\ List.concat batches = items
      /\ Forall (fun batch => 1 <= Z.of_nat (List.length batch) <= batchSize options) batches.
Proof.
  intros items fuel Hb Hfuel.
  set (b := Z.to_nat (batchSize options)).
  assert (Hbpos : (0 < b)%nat) by (subst b; lia).
  assert (Hbeq : batchSize options = Z.of_nat b) by (subst b; lia).
  pose proof (batches_from_spec TInput options b Hbpos Hbeq items fuel 0 []) as Hcut.
  change (Z.of_nat 0) with 0 in Hcut. cbn [skipn app] in Hcut.
  eexists. split; [apply Hcut; lia |].
  split; [apply concat_batches_of; assumption |].
  rewrite Hbeq. clear Hcut Hfuel.
  remember (List.length items) as len eqn:Hlen.
  revert items Hlen. induction len as [len IH] using lt_wf_ind. intros items Hlen.
  destruct items as [| a items]; [constructor |].
  rewrite batches_of_nonempty by assumption. constructor.
  - rewrite length_firstn. cbn [List.length]. lia.
  - apply (IH (List.length (skipn b (a :: items)))); [| reflexivity].
    rewrite length_skipn. cbn [List.length] in *. lia.
Qed.

End BatchLoops.

Section BatchConfigurations.

Import RetryPolicy BatchExecutor BatchConstruction.
Local Open Scope Z_scope.

Variables (TInput TOutput : Type).
Variable processor : TInput -> completion (option TOutput).

(** A [getItemName] that does not throw. *)
Variable itemName : TInput -> string.

(** [options] with another number of concurrent batches. *)
Definition with_concurrentBatches (options : BatchProcessorOptions) (c : Z)
    : BatchProcessorOptions :=
  mkOptions (batchSize options) (batchDelayMs options) (itemTimeoutMs options)
            (batchTimeoutMs options) (maxRetries options) (baseRetryDelay options) c.

(** X13: The number of concurrent batches does not bear on what is returned: the
    concurrent path (any [concurrentBatches] above one) returns the same
    outputs, in the same order, as the sequential path ([getItemName] not
    throwing). *)
Theorem processBatches_concurrency_irrelevant :
  forall (options : BatchProcessorOptions) (c c' : Z) (items : list TInput) (fuel : nat),
    1 <= batchSize options ->
    (List.length items < fuel)%nat ->
    processBatches (with_concurrentBatches options c) processor (never_throws itemName)
      fuel items
    = processBatches (with_concurrentBatches options c') processor (never_throws itemName)
        fuel items.
Proof.
  intros options c c' items fuel Hb Hfuel.
  rewrite !processBatches_runs by assumption. reflexivity.
Qed.

(** X14: A processor constructed without its two timeouts (they default to three
    and five minutes) and with a batch size that is left out or at least
    one returns exactly the non-null outputs of the items that succeeded
    within the item timeout, in input order, whatever the other options
    ([getItemName] not throwing). *)
Theorem constructed_with_default_timeouts_keeps_every_success :
  forall (given : GivenOptions) (items : list TInput) (fuel : nat),
    given_itemTimeoutMs given = None ->
    given_batchTimeoutMs given = None ->
    (forall b, given_batchSize given = Some b -> 1 <= b) ->
    (List.length items < fuel)%nat ->
    processBatches (constructor given) processor (never_throws itemName) fuel items
    = Some (Done (successful_outputs (constructor given) processor items))
    /\ itemTimeoutMs (constructor given) = 180000
    /\ batchTimeoutMs (constructor given) = 300000.
Proof.
  intros given items fuel Hitem Hbatch Hsize Hfuel.
  assert (Hb : 1 <= batchSize (constructor given)).
  { unfold constructor. cbn [batchSize]. destruct (given_batchSize given) as [b |]; cbn; [auto | lia]. }
  assert (Hi : itemTimeoutMs (constructor given) = 180000)
    by (unfold constructor; cbn [itemTimeoutMs]; now rewrite Hitem).
  assert (Ht : batchTimeoutMs (constructor given) = 300000)
    by (unfold constructor; cbn [batchTimeoutMs]; now rewrite Hbatch).
  split; [| split; assumption].
  rewrite processBatches_runs by assumption. do 2 f_equal.
  apply all_batches_in_time; [lia |].
  rewrite Hi, Ht. vm_compute. discriminate.
Qed.

End BatchConfigurations.

Section BatchConfigurationRuns.

Import RetryPolicy BatchExecutor BatchConstruction.
Local Open Scope Z_scope.

(** A batch size of zero, as a request may ask for. *)
Definition zero_batchSize : BatchProcessorOptions := mkOptions 0 3000 180000 300000 4 1200 1.

(** Batches of one item, and a batch timeout (500 ms) below the item
    timeout (1000 ms). *)
Definition single_item_batches : BatchProcessorOptions := mkOptions 1 3000 1000 500 4 1200 1.

Lemma processBatches_nonpositive_batchSize_never_returns_witness :
  processBatches zero_batchSize sample_processor (never_throws sample_name) 1000 [0%nat] = None.
Proof.
  exact (processBatches_nonpositive_batchSize_never_returns nat Z zero_batchSize
           sample_processor sample_name [0%nat] 1000%nat ltac:(cbn; lia) ltac:(discriminate)).
Defined.

Lemma processBatches_returns_subsequence_witness :
  exists out,
    processBatches single_item_batches sample_processor (never_throws sample_name) 6
      [0; 1; 2; 3; 4]%nat = Some (Done out)
    /\ subsequence out (successful_outputs single_item_batches sample_processor
                          [0; 1; 2; 3; 4]%nat)
    /\ (List.length out <= 5)%nat
    /\ forall v, In v out ->
         exists item ms before_timers,
           In item [0; 1; 2; 3; 4]%nat
           /\ sample_processor item = Completes ms before_timers (Fulfilled (Some v))
           /\ (ms < timer_delay (itemTimeoutMs single_item_batches)
               \/ (ms = timer_delay (itemTimeoutMs single_item_batches)
                   /\ before_timers = true)).
Proof.
  exact (processBatches_returns_subsequence nat Z single_item_batches sample_processor
           sample_name [0; 1; 2; 3; 4]%nat 6 ltac:(cbn; lia) ltac:(cbn; lia)).
Defined.

(** In that run the first item is kept, the two slow items are lost with
    their batches, and three items succeed within the item timeout. *)
Lemma single_item_batches_run :
  processBatches single_item_batches sample_processor (never_throws sample_name) 6
    [0; 1; 2; 3; 4]%nat = Some (Done [100])
  /\ successful_outputs single_item_batches sample_processor [0; 1; 2; 3; 4]%nat = [100; 3; 4].
Proof. split; vm_compute; reflexivity. Qed.

Lemma batches_from_partitions_witness :
  exists batches,
    batches_from nat defaultOptions 6 [0; 1; 2; 3; 4]%nat 0 [] = Some batches
    /\ List.concat batches = [0; 1; 2; 3; 4]%nat
    /\ Forall (fun batch => 1 <= Z.of_nat (List.length batch) <= 2) batches.
Proof.
  exact (batches_from_partitions nat defaultOptions [0; 1; 2; 3; 4]%nat 6
           ltac:(cbn; lia) ltac:(cbn; lia)).
Defined.

Lemma processBatches_concurrency_irrelevant_witness :
  processBatches (with_concurrentBatches short_batch_timeout 3) sample_processor
    (never_throws sample_name) 6 [0; 1; 2; 3; 4]%nat
  = processBatches (with_concurrentBatches short_batch_timeout 1) sample_processor
      (never_throws sample_name) 6 [0; 1; 2; 3; 4]%nat.
Proof.
  exact (processBatches_concurrency_irrelevant nat Z sample_processor sample_name
           short_batch_timeout 3 1 [0; 1; 2; 3; 4]%nat 6 ltac:(cbn; lia) ltac:(cbn; lia)).
Defined.

(** The options of the user look-up in the Slack fetch route. *)
Definition user_lookup_options : GivenOptions :=
  mkGiven (Some 5) (Some 300) None None None None None.

Lemma constructed_with_default_timeouts_keeps_every_success_witness :
  processBatches (constructor user_lookup_options) sample_processor (never_throws sample_name)
    6 [0; 1; 2; 3; 4]%nat
  = Some (Done (successful_outputs (constructor user_lookup_options) sample_processor
                  [0; 1; 2; 3; 4]%nat))
  /\ itemTimeoutMs (constructor user_lookup_options) = 180000
  /\ batchTimeoutMs (constructor user_lookup_options) = 300000.
Proof.
  apply (constructed_with_default_timeouts_keeps_every_success nat Z sample_processor
           sample_name user_lookup_options [0; 1; 2; 3; 4]%nat 6 eq_refl eq_refl).
  - intros b [= <-]. lia.
  - cbn. lia.
Defined.

End BatchConfigurationRuns.

(* ====================================================================== *)
(** * Further properties of the ability estimator *)
(* ====================================================================== *)

Section EstimatorShape.

Import AbilityEstimator.
Local Open Scope R_scope.

(** ** The sigmoid *)

Lemma Rsigmoid_0 : Rsigmoid 0 = / 2.
Proof. unfold Rsigmoid. rewrite Ropp_0, exp_0. f_equal; lra. Qed.

Lemma Rsigmoid_opp (z : R) : Rsigmoid (- z) = 1 - Rsigmoid z.
Proof.
  unfold Rsigmoid. rewrite Ropp_involutive, exp_Ropp.
  pose proof (exp_pos z) as Hz. field. split; lra.
Qed.

(** X15: [sigmoid] maps every finite number strictly between 0 and 1, is
    strictly increasing, takes the value one half at 0, satisfies
    [sigmoid(-z) = 1 - sigmoid(z)], and takes the values 1, 0 and [NaN] at
    [Infinity], [-Infinity] and [NaN]. *)
Theorem sigmoid_shape :
  (forall z : R, exists s, sigmoid (Fin z) = Fin s /\ 0 < s < 1
                           /\ sigmoid (neg (Fin z)) = Fin (1 - s))
  /\ (forall z1 z2 : R, z1 < z2 -> js_lt (sigmoid (Fin z1)) (sigmoid (Fin z2)) = true)
  /\ sigmoid (Fin 0) = Fin (/ 2)
  /\ sigmoid PosInf = Fin 1
  /\ sigmoid NegInf = Fin 0
  /\ sigmoid NaN = NaN.
Proof.
  repeat split.
  - intros z. exists (Rsigmoid z). split; [apply sigmoid_fin |].
    split; [split; [apply Rsigmoid_pos | apply Rsigmoid_lt_1] |].
    cbn [neg]. rewrite sigmoid_fin. f_equal. apply Rsigmoid_opp.
  - intros z1 z2 Hlt. rewrite !sigmoid_fin. cbn [js_lt]. unfold Rltb.
    pose proof (Rsigmoid_increasing z1 z2 Hlt). destruct (Rlt_dec _ _); [reflexivity | lra].
  - rewrite sigmoid_fin. f_equal. apply Rsigmoid_0.
  - unfold sigmoid. cbn. destruct (Req_dec_T (1 + 0) 0); [lra |]. f_equal. field.
Qed.

(** ** The log-likelihood *)

Lemma Rlikelihood_lt_1 (x k n : R) : Rlikelihood x k n < 1.
Proof.
  unfold Rlikelihood. destruct (Req_dec_T k n).
  - apply Rsigmoid_lt_1.
  - pose proof (Rsigmoid_lt_1 (x - k)). pose proof (Rsigmoid_pos (x - (k + 1))). lra.
Qed.

Lemma Rterm_bounds (x : R) (p : R * R) : ln Repsilon <= Rterm x p < 0.
Proof.
  unfold Rterm. pose proof Repsilon_pos as He.
  pose proof (Rlikelihood_lt_1 x (fst p) (snd p)) as H1.
  assert (Heps : Repsilon < 1).
  { assert (Hbig : 1 < 10 ^ 10) by (apply Rlt_pow_R1; [lra | lia]).
    pose proof (Rinv_lt_contravar 1 (10 ^ 10) ltac:(lra) Hbig) as Hinv.
    rewrite Rinv_1 in Hinv. exact Hinv. }
  split.
  - apply ln_monotone; [assumption | apply Rmax_r].
  - rewrite <- ln_1. apply ln_increasing.
    + eapply Rlt_le_trans; [exact He | apply Rmax_r].
    + apply Rmax_lub_lt; assumption.
Qed.

Lemma Rloglik_cons (x : R) (p : R * R) (l : list (R * R)) :
  Rloglik x (p :: l) = Rterm x p + Rloglik x l.
Proof.
  unfold Rloglik. rewrite Rloglik_from_cons, Rloglik_from_acc. ring.
Qed.

Lemma Rloglik_app (x : R) (l1 l2 : list (R * R)) :
  Rloglik x (l1 ++ l2) = Rloglik x l1 + Rloglik x l2.
Proof.
  unfold Rloglik. rewrite Rloglik_from_app, Rloglik_from_acc. reflexivity.
Qed.

Lemma Rloglik_bounds (x : R) (l : list (R * R)) :
  INR (List.length l) * ln Repsilon <= Rloglik x l <= 0
  /\ (l <> [] -> Rloglik x l < 0).
Proof.
  induction l as [| p l [[IHlo IHhi] _]].
  - cbn [List.length INR]. unfold Rloglik, Rloglik_from. cbn [fold_left].
    split; [lra | congruence].
  - rewrite Rloglik_cons. change (List.length (p :: l)) with (S (List.length l)).
    rewrite S_INR. pose proof (Rterm_bounds x p).
    split; [split; lra | intros _; lra].
Qed.

(** X16: For a finite ability and finite evaluations the log-likelihood is a
    finite number: it is zero for the empty list, strictly negative
    otherwise, never below [log(1e-10)] per evaluation (the floor), and
    that of two lists put together is the sum of theirs. *)
Theorem logLikelihood_bounds :
  forall (ability : R) (l l' : list (R * R)),
    exists v v',
      logLikelihood (Fin ability) (evals l) = Fin v
      /\ logLikelihood (Fin ability) (evals l') = Fin v'
      /\ logLikelihood (Fin ability) (evals (l ++ l')) = Fin (v + v')
      /\ INR (List.length l) * ln (/ 10 ^ 10) <= v <= 0
      /\ (l = [] -> v = 0)
      /\ (l <> [] -> v < 0).
Proof.
  intros ability l l'. exists (Rloglik ability l), (Rloglik ability l').
  rewrite !logLikelihood_fin, Rloglik_app.
  destruct (Rloglik_bounds ability l) as [Hb Hneg].
  repeat split; try apply Hb; [| exact Hneg].
  intros ->. reflexivity.
Qed.


(** ** The log-prior and the log-posterior *)

Lemma logPrior_outside (x ALPHA BETA_PARAM : number) (xMin xMax : R) :
  (forall r, x = Fin r -> ~ xMin < r < xMax) ->
  logPrior x ALPHA BETA_PARAM (Fin xMin) (Fin xMax) = NegInf.
Proof.
  intros Hout. unfold logPrior.
  destruct x as [r | | |]; try reflexivity.
  specialize (Hout r eq_refl).
  unfold js_le, js_lt, js_eq, Rltb, Reqb.
  destruct (Rlt_dec xMin r), (Req_dec_T xMin r), (Rlt_dec r xMax), (Req_dec_T r xMax),
    (Req_dec_T r xMin); cbn; try reflexivity; exfalso; lra.
Qed.

Lemma logPosterior_cases (ability ALPHA BETA_PARAM xMin xMax : R) (l : list (R * R)) :
  let lp := logPosterior (Fin ability) (evals l) (Fin ALPHA) (Fin BETA_PARAM)
              (Fin xMin) (Fin xMax) in
  (xMin < ability < xMax -> lp = Fin (Rlogposterior l BETA_PARAM xMin xMax ability))
  /\ (~ xMin < ability < xMax -> lp = NegInf).
Proof.
  intros lp. subst lp. unfold logPosterior.
  rewrite logLikelihood_fin. split; intros Hin.
  - rewrite logPrior_fin by assumption. reflexivity.
  - rewrite logPrior_outside; [reflexivity |]. intros r [= <-]. exact Hin.
Qed.

(** X17: Over exact real arithmetic (no rounding, no overflow), for finite
    evaluations the log-posterior is a finite number exactly at the
    abilities strictly inside the domain, where it is the log-likelihood
    plus the log-prior; on the two bounds, outside the domain and on a
    domain that is empty or a single point it is [-Infinity], as the
    log-prior is. *)
Theorem logPosterior_finite_inside_only :
  forall (ability ALPHA BETA_PARAM xMin xMax : R) (l : list (R * R)),
    let lp := logPosterior (Fin ability) (evals l) (Fin ALPHA) (Fin BETA_PARAM)
                (Fin xMin) (Fin xMax) in
    let prior := logPrior (Fin ability) (Fin ALPHA) (Fin BETA_PARAM) (Fin xMin) (Fin xMax) in
    (isFinite lp = true <-> xMin < ability < xMax)
    /\ (isFinite prior = true <-> xMin < ability < xMax)
    /\ (xMin < ability < xMax ->
        lp = Fin (Rloglik ability l + Rlogprior ability BETA_PARAM xMin xMax))
    /\ (~ xMin < ability < xMax -> lp = NegInf /\ prior = NegInf).
Proof.
  intros ability ALPHA BETA_PARAM xMin xMax l lp prior.
  assert (Hin : xMin < ability < xMax ->
                prior = Fin (Rlogprior ability BETA_PARAM xMin xMax))
    by (intros Hin; now apply logPrior_fin).
  assert (Hout : ~ xMin < ability < xMax -> prior = NegInf).
  { intros Hout. apply logPrior_outside. intros r [= <-]. exact Hout. }
  assert (Hlp : lp = add (Fin (Rloglik ability l)) prior).
  { subst lp prior. unfold logPosterior. now rewrite logLikelihood_fin. }
  assert (Hdec : xMin < ability < xMax \/ ~ xMin < ability < xMax).
  { destruct (Rlt_dec xMin ability), (Rlt_dec ability xMax); (left; lra) || (right; lra). }
  split; [| split; [| split]].
  - rewrite Hlp. destruct Hdec as [H | H].
    + rewrite (Hin H). cbn. tauto.
    + rewrite (Hout H). cbn. split; [discriminate | tauto].
  - destruct Hdec as [H | H].
    + rewrite (Hin H). cbn. tauto.
    + rewrite (Hout H). cbn. split; [discriminate | tauto].
  - intros H. rewrite Hlp, (Hin H). reflexivity.
  - intros H. rewrite Hlp, (Hout H). split; reflexivity.
Qed.

(** ** What the shape parameter is used for *)

(** X18: [ALPHA] is read only by the closed form for the empty list: for a
    non-empty list the whole result of the grid search, and for any list
    the confidence interval, are the same whatever [ALPHA] is (the
    log-prior has the exponent of [x - xMin] fixed to one). *)
Theorem ALPHA_is_ignored_by_the_search :
  forall (evalItem : evaluation) (evaluations : list evaluation)
         (ALPHA ALPHA' BETA_PARAM xMin xMax estimatedAbility : number) (gridPoints : nat),
    estimateAbilityByGridSearchMAP (evalItem :: evaluations) ALPHA BETA_PARAM xMin xMax gridPoints
    = estimateAbilityByGridSearchMAP (evalItem :: evaluations) ALPHA' BETA_PARAM xMin xMax
        gridPoints
    /\ calculateBayesianConfidenceInterval estimatedAbility (evalItem :: evaluations)
         ALPHA BETA_PARAM xMin xMax
       = calculateBayesianConfidenceInterval estimatedAbility (evalItem :: evaluations)
           ALPHA' BETA_PARAM xMin xMax
    /\ calculateBayesianConfidenceInterval estimatedAbility [] ALPHA BETA_PARAM xMin xMax
       = calculateBayesianConfidenceInterval estimatedAbility [] ALPHA' BETA_PARAM xMin xMax.
Proof. intros. repeat split. Qed.

(** ** The closed form for the empty list and the prior of the search *)

Lemma Rlogprior_mode (x BETA_PARAM xMin xMax : R) :
  xMin < xMax -> 1 < BETA_PARAM -> xMin < x < xMax ->
  Rlogprior x BETA_PARAM xMin xMax
  <= Rlogprior (xMin + (xMax - xMin) / BETA_PARAM) BETA_PARAM xMin xMax.
Proof.
  intros Hdom Hb Hx. unfold Rlogprior.
  set (L := xMax - xMin). set (m := xMin + L / BETA_PARAM).
  assert (HL : 0 < L) by (subst L; lra).
  assert (Hm1 : m - xMin = L / BETA_PARAM) by (subst m; ring).
  assert (Hm2 : xMax - m = L * (BETA_PARAM - 1) / BETA_PARAM) by (subst m L; field; lra).
  assert (Hp1 : 0 < L / BETA_PARAM) by (apply Rdiv_lt_0_compat; lra).
  assert (Hp2 : 0 < L * (BETA_PARAM - 1) / BETA_PARAM).
  { apply Rdiv_lt_0_compat; [| lra]. apply Rmult_lt_0_compat; lra. }
  pose proof (ln_diff_upper (m - xMin) (x - xMin) ltac:(lra) ltac:(lra)) as H1.
  pose proof (ln_diff_upper (xMax - m) (xMax - x) ltac:(lra) ltac:(lra)) as H2.
  assert (Hsum : (x - xMin) / (m - xMin) - 1
                 + (BETA_PARAM - 1) * ((xMax - x) / (xMax - m) - 1) = 0).
  { rewrite Hm1, Hm2. subst L. field. lra. }
  assert (H2' : (BETA_PARAM - 1) * (ln (xMax - x) - ln (xMax - m))
                <= (BETA_PARAM - 1) * ((xMax - x) / (xMax - m) - 1))
    by (apply Rmult_le_compat_l; lra).
  lra.
Qed.

(** X19: With [ALPHA = 2] (the exponent the log-prior has built in) and
    [BETA_PARAM > 1], the value returned for the empty list lies strictly
    inside the domain and is where the log-prior of the grid search is
    largest. *)
Theorem empty_list_estimate_maximizes_logPrior :
  forall (BETA_PARAM xMin xMax x : R) (gridPoints : nat),
    xMin < xMax -> 1 < BETA_PARAM -> xMin < x < xMax ->
    exists mode p_mode p_x,
      bestAbility (estimateAbilityByGridSearchMAP [] (Fin 2) (Fin BETA_PARAM)
                     (Fin xMin) (Fin xMax) gridPoints) = Fin mode
      /\ xMin < mode < xMax
      /\ logPrior (Fin mode) (Fin 2) (Fin BETA_PARAM) (Fin xMin) (Fin xMax) = Fin p_mode
      /\ logPrior (Fin x) (Fin 2) (Fin BETA_PARAM) (Fin xMin) (Fin xMax) = Fin p_x
      /\ p_x <= p_mode.
Proof.
  intros BETA_PARAM xMin xMax x gridPoints Hdom Hb Hx.
  set (mode := xMin + (xMax - xMin) / BETA_PARAM).
  assert (Hmode : xMin < mode < xMax).
  { subst mode. assert (0 < (xMax - xMin) / BETA_PARAM) by (apply Rdiv_lt_0_compat; lra).
    assert ((xMax - xMin) / BETA_PARAM < xMax - xMin).
    { apply (Rmult_lt_reg_r BETA_PARAM); [lra |].
      replace ((xMax - xMin) / BETA_PARAM * BETA_PARAM) with (xMax - xMin) by (field; lra).
      nra. }
    lra. }
  exists mode, (Rlogprior mode BETA_PARAM xMin xMax), (Rlogprior x BETA_PARAM xMin xMax).
  split; [| split; [exact Hmode | split; [| split]]].
  - cbn. destruct (Req_dec_T (2 + BETA_PARAM + - (2)) 0); [lra |].
    f_equal. subst mode. field. lra.
  - apply logPrior_fin. exact Hmode.
  - apply logPrior_fin. exact Hx.
  - apply Rlogprior_mode; assumption.
Qed.


(** ** Edges of the grid search *)

(** X20: Over exact real arithmetic (the grid points are computed without
    rounding, so the last one is [xMax]), on a domain that is empty or a
    single point, or with fewer than two grid intervals, no grid point has a
    finite log-posterior and the search returns its fallback, [xMin]. *)
Theorem grid_search_degenerate_returns_xMin :
  forall (l : list (R * R)) (ALPHA BETA_PARAM xMin xMax : R) (gridPoints : nat),
    l <> [] ->
    ~ xMin < xMax \/ (gridPoints < 2)%nat ->
    bestAbility (estimateAbilityByGridSearchMAP (evals l) (Fin ALPHA) (Fin BETA_PARAM)
                   (Fin xMin) (Fin xMax) gridPoints) = Fin xMin.
Proof.
  intros l ALPHA BETA_PARAM xMin xMax gridPoints Hne Hdeg.
  destruct (finite_search_spec l ALPHA BETA_PARAM xMin xMax gridPoints Hne)
    as [[_ Hbest] | (Hlt & Hg & _)]; [exact Hbest |].
  destruct Hdeg; [contradiction | lia].
Qed.

Lemma mapi_from_length {A B : Type} (f : A -> nat -> B) (l : list A) :
  forall k, List.length (mapi_from k f l) = List.length l.
Proof. induction l as [| a l IH]; intros k; cbn; [reflexivity | now rewrite IH]. Qed.

Lemma search_arrays (evalItem : evaluation) (evaluations : list evaluation)
    (ALPHA BETA_PARAM xMin xMax : number) (gridPoints : nat) :
  let r := estimateAbilityByGridSearchMAP (evalItem :: evaluations) ALPHA BETA_PARAM
             xMin xMax gridPoints in
  let grid := grid_point xMin xMax gridPoints in
  abilities r = map grid (List.seq 0 (S gridPoints))
  /\ logPriors r
     = map (fun i => logPrior (grid i) ALPHA BETA_PARAM xMin xMax) (List.seq 0 (S gridPoints))
  /\ logLikelihoods r
     = map (fun i => logLikelihood (grid i) (evalItem :: evaluations))
           (List.seq 0 (S gridPoints))
  /\ logPosteriors r
     = map (posterior_at (evalItem :: evaluations) ALPHA BETA_PARAM xMin xMax gridPoints)
           (List.seq 0 (S gridPoints)).
Proof.
  intros r grid. subst r. unfold estimateAbilityByGridSearchMAP.
  set (points := List.seq 0 (S gridPoints)).
  assert (Hpost :
    mapi (fun ll i =>
            add ll (at_index (map (fun ab => logPrior ab ALPHA BETA_PARAM xMin xMax)
                                  (map grid points)) i))
         (map (fun ab => logLikelihood ab (evalItem :: evaluations)) (map grid points))
    = map (posterior_at (evalItem :: evaluations) ALPHA BETA_PARAM xMin xMax gridPoints) points).
  { unfold mapi. rewrite !map_map. subst points. rewrite mapi_from_map_seq.
    apply map_ext_in. intros i Hi. apply in_seq in Hi.
    rewrite at_index_map_seq by lia. reflexivity. }
  fold grid. fold points. rewrite Hpost.
  destruct (filter _ _); cbn [abilities logPriors logLikelihoods logPosteriors];
    rewrite !map_map; repeat split; reflexivity.
Qed.

(** X21: For a non-empty list the four arrays of the result hold one entry per
    grid point, [gridPoints + 1] in all: the grid point, its log-prior, its
    log-likelihood and, as their sum, its log-posterior; and [bestAbility]
    is one of the grid points, or [xMin]. *)
Theorem grid_search_arrays :
  forall (evalItem : evaluation) (evaluations : list evaluation)
         (ALPHA BETA_PARAM xMin xMax : number) (gridPoints : nat),
    let r := estimateAbilityByGridSearchMAP (evalItem :: evaluations) ALPHA BETA_PARAM
               xMin xMax gridPoints in
    List.length (abilities r) = S gridPoints
    /\ List.length (logPriors r) = S gridPoints
    /\ List.length (logLikelihoods r) = S gridPoints
    /\ List.length (logPosteriors r) = S gridPoints
    /\ (forall i, (i <= gridPoints)%nat ->
          at_index (abilities r) i = grid_point xMin xMax gridPoints i
          /\ at_index (logPriors r) i
             = logPrior (at_index (abilities r) i) ALPHA BETA_PARAM xMin xMax
          /\ at_index (logLikelihoods r) i
             = logLikelihood (at_index (abilities r) i) (evalItem :: evaluations)
          /\ at_index (logPosteriors r) i
             = add (at_index (logLikelihoods r) i) (at_index (logPriors r) i))
    /\ (bestAbility r = xMin \/ In (bestAbility r) (abilities r)).
Proof.
  intros evalItem evaluations ALPHA BETA_PARAM xMin xMax gridPoints r.
  destruct (search_arrays evalItem evaluations ALPHA BETA_PARAM xMin xMax gridPoints)
    as (Ha & Hp & Hl & Hpost).
  fold r in Ha, Hp, Hl, Hpost. rewrite Ha, Hp, Hl, Hpost.
  rewrite !length_map, !length_seq.
  repeat split; try reflexivity.
  - now rewrite at_index_map_seq by lia.
  - now rewrite !at_index_map_seq by lia.
  - now rewrite !at_index_map_seq by lia.
  - now rewrite !at_index_map_seq by lia.
  - pose proof (grid_search_spec (evalItem :: evaluations) ALPHA BETA_PARAM xMin xMax
                  gridPoints ltac:(discriminate)) as Hspec.
    cbn zeta in Hspec. fold r in Hspec.
    destruct Hspec as [[_ Hbest] | (m & Hm & _ & Hbest & _)]; [left; exact Hbest | right].
    rewrite Hbest. apply in_map, in_seq. lia.
Qed.


(** ** The confidence interval next to the bounds *)

Ltac special_values :=
  repeat first
    [ progress cbn [mul sub add neg div js_le js_lt js_eq isFinite negb orb]
    | progress unfold signed_inf
    | match goal with
      | |- context [Rlt_dec ?x ?y] => destruct (Rlt_dec x y); try (exfalso; lra)
      | |- context [Req_dec_T ?x ?y] => destruct (Req_dec_T x y); try (exfalso; lra)
      end ].

Lemma information_not_finite (a b c : number) :
  (a = NegInf \/ b = NegInf \/ c = NegInf) ->
  (forall x, x = a \/ x = b \/ x = c -> x = NegInf \/ exists v, x = Fin v) ->
  let information := neg (div (add (sub a (mul (Fin 2) b)) c) (mul h h)) in
  js_le information (Fin 0) || negb (isFinite information) = true.
Proof.
  intros Hone Hshape information. subst information.
  assert (Hh : mul h h = Fin (/ 10000 * / 10000)) by reflexivity. rewrite Hh.
  destruct (Hshape a ltac:(auto)) as [-> | [va ->]];
    destruct (Hshape b ltac:(auto)) as [-> | [vb ->]];
    destruct (Hshape c ltac:(auto)) as [-> | [vc ->]];
    try (destruct Hone as [Hone | [Hone | Hone]]; discriminate);
    special_values; reflexivity.
Qed.

(** X22: When the estimate handed to [calculateBayesianConfidenceInterval] is
    within [h = 0.0001] of a bound of the domain (on a bound and outside
    included, so in particular for the fallback value [xMin] of the search),
    a probe of the second difference falls where the log-posterior is
    [-Infinity], and the interval is the whole domain. *)
Theorem confidence_interval_next_to_a_bound :
  forall (l : list (R * R)) (ALPHA BETA_PARAM xMin xMax estimate : R),
    l <> [] ->
    estimate - / 10000 <= xMin \/ xMax <= estimate + / 10000 ->
    calculateBayesianConfidenceInterval (Fin estimate) (evals l) (Fin ALPHA) (Fin BETA_PARAM)
      (Fin xMin) (Fin xMax)
    = mkInterval (Fin xMin) (Fin xMax).
Proof.
  intros l ALPHA BETA_PARAM xMin xMax estimate Hne Hnear.
  unfold calculateBayesianConfidenceInterval.
  destruct (evals l) as [| ev evs] eqn:Hevs; [reflexivity |]. rewrite <- Hevs. cbn zeta.
  change (add (Fin estimate) h) with (Fin (estimate + / 10000)).
  change (sub (Fin estimate) h) with (Fin (estimate + - / 10000)).
  destruct (logPosterior_cases (estimate + / 10000) ALPHA BETA_PARAM xMin xMax l) as [Hp1 Hp2].
  destruct (logPosterior_cases estimate ALPHA BETA_PARAM xMin xMax l) as [Hc1 Hc2].
  destruct (logPosterior_cases (estimate + - / 10000) ALPHA BETA_PARAM xMin xMax l) as [Hm1 Hm2].
  cbn zeta in *.
  rewrite information_not_finite; [reflexivity | |].
  - destruct Hnear as [Hlow | Hhigh].
    + right. right. apply Hm2. lra.
    + left. apply Hp2. lra.
  - intros x [-> | [-> | ->]].
    + destruct (Rlt_dec xMin (estimate + / 10000)), (Rlt_dec (estimate + / 10000) xMax);
        try (left; apply Hp2; lra). right. eexists. apply Hp1. lra.
    + destruct (Rlt_dec xMin estimate), (Rlt_dec estimate xMax);
        try (left; apply Hc2; lra). right. eexists. apply Hc1. lra.
    + destruct (Rlt_dec xMin (estimate + - / 10000)), (Rlt_dec (estimate + - / 10000) xMax);
        try (left; apply Hm2; lra). right. eexists. apply Hm1. lra.
Qed.

(** ** One more full mark *)

Lemma full_mark_term_monotone (k x y : R) : x <= y -> Rterm x (k, k) <= Rterm y (k, k).
Proof.
  intros Hxy. unfold Rterm, Rlikelihood. cbn [fst snd].
  destruct (Req_dec_T k k) as [_ | Hkk]; [| congruence].
  apply floored_ln_monotone.
  destruct (Req_dec y x) as [-> | Hneq]; [lra |].
  left. apply Rsigmoid_increasing. lra.
Qed.

(** X23: Adding to a non-empty list one evaluation that is a full mark (its
    level is its [predictedMaxScore]), anywhere in the list, never lowers
    the estimate. *)
Theorem one_more_full_mark_never_lowers_the_estimate :
  forall (pre suf : list (R * R)) (k ALPHA BETA_PARAM xMin xMax : R) (gridPoints : nat),
    pre ++ suf <> [] ->
    exists before after,
      bestAbility (estimateAbilityByGridSearchMAP (evals (pre ++ suf))
                     (Fin ALPHA) (Fin BETA_PARAM) (Fin xMin) (Fin xMax) gridPoints)
      = Fin before /\
      bestAbility (estimateAbilityByGridSearchMAP (evals (pre ++ (k, k) :: suf))
                     (Fin ALPHA) (Fin BETA_PARAM) (Fin xMin) (Fin xMax) gridPoints)
      = Fin after /\
      before <= after.
Proof.
  intros pre suf k ALPHA BETA_PARAM xMin xMax gridPoints Hne.
  destruct (finite_search_spec (pre ++ suf) ALPHA BETA_PARAM xMin xMax gridPoints Hne)
    as [[Hdegenerate ->] | (Hlt & Hg & m1 & Hm1 & -> & _ & Hfirst1)];
  destruct (finite_search_spec (pre ++ (k, k) :: suf) ALPHA BETA_PARAM xMin xMax gridPoints
              ltac:(now destruct pre))
    as [[Hdegenerate' ->] | (Hlt' & Hg' & m2 & Hm2 & -> & Hmax2 & _)].
  - exists xMin, xMin. repeat split; lra.
  - destruct Hdegenerate; [contradiction | lia].
  - destruct Hdegenerate'; [contradiction | lia].
  - do 2 eexists. split; [reflexivity |]. split; [reflexivity |].
    destruct (Nat.le_gt_cases m1 m2) as [Hle | Hgt].
    + destruct (Nat.eq_dec m1 m2) as [-> | Hneq]; [lra |].
      left. apply Rgrid_increasing; [assumption | lia | lia].
    + exfalso.
      pose proof (Rgrid_increasing xMin xMax gridPoints m2 m1 Hlt ltac:(lia) Hgt) as Hx.
      specialize (Hfirst1 m2 ltac:(lia)). specialize (Hmax2 m1 Hm1).
      pose proof (full_mark_term_monotone k _ _ (Rlt_le _ _ Hx)) as Hterm.
      unfold Rlogposterior in Hfirst1, Hmax2. rewrite !Rloglik_insert in Hmax2. lra.
Qed.


(** ** What the estimate does not depend on *)

(** Two searches over grids that are a translation of one another, with the
    same log-posterior at corresponding interior grid points, return
    corresponding grid points. *)
Lemma search_transfer (l l' : list (R * R)) (ALPHA BETA_PARAM xMin xMax c : R)
    (gridPoints : nat) :
  l <> [] -> l' <> [] ->
  (forall j, (0 < j < gridPoints)%nat ->
     Rlogposterior l' BETA_PARAM (xMin + c) (xMax + c)
       (Rgrid (xMin + c) (xMax + c) gridPoints j)
     = Rlogposterior l BETA_PARAM xMin xMax (Rgrid xMin xMax gridPoints j)) ->
  exists a,
    bestAbility (estimateAbilityByGridSearchMAP (evals l) (Fin ALPHA) (Fin BETA_PARAM)
                   (Fin xMin) (Fin xMax) gridPoints) = Fin a
    /\ bestAbility (estimateAbilityByGridSearchMAP (evals l') (Fin ALPHA) (Fin BETA_PARAM)
                      (Fin (xMin + c)) (Fin (xMax + c)) gridPoints) = Fin (a + c).
Proof.
  intros Hne Hne' Hsame.
  destruct (finite_search_spec l ALPHA BETA_PARAM xMin xMax gridPoints Hne)
    as [[Hdegenerate ->] | (Hlt & Hg & m1 & Hm1 & -> & Hmax1 & Hfirst1)];
  destruct (finite_search_spec l' ALPHA BETA_PARAM (xMin + c) (xMax + c) gridPoints Hne')
    as [[Hdegenerate' ->] | (Hlt' & Hg' & m2 & Hm2 & -> & Hmax2 & Hfirst2)].
  - eauto.
  - destruct Hdegenerate; [exfalso; lra | lia].
  - destruct Hdegenerate'; [exfalso; lra | lia].
  - eexists. split; [reflexivity |]. f_equal.
    assert (Hm : m1 = m2).
    { destruct (Nat.lt_trichotomy m1 m2) as [Hlow | [Heq | Hhigh]]; [exfalso | exact Heq | exfalso].
      - specialize (Hfirst2 m1 ltac:(lia)). specialize (Hmax1 m2 Hm2).
        rewrite !Hsame in Hfirst2 by lia. lra.
      - specialize (Hfirst1 m2 ltac:(lia)). specialize (Hmax2 m1 Hm1).
        rewrite !Hsame in Hmax2 by lia. lra. }
    subst m2. unfold Rgrid. ring.
Qed.

Definition shift_levels (c : R) (l : list (R * R)) : list (R * R) :=
  map (fun p => (fst p + c, snd p + c)) l.

Lemma Rlikelihood_shift (x k n c : R) : Rlikelihood (x + c) (k + c) (n + c) = Rlikelihood x k n.
Proof.
  unfold Rlikelihood.
  replace (x + c - (k + c)) with (x - k) by ring.
  replace (x + c - (k + c + 1)) with (x - (k + 1)) by ring.
  destruct (Req_dec_T (k + c) (n + c)), (Req_dec_T k n); try reflexivity; exfalso; lra.
Qed.

Lemma Rloglik_shift (x c : R) (l : list (R * R)) :
  Rloglik (x + c) (shift_levels c l) = Rloglik x l.
Proof.
  induction l as [| [k n] l IH]; [reflexivity |].
  cbn [shift_levels map fst snd]. fold (shift_levels c l).
  rewrite !Rloglik_cons, IH. unfold Rterm. cbn [fst snd].
  now rewrite Rlikelihood_shift.
Qed.

(** X24: Moving every level, every predicted maximum score and both bounds of
    the domain by the same amount moves the estimate by that amount. *)
Theorem estimate_moves_with_the_scale :
  forall (l : list (R * R)) (ALPHA BETA_PARAM xMin xMax c : R) (gridPoints : nat),
    l <> [] ->
    exists a,
      bestAbility (estimateAbilityByGridSearchMAP (evals l) (Fin ALPHA) (Fin BETA_PARAM)
                     (Fin xMin) (Fin xMax) gridPoints) = Fin a
      /\ bestAbility (estimateAbilityByGridSearchMAP (evals (shift_levels c l))
                        (Fin ALPHA) (Fin BETA_PARAM) (Fin (xMin + c)) (Fin (xMax + c))
                        gridPoints) = Fin (a + c).
Proof.
  intros l ALPHA BETA_PARAM xMin xMax c gridPoints Hne.
  apply search_transfer; [exact Hne | destruct l; [congruence | discriminate] |].
  intros j Hj.
  replace (Rgrid (xMin + c) (xMax + c) gridPoints j) with (Rgrid xMin xMax gridPoints j + c)
    by (unfold Rgrid; ring).
  unfold Rlogposterior. rewrite Rloglik_shift. f_equal.
  unfold Rlogprior.
  replace (Rgrid xMin xMax gridPoints j + c - (xMin + c))
    with (Rgrid xMin xMax gridPoints j - xMin) by ring.
  replace (xMax + c - (xMin + c)) with (xMax - xMin) by ring.
  replace (xMax + c - (Rgrid xMin xMax gridPoints j + c))
    with (xMax - Rgrid xMin xMax gridPoints j) by ring.
  reflexivity.
Qed.

Lemma Rloglik_permutation (x : R) (l l' : list (R * R)) :
  Permutation l l' -> Rloglik x l = Rloglik x l'.
Proof.
  induction 1 as [| p l l' _ IH | p q l | l l' l'' _ IH1 _ IH2].
  - reflexivity.
  - now rewrite !Rloglik_cons, IH.
  - rewrite !Rloglik_cons. ring.
  - now rewrite IH1.
Qed.

(** X25: The estimate does not depend on the order in which the evaluations are
    listed. *)
Theorem estimate_ignores_the_order :
  forall (l l' : list (R * R)) (ALPHA BETA_PARAM xMin xMax : R) (gridPoints : nat),
    Permutation l l' ->
    bestAbility (estimateAbilityByGridSearchMAP (evals l) (Fin ALPHA) (Fin BETA_PARAM)
                   (Fin xMin) (Fin xMax) gridPoints)
    = bestAbility (estimateAbilityByGridSearchMAP (evals l') (Fin ALPHA) (Fin BETA_PARAM)
                     (Fin xMin) (Fin xMax) gridPoints).
Proof.
  intros l l' ALPHA BETA_PARAM xMin xMax gridPoints Hperm.
  destruct l as [| p l].
  { apply Permutation_nil in Hperm. now subst l'. }
  assert (Hne' : l' <> []).
  { intros ->. apply Permutation_sym, Permutation_nil in Hperm. discriminate. }
  destruct (search_transfer (p :: l) l' ALPHA BETA_PARAM xMin xMax 0 gridPoints
              ltac:(discriminate) Hne') as (a & Ha & Ha').
  - intros j Hj. rewrite !Rplus_0_r. unfold Rlogposterior.
    now rewrite (Rloglik_permutation _ _ _ Hperm).
  - rewrite !Rplus_0_r in Ha'. now rewrite Ha, Ha'.
Qed.

End EstimatorShape.

Section EstimatorShapeRuns.

Import AbilityEstimator.
Local Open Scope R_scope.

Lemma empty_list_estimate_maximizes_logPrior_witness :
  exists mode p_mode p_x,
    bestAbility (estimateAbilityByGridSearchMAP [] (Fin 2) (Fin 5) (Fin 0) (Fin 4) 500)
    = Fin mode
    /\ 0 < mode < 4
    /\ logPrior (Fin mode) (Fin 2) (Fin 5) (Fin 0) (Fin 4) = Fin p_mode
    /\ logPrior (Fin 2) (Fin 2) (Fin 5) (Fin 0) (Fin 4) = Fin p_x
    /\ p_x <= p_mode.
Proof.
  exact (empty_list_estimate_maximizes_logPrior 5 0 4 2 500
           ltac:(lra) ltac:(lra) ltac:(lra)).
Defined.

Lemma grid_search_degenerate_returns_xMin_witness :
  bestAbility (estimateAbilityByGridSearchMAP (evals [(1, 4)]) (Fin 2) (Fin 5)
                 (Fin 0) (Fin 4) 1) = Fin 0.
Proof.
  exact (grid_search_degenerate_returns_xMin [(1, 4)] 2 5 0 4 1
           ltac:(discriminate) ltac:(right; lia)).
Defined.

Lemma confidence_interval_next_to_a_bound_witness :
  calculateBayesianConfidenceInterval (Fin 0) (evals [(1, 4)]) (Fin 2) (Fin 5) (Fin 0) (Fin 4)
  = mkInterval (Fin 0) (Fin 4).
Proof.
  exact (confidence_interval_next_to_a_bound [(1, 4)] 2 5 0 4 0
           ltac:(discriminate) ltac:(left; lra)).
Defined.

Lemma one_more_full_mark_never_lowers_the_estimate_witness :
  exists before after,
    bestAbility (estimateAbilityByGridSearchMAP (evals ([(1, 4)] ++ []))
                   (Fin 2) (Fin 5) (Fin 0) (Fin 4) 500) = Fin before /\
    bestAbility (estimateAbilityByGridSearchMAP (evals ([(1, 4)] ++ (4, 4) :: []))
                   (Fin 2) (Fin 5) (Fin 0) (Fin 4) 500) = Fin after /\
    before <= after.
Proof.
  exact (one_more_full_mark_never_lowers_the_estimate [(1, 4)] [] 4 2 5 0 4 500
           ltac:(discriminate)).
Defined.

Lemma estimate_moves_with_the_scale_witness :
  exists a,
    bestAbility (estimateAbilityByGridSearchMAP (evals [(1, 4)]) (Fin 2) (Fin 5)
                   (Fin 0) (Fin 4) 500) = Fin a
    /\ bestAbility (estimateAbilityByGridSearchMAP (evals (shift_levels 1 [(1, 4)]))
                      (Fin 2) (Fin 5) (Fin (0 + 1)) (Fin (4 + 1)) 500) = Fin (a + 1).
Proof.
  exact (estimate_moves_with_the_scale [(1, 4)] 2 5 0 4 1 500 ltac:(discriminate)).
Defined.

Lemma estimate_ignores_the_order_witness :
  bestAbility (estimateAbilityByGridSearchMAP (evals [(1, 4); (3, 3)]) (Fin 2) (Fin 5)
                 (Fin 0) (Fin 4) 500)
  = bestAbility (estimateAbilityByGridSearchMAP (evals [(3, 3); (1, 4)]) (Fin 2) (Fin 5)
                   (Fin 0) (Fin 4) 500).
Proof.
  exact (estimate_ignores_the_order [(1, 4); (3, 3)] [(3, 3); (1, 4)] 2 5 0 4 500
           (perm_swap (3, 3) (1, 4) [])).
Defined.

End EstimatorShapeRuns.

(* ====================================================================== *)
(** * Properties of the ability of a user *)
(* ====================================================================== *)

Section AbilityServiceFacts.

Import RetryPolicy AbilityEstimator BatchConstruction AbilityService.
Local Open Scope R_scope.

(** A stored evaluation whose level is a finite number and whose predicted
    maximum score is a finite number or missing. *)
Definition finite_row (ev : StoredEvaluation) : Prop :=
  (exists lv, stored_level ev = Fin lv)
  /\ (stored_predictedMaxScore ev = None
      \/ exists m, stored_predictedMaxScore ev = Some (Fin m)).

Lemma mleData_finite (source : Source) (rows : list StoredEvaluation) :
  Forall finite_row rows ->
  exists l, mleData source rows = evals l /\ List.length l = List.length rows.
Proof.
  induction 1 as [| ev rows [[lv Hlv] Hmax] _ (l & Hl & Hlen)].
  - exists []. split; reflexivity.
  - assert (Hn : exists n, nullish (stored_predictedMaxScore ev)
                             (default_predictedMaxScore source) = Fin n).
    { destruct Hmax as [-> | [m ->]]; cbn [nullish]; [destruct source; cbn; eauto | eauto]. }
    destruct Hn as [n Hn]. exists ((lv, n) :: l). split.
    + unfold mleData in *. cbn [map evals fst snd]. rewrite Hlv, Hn, Hl. reflexivity.
    + cbn [List.length]. now rewrite Hlen.
Qed.

Lemma confidence_interval_within (evaluations : list evaluation)
    (ALPHA BETA_PARAM : number) (xMin xMax estimate : R) :
  xMin <= estimate <= xMax ->
  exists lo hi,
    calculateBayesianConfidenceInterval (Fin estimate) evaluations ALPHA BETA_PARAM
      (Fin xMin) (Fin xMax) = mkInterval (Fin lo) (Fin hi)
    /\ xMin <= lo <= estimate /\ estimate <= hi <= xMax.
Proof.
  intros Hin. unfold calculateBayesianConfidenceInterval.
  destruct evaluations as [| ev evs]; [exists xMin, xMax; split; [reflexivity | lra] |].
  cbn zeta.
  set (I := neg _).
  destruct (js_le I (Fin 0) || negb (isFinite I)) eqn:Hfallback;
    [exists xMin, xMax; split; [reflexivity | lra] |].
  apply orb_false_iff in Hfallback as [Hle Hfin].
  destruct I as [i | | |]; try discriminate.
  assert (Hi : 0 < i).
  { unfold js_le, js_lt, js_eq, Rltb, Reqb in Hle.
    destruct (Rlt_dec i 0), (Req_dec_T i 0); cbn in Hle; try discriminate. lra. }
  pose proof (sqrt_pos_lt i Hi) as Hs.
  assert (Hm : 0 < 196 / 100 * (1 / sqrt i)).
  { apply Rmult_lt_0_compat; [lra |]. apply Rdiv_lt_0_compat; lra. }
  unfold zScore. cbn [Math_sqrt]. destruct (Rlt_dec i 0); [lra |].
  cbn [div]. destruct (Req_dec_T (sqrt i) 0); [lra |].
  cbn [mul sub add neg Math_max Math_min js_lt]. unfold Rltb.
  destruct (Rlt_dec xMin _), (Rlt_dec _ xMax); do 2 eexists; (split; [reflexivity | lra]).
Qed.

Section ServiceFacts.

Variable getUserEvaluationsByCriteria :
  string -> string -> string -> js_error + list StoredEvaluation.
Variable getSlackUserInfo : string -> js_error + option string.
Variable getSlackThreadEvaluationsByUserAndCriteria :
  string -> string -> option (list string) -> js_error + list StoredEvaluation.

Local Abbreviation rows_of :=
  (evaluations_of getUserEvaluationsByCriteria getSlackUserInfo
     getSlackThreadEvaluationsByUserAndCriteria).
Local Abbreviation ability_of :=
  (calculateUserAbility getUserEvaluationsByCriteria getSlackUserInfo
     getSlackThreadEvaluationsByUserAndCriteria).

Lemma calculateUserAbility_cases (criteriaName : string)
    (repositorySlug authorUsername username : option string) (source : Source)
    (channelIds : option (list string)) (rows : list StoredEvaluation) :
  rows_of criteriaName repositorySlug authorUsername username source channelIds = inr rows ->
  Forall finite_row rows ->
  exists a lo hi,
    ability_of criteriaName repositorySlug authorUsername username source channelIds
    = inr (mkUserAbility (Fin a) (mkInterval (Fin lo) (Fin hi)))
    /\ 0 <= lo <= a /\ a <= hi <= 4 /\ a < 4
    /\ (filter evaluable rows = [] -> a = 0 /\ lo = 0 /\ hi = 0)
    /\ (filter evaluable rows <> [] -> 0 < a).
Proof.
  intros Hrows Hfinite. unfold calculateUserAbility. rewrite Hrows.
  destruct rows as [| ev rows].
  { exists 0, 0, 0. repeat split; try lra; try reflexivity. cbn. congruence. }
  set (all := ev :: rows) in *.
  destruct (filter evaluable all) as [| v valid] eqn:Hvalid.
  { exists 0, 0, 0. repeat split; try lra; try reflexivity. congruence. }
  assert (Hvf : Forall finite_row (v :: valid)).
  { rewrite <- Hvalid. apply Forall_forall. intros x Hx. apply filter_In in Hx as [Hx _].
    revert x Hx. now apply Forall_forall. }
  destruct (mleData_finite source (v :: valid) Hvf) as (l & Hl & Hlen).
  assert (Hne : l <> []) by (destruct l; [discriminate | discriminate]).
  cbn zeta. rewrite Hl. unfold ALPHA, BETA_PARAM, xMin, xMax, default_gridPoints.
  destruct (finite_search_spec l 2 5 0 4 500 Hne)
    as [[[Hlt | Hg] _] | (_ & _ & m & Hm & Hbest & _)]; [lra | lia |].
  rewrite Hbest, Rgrid_0_4_500.
  assert (Hm0 : 0 < INR m) by (apply lt_0_INR; lia).
  assert (Hm500 : INR m < 500).
  { replace 500 with (INR 500) by (rewrite INR_IZR_INZ; reflexivity). apply lt_INR. lia. }
  destruct (confidence_interval_within (evals l) (Fin 2) (Fin 5) 0 4 (INR m / 125)
              ltac:(lra)) as (lo & hi & Hci & Hlo & Hhi).
  exists (INR m / 125), lo, hi. rewrite Hci.
  split; [reflexivity |]. split; [lra |]. split; [lra |]. split; [lra |].
  split; [intros [=] | intros _; lra].
Qed.

(** X26: [calculateUserAbility] throws exactly when its rows cannot be fetched
    (a missing argument, an unknown source, a Slack user that is not found,
    a failing query), and then with the error of the fetch: the estimation
    itself never throws.  When the rows are fetched and hold finite
    numbers, it returns an ability within [0, 4) inside a confidence
    interval within [0, 4]; the ability is 0, with the interval [0, 0],
    when no row is evaluable, and strictly positive when some row is. *)
Theorem calculateUserAbility_range :
  forall (criteriaName : string) (repositorySlug authorUsername username : option string)
         (source : Source) (channelIds : option (list string)),
    (forall e,
       rows_of criteriaName repositorySlug authorUsername username source channelIds = inl e <->
       ability_of criteriaName repositorySlug authorUsername username source channelIds = inl e)
    /\ (forall rows,
          rows_of criteriaName repositorySlug authorUsername username source channelIds
          = inr rows ->
          Forall finite_row rows ->
          exists a lo hi,
            ability_of criteriaName repositorySlug authorUsername username source channelIds
            = inr (mkUserAbility (Fin a) (mkInterval (Fin lo) (Fin hi)))
            /\ 0 <= lo <= a /\ a <= hi <= 4 /\ a < 4
            /\ (filter evaluable rows = [] -> a = 0 /\ lo = 0 /\ hi = 0)
            /\ (filter evaluable rows <> [] -> 0 < a)).
Proof.
  intros criteriaName repositorySlug authorUsername username source channelIds.
  split; [| apply calculateUserAbility_cases].
  intros e. unfold calculateUserAbility.
  destruct (rows_of criteriaName repositorySlug authorUsername username source channelIds)
    as [e' | rows]; [split; intros [= ->]; reflexivity |].
  split; [discriminate |].
  destruct rows as [| ev rows]; [discriminate |].
  destruct (filter evaluable (ev :: rows)); discriminate.
Qed.

End ServiceFacts.

(** ** The route *)

Lemma set_key_fresh {V : Type} (obj : list (string * V)) (key : string) (value : V) :
  ~ In key (map fst obj) -> set_key obj key value = obj ++ [(key, value)].
Proof.
  induction obj as [| [k v] obj IH]; intros Hfresh; [reflexivity |].
  cbn [set_key app]. cbn [map fst In] in Hfresh.
  destruct (String.eqb k key) eqn:Hk.
  - apply String.eqb_eq in Hk. tauto.
  - f_equal. apply IH. tauto.
Qed.

Lemma fold_set_key {V : Type} (f : string -> V) (keys : list string) :
  NoDup keys ->
  forall obj : list (string * V),
    (forall k, In k keys -> ~ In k (map fst obj)) ->
    fold_left (fun obj key => set_key obj key (f key)) keys obj
    = obj ++ map (fun key => (key, f key)) keys.
Proof.
  induction 1 as [| key keys Hkey _ IH]; intros obj Hfresh; cbn [fold_left map].
  - now rewrite app_nil_r.
  - rewrite set_key_fresh by (apply Hfresh; now left).
    rewrite IH.
    + now rewrite <- app_assoc.
    + intros k Hk. rewrite map_app, in_app_iff. cbn [map fst In].
      intros [Hin | [<- | []]]; [| contradiction].
      exact (Hfresh k (or_intror Hk) Hin).
Qed.

Lemma EVALUATION_CRITERIA_NoDup : NoDup EVALUATION_CRITERIA.
Proof.
  unfold EVALUATION_CRITERIA.
  repeat (constructor; [cbn; intuition discriminate |]). constructor.
Qed.

(** A score within the domain, inside its interval. *)
Definition score_in_range (s : AbilityScore) : Prop :=
  exists a lo hi,
    s = mkAbilityScore (Fin a) (mkInterval (Fin lo) (Fin hi))
    /\ 0 <= lo <= a /\ a <= hi <= 4.

Definition score_value (s : AbilityScore) : R := real_of (score s).

Definition mean (xs : list R) : R := fold_right Rplus 0 xs / INR (List.length xs).

Lemma sum_of_scores (scores : list AbilityScore) :
  Forall score_in_range scores ->
  forall acc : R,
    fold_left (fun sum scoreObj => add sum (score scoreObj)) scores (Fin acc)
    = Fin (acc + fold_right Rplus 0 (map score_value scores))
    /\ 0 <= fold_right Rplus 0 (map score_value scores) <= 4 * INR (List.length scores).
Proof.
  induction 1 as [| s scores (a & lo & hi & -> & Hlo & Hhi) _ IH]; intros acc.
  - cbn. split; [f_equal; lra | lra].
  - cbn [fold_left map fold_right score add]. destruct (IH (acc + a)) as [-> Hsum].
    change (List.length (_ :: scores)) with (S (List.length scores)). rewrite S_INR.
    unfold score_value in *. cbn [score real_of].
    split; [f_equal; lra | lra].
Qed.

Lemma Math_round_thousandths (x : R) :
  0 <= x <= 4 ->
  exists y, div (Math_round (mul (Fin x) (Fin 1000))) (Fin 1000) = Fin y
            /\ 0 <= y <= 4 /\ - / 2000 <= y - x <= / 2000.
Proof.
  intros Hx. cbn [mul Math_round div].
  destruct (Req_dec_T 1000 0) as [H0 | _]; [lra |].
  eexists. split; [reflexivity |].
  set (n := Int_part (x * 1000 + / 2)).
  destruct (base_Int_part (x * 1000 + / 2)) as [Hle Hgt]. fold n in Hle, Hgt.
  clearbody n.
  assert (Hn0 : (0 <= n)%Z).
  { assert (H : (-1 < n)%Z) by (apply lt_IZR; lra). lia. }
  assert (Hn4 : (n <= 4000)%Z).
  { assert (H : (n < 4001)%Z) by (apply lt_IZR; lra). lia. }
  apply IZR_le in Hn0, Hn4. lra.
Qed.

Section RouteFacts.

Variable getUserEvaluationsByCriteria :
  string -> string -> string -> js_error + list StoredEvaluation.
Variable getSlackUserInfo : string -> js_error + option string.
Variable getSlackThreadEvaluationsByUserAndCriteria :
  string -> string -> option (list string) -> js_error + list StoredEvaluation.

Hypothesis finite_rows :
  forall repositorySlug authorUsername criteriaName rows,
    getUserEvaluationsByCriteria repositorySlug authorUsername criteriaName = inr rows ->
    Forall finite_row rows.

Local Abbreviation handler :=
  (POST getUserEvaluationsByCriteria getSlackUserInfo
     getSlackThreadEvaluationsByUserAndCriteria).
Local Abbreviation entry :=
  (score_of getUserEvaluationsByCriteria getSlackUserInfo
     getSlackThreadEvaluationsByUserAndCriteria).

Lemma score_of_in_range (repositorySlug authorUsername : option string) (criteria : string) :
  score_in_range (entry repositorySlug authorUsername criteria).
Proof.
  unfold score_of.
  destruct (evaluations_of getUserEvaluationsByCriteria getSlackUserInfo
              getSlackThreadEvaluationsByUserAndCriteria
              criteria repositorySlug authorUsername None github None) as [e | rows] eqn:Hrows.
  - unfold calculateUserAbility. rewrite Hrows.
    exists 0, 0, 0. split; [reflexivity | lra].
  - assert (Hfinite : Forall finite_row rows).
    { unfold evaluations_of in Hrows.
      destruct (missing repositorySlug || missing authorUsername); [discriminate |].
      eapply finite_rows. exact Hrows. }
    destruct (calculateUserAbility_cases getUserEvaluationsByCriteria getSlackUserInfo
                getSlackThreadEvaluationsByUserAndCriteria
                criteria repositorySlug authorUsername None github None rows Hrows Hfinite)
      as (a & lo & hi & -> & Hlo & Hhi & _).
    exists a, lo, hi. split; [reflexivity | lra].
Qed.

(** X27: Provided every row that the GitHub query returns holds a finite
    level and a predicted maximum that is [null] or finite
    ([finite_rows]), and over exact real arithmetic: the route answers a
    request that names both the author and the repository with one score
    per criterion, in the order of the criteria (a criterion whose
    calculation throws scores 0, so no failure of the database fails the
    request); every score lies within [0, 4] inside its interval, and the
    average that is reported lies within [0, 4] and within 0.0005 of the
    mean of the six scores.  A request that leaves out either name is
    refused. *)
Theorem ability_score_route :
  forall authorUsername repositorySlug : option string,
    (missing authorUsername || missing repositorySlug = true ->
     handler (inr (authorUsername, repositorySlug))
     = BadRequest "Author username and repository name are required")
    /\ (missing authorUsername || missing repositorySlug = false ->
        exists abilityScores averageScore,
          handler (inr (authorUsername, repositorySlug))
          = Success abilityScores (Fin averageScore) 6
          /\ map fst abilityScores = EVALUATION_CRITERIA
          /\ Forall score_in_range (map snd abilityScores)
          /\ 0 <= averageScore <= 4
          /\ - / 2000 <= averageScore - mean (map score_value (map snd abilityScores))
             <= / 2000).
Proof.
  intros authorUsername repositorySlug. unfold POST.
  split; intros Hmissing; rewrite Hmissing; [reflexivity |].
  cbn zeta. unfold abilityScores_of, Object_values.
  rewrite (fold_set_key (entry repositorySlug authorUsername) _ EVALUATION_CRITERIA_NoDup)
    by (intros k _ []).
  cbn [app].
  set (abilityScores := map (fun key => (key, entry repositorySlug authorUsername key))
                            EVALUATION_CRITERIA).
  assert (Hkeys : map fst abilityScores = EVALUATION_CRITERIA).
  { subst abilityScores. rewrite map_map. cbn [fst]. apply map_id. }
  assert (Hscores : Forall score_in_range (map snd abilityScores)).
  { subst abilityScores. rewrite map_map. cbn [snd]. apply Forall_forall.
    intros s Hs. apply in_map_iff in Hs as (criteria & <- & _). apply score_of_in_range. }
  assert (Hlen : List.length (map snd abilityScores) = 6%nat).
  { subst abilityScores. now rewrite !length_map. }
  destruct (sum_of_scores (map snd abilityScores) Hscores 0) as [Hsum Hbounds].
  unfold averageScore_of. rewrite Hlen, Hsum. cbn [Nat.ltb Nat.leb].
  rewrite Hlen in Hbounds.
  assert (H6 : INR 6 = 6) by (rewrite INR_IZR_INZ; reflexivity). rewrite H6 in *.
  cbn [div]. destruct (Req_dec_T 6 0) as [H0 | _]; [lra |].
  set (total := fold_right Rplus 0 (map score_value (map snd abilityScores))) in *.
  destruct (Math_round_thousandths ((0 + total) / 6) ltac:(lra)) as (y & -> & Hy & Hnear).
  exists abilityScores, y.
  split; [reflexivity |]. split; [exact Hkeys |]. split; [exact Hscores |].
  split; [exact Hy |].
  unfold mean. rewrite length_map, Hlen, H6. fold total.
  replace (total / 6) with ((0 + total) / 6) by (f_equal; lra). exact Hnear.
Qed.

End RouteFacts.

End AbilityServiceFacts.

Section AbilityServiceRuns.

Import RetryPolicy AbilityEstimator BatchConstruction AbilityService.
Local Open Scope string_scope.
Local Open Scope R_scope.

(** A database with two evaluable evaluations and one that is not for
    every criterion but one, whose query fails. *)
Definition sample_github_rows (repositorySlug authorUsername criteriaName : string)
    : js_error + list StoredEvaluation :=
  if String.eqb criteriaName "問題解決領域"
  then inl (Error "SQLITE_BUSY: database is locked")
  else inr [ mkStored (Fin 3) true None;
             mkStored (Fin 0) false (Some (Fin 4));
             mkStored (Fin 1) true (Some (Fin 4)) ].

Definition no_slack_user (name : string) : js_error + option string := inr None.

Definition no_slack_rows (userId criteriaName : string) (channelIds : option (list string))
    : js_error + list StoredEvaluation := inr [].

Lemma sample_github_rows_finite :
  forall repositorySlug authorUsername criteriaName rows,
    sample_github_rows repositorySlug authorUsername criteriaName = inr rows ->
    Forall finite_row rows.
Proof.
  intros repositorySlug authorUsername criteriaName rows. unfold sample_github_rows.
  destruct (String.eqb criteriaName _); [discriminate |]. intros [= <-].
  repeat (apply Forall_cons; [unfold finite_row; cbn; split; eauto |]). apply Forall_nil.
Qed.

Lemma calculateUserAbility_range_witness :
  exists a lo hi,
    calculateUserAbility sample_github_rows no_slack_user no_slack_rows
      "チームワーク領域" (Some "octo/repo") (Some "alice") None github None
    = inr (mkUserAbility (Fin a) (mkInterval (Fin lo) (Fin hi)))
    /\ 0 <= lo <= a /\ a <= hi <= 4 /\ a < 4
    /\ (filter evaluable [ mkStored (Fin 3) true None;
                           mkStored (Fin 0) false (Some (Fin 4));
                           mkStored (Fin 1) true (Some (Fin 4)) ] = [] ->
        a = 0 /\ lo = 0 /\ hi = 0)
    /\ (filter evaluable [ mkStored (Fin 3) true None;
                           mkStored (Fin 0) false (Some (Fin 4));
                           mkStored (Fin 1) true (Some (Fin 4)) ] <> [] -> 0 < a).
Proof.
  apply (proj2 (calculateUserAbility_range sample_github_rows no_slack_user no_slack_rows
                  "チームワーク領域" (Some "octo/repo") (Some "alice") None github None)).
  - reflexivity.
  - repeat (apply Forall_cons; [unfold finite_row; cbn; split; eauto |]). apply Forall_nil.
Defined.

Lemma ability_score_route_witness :
  (missing (Some "alice") || missing (Some "octo/repo") = true ->
   POST sample_github_rows no_slack_user no_slack_rows (inr (Some "alice", Some "octo/repo"))
   = BadRequest "Author username and repository name are required")
  /\ (missing (Some "alice") || missing (Some "octo/repo") = false ->
      exists abilityScores averageScore,
        POST sample_github_rows no_slack_user no_slack_rows
          (inr (Some "alice", Some "octo/repo"))
        = Success abilityScores (Fin averageScore) 6
        /\ map fst abilityScores = EVALUATION_CRITERIA
        /\ Forall score_in_range (map snd abilityScores)
        /\ 0 <= averageScore <= 4
        /\ - / 2000 <= averageScore - mean (map score_value (map snd abilityScores))
           <= / 2000).
Proof.
  exact (ability_score_route sample_github_rows no_slack_user no_slack_rows
           sample_github_rows_finite (Some "alice") (Some "octo/repo")).
Defined.

End AbilityServiceRuns.
